(** * Sonos volume dial: a shallow embedding of the Stream Deck action

    The development follows the [SonosVolumeDial] action class (the
    variant with a debounced volume write and a self-rescheduling poller)
    and the small [SonosVolumeControl] action registered by [plugin.ts].

    Modelling conventions.
    - The mutable instance fields of the class are the first nine fields of
      the record [World]; the remaining fields are the part of the JavaScript
      run time the class talks to: the table of pending timers, the table of
      pending network promises, allocation counters and the chronological
      list of effects performed so far.
    - JavaScript numbers are integers of [Z] (ticks, steps and volumes are
      integral; the embedding is exact below 2^53).
    - An [async] method runs synchronously up to its first [await] on a
      network promise; there it registers a continuation in [awaits].  The
      promise settles later, by [settleRead] or [settleWrite], on whatever the
      world is at that moment, so handlers interleave exactly at the points
      where the source can be suspended.
    - Calls on the host ([setFeedback], [setSettings], [showAlert]) are
      recorded as effects and do not fail; logger calls are not modelled.
    - The microtask of [onDialUp] / [onTouchTap]
      ([Promise.resolve().then(...)]) runs right after the synchronous body
      of the handler, before any other event of the instance.
    - Time is not measured: a pending timer may expire at any later turn of
      the event loop, and its delay is recorded with it.  Rotation events
      "within one debounce window" are events between which the debounce
      timer does not expire.

    The repository also holds earlier variants of the class (no debounce, a
    read-back after every write); they are not modelled here. *)

From stdpp Require Import gmap strings list pretty.
From Stdlib Require Import ZArith Lia.

Local Open Scope Z_scope.

(** ** Data model *)

(** An action context of the host (a [DialAction] object), by identity. *)
Definition DialAction := nat.
Bind Scope nat_scope with DialAction.

(** [SonosVolumeDialSettings]; every field may be [undefined] at run time. *)
Record Settings := mkSettings {
  speakerIp : option string;
  value : option Z;
  volumeStep : option Z
}.

(** A [Sonos] client object: the host it was built for and its identity. *)
Record Sonos := mkSonos {
  host : string;
  conn : nat
}.

(** [opacity: isMuted ? 0.5 : 1.0] *)
Inductive Opacity := Half | Full.

Definition opacity (muted : bool) : Opacity := if muted then Half else Full.

(** What the instance does to the outside world, in the order it does it. *)
Inductive Effect :=
| NewSonos (s : Sonos)
| GetVolume (s : Sonos)
| GetMuted (s : Sonos)
| SetMuted (s : Sonos) (m : bool)
| SetVolume (s : Sonos) (v : Z)
| SetFeedback (a : DialAction) (v : Z) (o : Opacity)
| SetSettings (a : DialAction) (st : Settings)
| ShowAlert (a : DialAction) (msg : string).

(** The closures handed to [setTimeout]. *)
Inductive Callback :=
| PollWake
| VolumeChange (a : DialAction) (ip : string) (newValue : Z).

Record Timer := mkTimer {
  delay : Z;
  callback : Callback
}.

(** Continuations suspended on [Promise.all([getVolume(), getMuted()])]. *)
Inductive ReadCont :=
| KPoll
| KAppear (a : DialAction) (ip : string) (step v : Z)
| KSettings (a : DialAction) (st : Settings).

(** Continuations suspended on [setMuted(..)] or [setVolume(..)]. *)
Inductive WriteCont :=
| KUnmute (a : DialAction) (newValue : Z)
| KSetVolume (a : DialAction)
| KToggle (a : DialAction).

Inductive Pending :=
| AwaitRead (k : ReadCont)
| AwaitWrite (k : WriteCont).

Record World := mkWorld {
  sonos : option Sonos;
  lastKnownVolume : Z;
  isMuted : bool;
  pollInterval : option bool;
  pollTimeoutId : option nat;
  currentAction : option DialAction;
  currentSettings : option Settings;
  volumeChangeTimeout : option nat;
  isRotating : bool;
  timers : gmap nat Timer;
  nextTimer : nat;
  awaits : gmap nat Pending;
  nextAwait : nat;
  nextConn : nat;
  trace : list Effect
}.

Definition POLLING_INTERVAL_MS : Z := 3000.
Definition VOLUME_CHANGE_DEBOUNCE_MS : Z := 500.

(** A freshly constructed instance on an idle run time. *)
Definition initial : World :=
  mkWorld None 50 false None None None None None false ∅ 0 ∅ 0 0 [].

(** ** Field assignments *)

Definition set_sonos (x : option Sonos) (w : World) : World :=
  mkWorld x (lastKnownVolume w) (isMuted w) (pollInterval w) (pollTimeoutId w)
    (currentAction w) (currentSettings w) (volumeChangeTimeout w) (isRotating w)
    (timers w) (nextTimer w) (awaits w) (nextAwait w) (nextConn w) (trace w).

Definition set_lastKnownVolume (x : Z) (w : World) : World :=
  mkWorld (sonos w) x (isMuted w) (pollInterval w) (pollTimeoutId w)
    (currentAction w) (currentSettings w) (volumeChangeTimeout w) (isRotating w)
    (timers w) (nextTimer w) (awaits w) (nextAwait w) (nextConn w) (trace w).

Definition set_isMuted (x : bool) (w : World) : World :=
  mkWorld (sonos w) (lastKnownVolume w) x (pollInterval w) (pollTimeoutId w)
    (currentAction w) (currentSettings w) (volumeChangeTimeout w) (isRotating w)
    (timers w) (nextTimer w) (awaits w) (nextAwait w) (nextConn w) (trace w).

Definition set_pollInterval (x : option bool) (w : World) : World :=
  mkWorld (sonos w) (lastKnownVolume w) (isMuted w) x (pollTimeoutId w)
    (currentAction w) (currentSettings w) (volumeChangeTimeout w) (isRotating w)
    (timers w) (nextTimer w) (awaits w) (nextAwait w) (nextConn w) (trace w).

Definition set_pollTimeoutId (x : option nat) (w : World) : World :=
  mkWorld (sonos w) (lastKnownVolume w) (isMuted w) (pollInterval w) x
    (currentAction w) (currentSettings w) (volumeChangeTimeout w) (isRotating w)
    (timers w) (nextTimer w) (awaits w) (nextAwait w) (nextConn w) (trace w).

Definition set_currentAction (x : option DialAction) (w : World) : World :=
  mkWorld (sonos w) (lastKnownVolume w) (isMuted w) (pollInterval w) (pollTimeoutId w)
    x (currentSettings w) (volumeChangeTimeout w) (isRotating w)
    (timers w) (nextTimer w) (awaits w) (nextAwait w) (nextConn w) (trace w).

Definition set_currentSettings (x : option Settings) (w : World) : World :=
  mkWorld (sonos w) (lastKnownVolume w) (isMuted w) (pollInterval w) (pollTimeoutId w)
    (currentAction w) x (volumeChangeTimeout w) (isRotating w)
    (timers w) (nextTimer w) (awaits w) (nextAwait w) (nextConn w) (trace w).

Definition set_volumeChangeTimeout (x : option nat) (w : World) : World :=
  mkWorld (sonos w) (lastKnownVolume w) (isMuted w) (pollInterval w) (pollTimeoutId w)
    (currentAction w) (currentSettings w) x (isRotating w)
    (timers w) (nextTimer w) (awaits w) (nextAwait w) (nextConn w) (trace w).

Definition set_isRotating (x : bool) (w : World) : World :=
  mkWorld (sonos w) (lastKnownVolume w) (isMuted w) (pollInterval w) (pollTimeoutId w)
    (currentAction w) (currentSettings w) (volumeChangeTimeout w) x
    (timers w) (nextTimer w) (awaits w) (nextAwait w) (nextConn w) (trace w).

(** ** Run-time primitives *)

(** Perform one effect. *)
Definition emit (e : Effect) (w : World) : World :=
  mkWorld (sonos w) (lastKnownVolume w) (isMuted w) (pollInterval w) (pollTimeoutId w)
    (currentAction w) (currentSettings w) (volumeChangeTimeout w) (isRotating w)
    (timers w) (nextTimer w) (awaits w) (nextAwait w) (nextConn w) (trace w ++ [e]).

(** [setTimeout(cb, ms)]: the handle returned is [nextTimer w]. *)
Definition setTimeout (cb : Callback) (ms : Z) (w : World) : World :=
  mkWorld (sonos w) (lastKnownVolume w) (isMuted w) (pollInterval w) (pollTimeoutId w)
    (currentAction w) (currentSettings w) (volumeChangeTimeout w) (isRotating w)
    (<[nextTimer w := mkTimer ms cb]> (timers w)) (S (nextTimer w))
    (awaits w) (nextAwait w) (nextConn w) (trace w).

(** [clearTimeout(id)]; clearing a handle that already fired does nothing. *)
Definition clearTimeout (id : nat) (w : World) : World :=
  mkWorld (sonos w) (lastKnownVolume w) (isMuted w) (pollInterval w) (pollTimeoutId w)
    (currentAction w) (currentSettings w) (volumeChangeTimeout w) (isRotating w)
    (delete id (timers w)) (nextTimer w)
    (awaits w) (nextAwait w) (nextConn w) (trace w).

(** Suspend on a network promise. *)
Definition await (p : Pending) (w : World) : World :=
  mkWorld (sonos w) (lastKnownVolume w) (isMuted w) (pollInterval w) (pollTimeoutId w)
    (currentAction w) (currentSettings w) (volumeChangeTimeout w) (isRotating w)
    (timers w) (nextTimer w)
    (<[nextAwait w := p]> (awaits w)) (S (nextAwait w)) (nextConn w) (trace w).

(** The promise [id] has settled: its continuation leaves the table. *)
Definition settled (id : nat) (w : World) : World :=
  mkWorld (sonos w) (lastKnownVolume w) (isMuted w) (pollInterval w) (pollTimeoutId w)
    (currentAction w) (currentSettings w) (volumeChangeTimeout w) (isRotating w)
    (timers w) (nextTimer w)
    (delete id (awaits w)) (nextAwait w) (nextConn w) (trace w).

(** The object [new Sonos(ip)] evaluates to in [w]. *)
Definition fresh (ip : string) (w : World) : Sonos := mkSonos ip (nextConn w).

(** [this.sonos = new Sonos(ip)] *)
Definition connect (ip : string) (w : World) : World :=
  emit (NewSonos (fresh ip w))
    (mkWorld (Some (fresh ip w)) (lastKnownVolume w) (isMuted w) (pollInterval w) (pollTimeoutId w)
       (currentAction w) (currentSettings w) (volumeChangeTimeout w) (isRotating w)
       (timers w) (nextTimer w) (awaits w) (nextAwait w) (S (nextConn w)) (trace w)).

(** JavaScript truthiness of [string | undefined]. *)
Definition truthy (o : option string) : option string :=
  match o with
  | Some EmptyString => None
  | Some s => Some s
  | None => None
  end.

(** [this.pollInterval?.active] *)
Definition active (w : World) : bool :=
  match pollInterval w with
  | Some b => b
  | None => false
  end.

(** [{ ...settings, value: v }], where spreading [null] adds nothing. *)
Definition withValue (o : option Settings) (v : Z) : Settings :=
  match o with
  | Some st => mkSettings (speakerIp st) (Some v) (volumeStep st)
  | None => mkSettings None (Some v) None
  end.

(** [action.setFeedback({ value: {value, opacity}, indicator: {value, opacity} })] *)
Definition setFeedback (a : DialAction) (v : Z) (muted : bool) (w : World) : World :=
  emit (SetFeedback a v (opacity muted)) w.

Definition setSettings (a : DialAction) (st : Settings) (w : World) : World :=
  emit (SetSettings a st) w.

Definition showAlert (a : DialAction) (msg : string) (w : World) : World :=
  emit (ShowAlert a msg) w.

(** [Promise.all([this.sonos.getVolume(), this.sonos.getMuted()])] on [s]. *)
Definition readBoth (s : Sonos) (k : ReadCont) (w : World) : World :=
  await (AwaitRead k) (emit (GetMuted s) (emit (GetVolume s) w)).

(** ** The reconciliation poller *)

(** [stopPolling()] *)
Definition stopPolling (w : World) : World :=
  let w := match pollInterval w with
           | Some _ => set_pollInterval None w
           | None => w
           end in
  let w := match pollTimeoutId w with
           | Some id => set_pollTimeoutId None (clearTimeout id w)
           | None => w
           end in
  set_currentSettings None (set_currentAction None w).

(** The [finally] block of [pollWithDelay]: schedule the next wake only if
    polling is still active, replacing any wake that is still pending. *)
Definition pollFinally (w : World) : World :=
  if active w then
    let w := match pollTimeoutId w with
             | Some id => clearTimeout id w
             | None => w
             end in
    set_pollTimeoutId (Some (nextTimer w)) (setTimeout PollWake POLLING_INTERVAL_MS w)
  else w.

(** [pollWithDelay(logger)], up to its [await]. *)
Definition pollWithDelay (w : World) : World :=
  if negb (active w) then w
  else
    match currentAction w, currentSettings w with
    | Some _, Some st =>
        match sonos w with
        | Some s => readBoth s KPoll w
        | None =>
            match truthy (speakerIp st) with
            | Some ip => readBoth (fresh ip w) KPoll (connect ip w)
            | None => pollFinally (stopPolling w)
            end
        end
    | _, _ => pollFinally (stopPolling w)
    end.

(** [pollWithDelay], from the point where both reads have settled: [r] is
    [Some (volume, isMuted)] when they resolved and [None] when one of them
    rejected.  Dereferencing [this.currentAction] when [stopPolling] has
    cleared it raises a [TypeError], which the inner [catch] handles like
    any other error. *)
Definition pollResume (r : option (Z * bool)) (w : World) : World :=
  pollFinally
    match r with
    | Some (volume, muted) =>
        if (negb (volume =? lastKnownVolume w) || negb (eqb muted (isMuted w)))
           && negb (isRotating w)
        then
          let w := set_isMuted muted (set_lastKnownVolume volume w) in
          match currentAction w with
          | Some a =>
              setSettings a (withValue (currentSettings w) volume)
                (setFeedback a volume muted w)
          | None => set_sonos None w
          end
        else w
    | None => set_sonos None w
    end.

(** The closure given to [setTimeout] by the [finally] block. *)
Definition pollTimer (w : World) : World :=
  let w := set_pollTimeoutId None w in
  if active w then pollWithDelay w else w.

(** [startPolling(dialAction)] *)
Definition startPolling (a : DialAction) (w : World) : World :=
  if active w then w
  else
    let w := match pollInterval w with
             | Some _ => set_pollInterval None w
             | None => w
             end in
    let w := match pollTimeoutId w with
             | Some id => set_pollTimeoutId None (clearTimeout id w)
             | None => w
             end in
    let w := set_currentAction (Some a) w in
    match currentSettings w with
    | None => w
    | Some _ => pollWithDelay (set_pollInterval (Some true) w)
    end.

(** ** Lifecycle *)

(** [onWillDisappear()] *)
Definition onWillDisappear (w : World) : World :=
  let w := match volumeChangeTimeout w with
           | Some id => set_volumeChangeTimeout None (clearTimeout id w)
           | None => w
           end in
  stopPolling w.

Record AppearEvent := mkAppearEvent {
  ae_action : DialAction;
  ae_isDial : bool;
  ae_settings : Settings
}.

(** [onWillAppear(ev)], up to its [await]. *)
Definition onWillAppear (ev : AppearEvent) (w : World) : World :=
  if negb (ae_isDial ev) then w
  else
    let a := ae_action ev in
    let st := ae_settings ev in
    let v := default 50 (value st) in
    let step := default 5 (volumeStep st) in
    let w := set_currentSettings (Some st) (set_currentAction (Some a) w) in
    let w := setFeedback a v (isMuted w) w in
    match truthy (speakerIp st) with
    | Some ip => readBoth (fresh ip w) (KAppear a ip step v) (connect ip w)
    | None => setSettings a (mkSettings None (Some v) (Some step)) w
    end.

(** [onWillAppear], from the point where the first read has settled. *)
Definition appearResume (a : DialAction) (ip : string) (step v : Z)
    (r : option (Z * bool)) (w : World) : World :=
  match r with
  | Some (volume, muted) =>
      let w := set_isMuted muted (set_lastKnownVolume volume w) in
      let w := setFeedback a volume muted w in
      let w := setSettings a (mkSettings (Some ip) (Some volume) (Some step)) w in
      startPolling a w
  | None =>
      let w := set_sonos None w in
      let w := showAlert a "Failed to connect to speaker" w in
      setSettings a (mkSettings (Some ip) (Some v) (Some step)) w
  end.

(** ** Rotation: optimistic update and debounced write *)

Record RotateEvent := mkRotateEvent {
  re_action : DialAction;
  re_settings : Settings;
  re_ticks : Z
}.

(** [Math.max(0, Math.min(100, value + (ticks * volumeStep)))] *)
Definition newValue (ev : RotateEvent) (w : World) : Z :=
  let v := default (lastKnownVolume w) (value (re_settings ev)) in
  let step := default 5 (volumeStep (re_settings ev)) in
  Z.max 0 (Z.min 100 (v + re_ticks ev * step)).

(** [onDialRotate(ev)]: the whole method; the network work is left to the
    timer it arms. *)
Definition onDialRotate (ev : RotateEvent) (w : World) : World :=
  let a := re_action ev in
  let nv := newValue ev w in
  let w := set_isRotating true w in
  let w := set_currentSettings (Some (re_settings ev)) w in
  let w := setFeedback a nv (isMuted w) w in
  let w := setSettings a (withValue (currentSettings w) nv) w in
  let w := set_lastKnownVolume nv w in
  let w := match volumeChangeTimeout w with
           | Some id => set_volumeChangeTimeout None (clearTimeout id w)
           | None => w
           end in
  match truthy (speakerIp (re_settings ev)) with
  | Some ip =>
      set_volumeChangeTimeout (Some (nextTimer w))
        (setTimeout (VolumeChange a ip nv) VOLUME_CHANGE_DEBOUNCE_MS w)
  | None =>
      set_isRotating false (showAlert a "No speaker IP configured" w)
  end.

(** The [catch] block of the debounced write. *)
Definition volumeCatch (a : DialAction) (w : World) : World :=
  showAlert a "Failed to update volume" (set_sonos None w).

(** The [finally] block of the debounced write. *)
Definition volumeFinally (a : DialAction) (w : World) : World :=
  startPolling a (set_isRotating false w).

(** [await this.sonos.setVolume(newValue)], with the [TypeError] of a
    cleared [this.sonos] going to the [catch] block. *)
Definition sendVolume (a : DialAction) (nv : Z) (w : World) : World :=
  match sonos w with
  | Some s => await (AwaitWrite (KSetVolume a)) (emit (SetVolume s nv) w)
  | None => volumeFinally a (volumeCatch a w)
  end.

(** The closure given to [setTimeout] by [onDialRotate], up to its first
    [await]. *)
Definition volumeTimer (a : DialAction) (ip : string) (nv : Z) (w : World) : World :=
  let w := match sonos w with
           | Some _ => w
           | None => connect ip w
           end in
  if isMuted w then
    match sonos w with
    | Some s => await (AwaitWrite (KUnmute a nv)) (emit (SetMuted s false) w)
    | None => volumeFinally a (volumeCatch a w)
    end
  else sendVolume a nv w.

(** The same closure, from the point where [setMuted(false)] has settled. *)
Definition unmuteResume (a : DialAction) (nv : Z) (ok : bool) (w : World) : World :=
  if ok then sendVolume a nv (set_isMuted false w)
  else volumeFinally a (volumeCatch a w).

(** The same closure, from the point where [setVolume(newValue)] has settled. *)
Definition setVolumeResume (a : DialAction) (ok : bool) (w : World) : World :=
  if ok then volumeFinally a w
  else volumeFinally a (volumeCatch a w).

(** ** Mute toggle *)

Record DialUpEvent := mkDialUpEvent {
  du_action : DialAction;
  du_settings : Settings
}.

Record TouchTapEvent := mkTouchTapEvent {
  tt_action : DialAction;
  tt_settings : Settings;
  tt_hold : bool;
  tt_tapPos : Z * Z
}.

(** [onDialUp(ev)], with its microtask, up to the [await]. *)
Definition onDialUp (ev : DialUpEvent) (w : World) : World :=
  let dialAction := du_action ev in
  let newMutedState := negb (isMuted w) in
  let w := set_isMuted newMutedState w in
  let w := setFeedback dialAction (lastKnownVolume w) newMutedState w in
  match truthy (speakerIp (du_settings ev)) with
  | Some ip =>
      let w := match sonos w with
               | Some _ => w
               | None =>
                   let w := connect ip w in
                   match pollInterval w with
                   | None => startPolling dialAction w
                   | Some _ => w
                   end
               end in
      match sonos w with
      | Some s => await (AwaitWrite (KToggle dialAction)) (emit (SetMuted s newMutedState) w)
      | None => showAlert dialAction "Failed to toggle mute" (set_sonos None w)
      end
  | None => showAlert dialAction "No speaker IP configured" w
  end.

(** [onTouchTap(ev)], with its microtask, up to the [await]. *)
Definition onTouchTap (ev : TouchTapEvent) (w : World) : World :=
  let dialAction := tt_action ev in
  let newMutedState := negb (isMuted w) in
  let w := set_isMuted newMutedState w in
  let w := setFeedback dialAction (lastKnownVolume w) newMutedState w in
  match truthy (speakerIp (tt_settings ev)) with
  | Some ip =>
      let w := match sonos w with
               | Some _ => w
               | None =>
                   let w := connect ip w in
                   match pollInterval w with
                   | None => startPolling dialAction w
                   | Some _ => w
                   end
               end in
      match sonos w with
      | Some s => await (AwaitWrite (KToggle dialAction)) (emit (SetMuted s newMutedState) w)
      | None => showAlert dialAction "Failed to toggle mute" (set_sonos None w)
      end
  | None => showAlert dialAction "No speaker IP configured" w
  end.

(** Either toggle, from the point where [setMuted(newMutedState)] has
    settled: the optimistic state is kept on failure. *)
Definition toggleResume (a : DialAction) (ok : bool) (w : World) : World :=
  if ok then w
  else showAlert a "Failed to toggle mute" (set_sonos None w).

(** ** Settings updates *)

Record SettingsEvent := mkSettingsEvent {
  se_action : DialAction;
  se_isDial : bool;
  se_settings : Settings
}.

(** [onDidReceiveSettings(ev)], up to its [await].  The comparison reads
    [this.currentSettings] after the assignment that precedes it. *)
Definition onDidReceiveSettings (ev : SettingsEvent) (w : World) : World :=
  if negb (se_isDial ev) then w
  else
    let dialAction := se_action ev in
    let ip := speakerIp (se_settings ev) in
    let w := set_currentSettings (Some (se_settings ev)) w in
    if bool_decide (ip ≠ (currentSettings w ≫= speakerIp)) then
      let w := stopPolling (set_sonos None w) in
      match truthy ip with
      | Some ip => readBoth (fresh ip w) (KSettings dialAction (se_settings ev)) (connect ip w)
      | None => w
      end
    else w.

(** [onDidReceiveSettings], from the point where its read has settled. *)
Definition settingsResume (a : DialAction) (st : Settings)
    (r : option (Z * bool)) (w : World) : World :=
  match r with
  | Some (volume, muted) =>
      let w := set_isMuted muted (set_lastKnownVolume volume w) in
      let w := setFeedback a volume muted w in
      let w := setSettings a (withValue (Some st) volume) w in
      startPolling a w
  | None =>
      showAlert a "Failed to connect to speaker" (set_sonos None w)
  end.

(** ** The event loop *)

Definition runCallback (cb : Callback) (w : World) : World :=
  match cb with
  | PollWake => pollTimer w
  | VolumeChange a ip nv => volumeTimer a ip nv w
  end.

Definition resumeRead (k : ReadCont) (r : option (Z * bool)) (w : World) : World :=
  match k with
  | KPoll => pollResume r w
  | KAppear a ip step v => appearResume a ip step v r w
  | KSettings a st => settingsResume a st r w
  end.

Definition resumeWrite (k : WriteCont) (ok : bool) (w : World) : World :=
  match k with
  | KUnmute a nv => unmuteResume a nv ok w
  | KSetVolume a => setVolumeResume a ok w
  | KToggle a => toggleResume a ok w
  end.

(** The timer [id] expires: it leaves the table and its closure runs. *)
Definition fireTimer (id : nat) (w : World) : option World :=
  match timers w !! id with
  | Some t => Some (runCallback (callback t) (clearTimeout id w))
  | None => None
  end.

(** The read awaited under [id] settles with [r]. *)
Definition settleRead (id : nat) (r : option (Z * bool)) (w : World) : option World :=
  match awaits w !! id with
  | Some (AwaitRead k) => Some (resumeRead k r (settled id w))
  | _ => None
  end.

(** The write awaited under [id] resolves ([ok = true]) or rejects. *)
Definition settleWrite (id : nat) (ok : bool) (w : World) : option World :=
  match awaits w !! id with
  | Some (AwaitWrite k) => Some (resumeWrite k ok (settled id w))
  | _ => None
  end.

(** Everything that can happen to one instance. *)
Inductive Event :=
| EWillAppear (ev : AppearEvent)
| EWillDisappear
| EDialRotate (ev : RotateEvent)
| EDialUp (ev : DialUpEvent)
| ETouchTap (ev : TouchTapEvent)
| EDidReceiveSettings (ev : SettingsEvent)
| ETimer (id : nat)
| ERead (id : nat) (r : option (Z * bool))
| EWrite (id : nat) (ok : bool).

(** One turn of the event loop; [None] when the timer or promise named by
    the event is not pending. *)
Definition handle (e : Event) (w : World) : option World :=
  match e with
  | EWillAppear ev => Some (onWillAppear ev w)
  | EWillDisappear => Some (onWillDisappear w)
  | EDialRotate ev => Some (onDialRotate ev w)
  | EDialUp ev => Some (onDialUp ev w)
  | ETouchTap ev => Some (onTouchTap ev w)
  | EDidReceiveSettings ev => Some (onDidReceiveSettings ev w)
  | ETimer id => fireTimer id w
  | ERead id r => settleRead id r w
  | EWrite id ok => settleWrite id ok w
  end.

Fixpoint run (es : list Event) (w : World) : option World :=
  match es with
  | [] => Some w
  | e :: es' =>
      match handle e w with
      | Some w' => run es' w'
      | None => None
      end
  end.

(** Worlds the instance can be in. *)
Inductive reachable : World → Prop :=
| reachable_initial : reachable initial
| reachable_step e w w' : reachable w → handle e w = Some w' → reachable w'.

(** A burst of rotation events with nothing in between. *)
Definition rotateBurst (evs : list RotateEvent) (w : World) : World :=
  foldl (λ w ev, onDialRotate ev w) w evs.

(** ** The [SonosVolumeControl] action

    The action that [plugin.ts] registers keeps no connection: volume and
    mute flag live in the settings object of the event, which the handler
    mutates in place and writes back to the host. *)
Module VolumeControl.

(** [SonosSettings] *)
Record SonosSettings := mkSonosSettings {
  speakerIp : option string;
  volumeStep : option Z;
  currentVolume : option Z;
  isMuted : option bool
}.

(** The [$B1] layout payload of [setFeedback]. *)
Record Feedback := mkFeedback {
  title : string;
  icon : string;
  value : string;
  indicator : Z;
  enabled : bool
}.

Inductive HostCall :=
| SetSettings (a : nat) (st : SonosSettings)
| SetFeedback (a : nat) (fb : Feedback).

Record DialRotateEvent := mkDialRotateEvent {
  action : nat;
  settings : SonosSettings;
  ticks : Z
}.

(** [updateVolumeDisplay(action, volume, isMuted)]; [Math.round] is the
    identity on integers. *)
Definition updateVolumeDisplay (a : nat) (volume : Z) (muted : bool) : list HostCall :=
  let roundedVolume := volume in
  [SetFeedback a
     (mkFeedback
        (if muted then "MUTED" else "Volume " +:+ pretty roundedVolume +:+ "%")
        "imgs/actions/volume/icon"
        (if muted then "Muted" else pretty roundedVolume +:+ "%")
        (if muted then 0 else volume)
        true)].

(** [onDialRotate(ev)]: the settings object as the handler leaves it, and
    the calls made on the host. *)
Definition onDialRotate (ev : DialRotateEvent) : SonosSettings * list HostCall :=
  let st := settings ev in
  let step := default 2 (volumeStep st) in
  if default false (isMuted st) then (st, [])
  else
    let volumeChange := step * ticks ev in
    let current := default 50 (currentVolume st) in
    let newVolume := Z.max 0 (Z.min 100 (current + volumeChange)) in
    let st := mkSonosSettings (speakerIp st) (volumeStep st) (Some newVolume) (isMuted st) in
    (st, SetSettings (action ev) st :: updateVolumeDisplay (action ev) newVolume false).

(** The rest of the class.  The only instance field is [isDialPressed];
    a handler returns the field, the settings object as it leaves it, and the
    calls it made on the host. *)

Record WillAppearEvent := mkWillAppearEvent {
  wa_action : nat;
  wa_settings : SonosSettings
}.

(** JavaScript truthiness of [number | undefined] (no [NaN] among the
    integers). *)
Definition truthyNumber (o : option Z) : bool :=
  match o with
  | Some n => negb (n =? 0)
  | None => false
  end.

(** The settings object as [onWillAppear] has filled it in. *)
Definition withDefaults (st : SonosSettings) : SonosSettings :=
  mkSonosSettings
    (Some (default EmptyString (speakerIp st)))
    (if truthyNumber (volumeStep st) then volumeStep st else Some 2)
    (Some (default 50 (currentVolume st)))
    (Some (default false (isMuted st))).

(** The flag [needsUpdate] at the end of the four tests. *)
Definition needsUpdate (st : SonosSettings) : bool :=
  negb (truthyNumber (volumeStep st))
  || negb (bool_decide (is_Some (currentVolume st)))
  || negb (bool_decide (is_Some (isMuted st)))
  || negb (bool_decide (is_Some (speakerIp st))).

(** [onWillAppear(ev)] *)
Definition onWillAppear (ev : WillAppearEvent) : SonosSettings * list HostCall :=
  let st := withDefaults (wa_settings ev) in
  (st,
   (if needsUpdate (wa_settings ev) then [SetSettings (wa_action ev) st] else [])
   ++ updateVolumeDisplay (wa_action ev)
        (default 50 (currentVolume st)) (default false (isMuted st))).

(** [onDialDown(ev)] *)
Definition onDialDown (isDialPressed : bool) : bool := true.

Record PressEvent := mkPressEvent {
  pe_action : nat;
  pe_settings : SonosSettings
}.

(** [onDialUp(ev)] *)
Definition onDialUp (isDialPressed : bool) (ev : PressEvent)
    : bool * SonosSettings * list HostCall :=
  if negb isDialPressed then (isDialPressed, pe_settings ev, [])
  else
    let st0 := pe_settings ev in
    let st := mkSonosSettings (speakerIp st0) (volumeStep st0) (currentVolume st0)
                (Some (negb (default false (isMuted st0)))) in
    (false, st,
     SetSettings (pe_action ev) st
       :: updateVolumeDisplay (pe_action ev) (default 50 (currentVolume st))
            (negb (default false (isMuted st0)))).

(** [onTouchTap(ev)] and [onDidReceiveSettings(ev)]: both only redraw. *)
Definition onTouchTap (ev : PressEvent) : list HostCall :=
  updateVolumeDisplay (pe_action ev) (default 50 (currentVolume (pe_settings ev)))
    (default false (isMuted (pe_settings ev))).

Definition onDidReceiveSettings (ev : PressEvent) : list HostCall :=
  updateVolumeDisplay (pe_action ev) (default 50 (currentVolume (pe_settings ev)))
    (default false (isMuted (pe_settings ev))).

(** The regular expression [/^(?:[0-9]{1,3}\.){3}[0-9]{1,3}$/] of
    [onSendToPlugin], as a backtracking matcher: each piece maps the input
    left to read to the list of inputs it can leave, in the order the
    engine tries them. *)

(** The character [.] (code 46). *)
Definition dotChar : Ascii.ascii := Ascii.ascii_of_nat 46.

(** [[0-9]] (codes 48 to 57) *)
Definition isDigit (c : Ascii.ascii) : bool :=
  (48 <=? Ascii.nat_of_ascii c)%nat && (Ascii.nat_of_ascii c <=? 57)%nat.

(** [[0-9]{1,3}], greedy: three digits first, then two, then one. *)
Definition digits13 (s : list Ascii.ascii) : list (list Ascii.ascii) :=
  match s with
  | c1 :: s1 =>
      if isDigit c1 then
        match s1 with
        | c2 :: s2 =>
            if isDigit c2 then
              match s2 with
              | c3 :: s3 => if isDigit c3 then [s3] else []
              | [] => []
              end ++ [s2]
            else []
        | [] => []
        end ++ [s1]
      else []
  | [] => []
  end.

(** [\.] *)
Definition dot (s : list Ascii.ascii) : list (list Ascii.ascii) :=
  match s with
  | c :: s' => if Ascii.eqb c dotChar then [s'] else []
  | [] => []
  end.

(** [(?:[0-9]{1,3}\.)] *)
Definition group (s : list Ascii.ascii) : list (list Ascii.ascii) := digits13 s ≫= dot.

(** [ipRegex.test(ip)]: anchored at both ends. *)
Definition ipRegexTest (ip : string) : bool :=
  existsb (λ r : list Ascii.ascii, bool_decide (r = []))
    (((group (String.list_ascii_of_string ip) ≫= group) ≫= group) ≫= digits13).

Record PropertyInspectorPayload := mkPayload {
  ptype : string;
  ip : string
}.

(** The one call [onSendToPlugin] can make on the host. *)
Inductive AlertCall := ShowAlert (a : nat).

(** [onSendToPlugin(ev)] *)
Definition onSendToPlugin (a : nat) (payload : PropertyInspectorPayload) : list AlertCall :=
  if String.eqb (ptype payload) "validateIp" then
    let isValidFormat := ipRegexTest (ip payload) in
    if negb isValidFormat then [ShowAlert a] else []
  else [].

(** One to three decimal digits. *)
Definition octet (a : list Ascii.ascii) : Prop :=
  (1 ≤ length a ≤ 3)%nat ∧ Forall (λ c, isDigit c = true) a.

(** Four octets joined by dots. *)
Definition dottedQuad (s : list Ascii.ascii) : Prop :=
  ∃ a b c d, octet a ∧ octet b ∧ octet c ∧ octet d
    ∧ s = a ++ dotChar :: b ++ dotChar :: c ++ dotChar :: d.

End VolumeControl.

(** ** Observations *)

(** The effects performed between [w] and a later world [w']. *)
Definition emitted (w w' : World) : list Effect :=
  drop (length (trace w)) (trace w').

(** The arguments of the [setVolume] calls in a run of effects. *)
Definition setVolumeCalls (es : list Effect) : list Z :=
  omap (λ e, match e with SetVolume _ v => Some v | _ => None end) es.

(** The [setMuted] calls in a run of effects. *)
Definition setMutedCalls (es : list Effect) : list bool :=
  omap (λ e, match e with SetMuted _ m => Some m | _ => None end) es.

(** The alerts shown in a run of effects. *)
Definition alerts (es : list Effect) : list string :=
  omap (λ e, match e with ShowAlert _ msg => Some msg | _ => None end) es.

(** The client object an effect is performed on, if any. *)
Definition onClient (e : Effect) : option Sonos :=
  match e with
  | NewSonos s | GetVolume s | GetMuted s | SetMuted s _ | SetVolume s _ => Some s
  | _ => None
  end.

(** The variable of the instance that holds the handle of timer [id]. *)
Definition owned (w : World) (id : nat) (t : Timer) : Prop :=
  match callback t with
  | PollWake => pollTimeoutId w = Some id
  | VolumeChange _ _ _ => volumeChangeTimeout w = Some id
  end.

(** Every pending timer was handed out by [setTimeout] and is the one its
    kind's instance variable refers to: at most one debounce timer and at
    most one poll wake are pending. *)
Definition timers_ok (w : World) : Prop :=
  ∀ id t, timers w !! id = Some t → (id < nextTimer w)%nat ∧ owned w id t.

(** The three ways [f w] can relate to [w] when [f] at most starts a poll
    cycle: nothing visible happens, the reads go to the client in place, or
    a client is built first. *)
Definition pollStart (w w' : World) : Prop :=
  (trace w' = trace w ∧ sonos w' = sonos w)
  ∨ (∃ s, sonos w = Some s ∧ sonos w' = Some s
          ∧ trace w' = trace w ++ [GetVolume s; GetMuted s])
  ∨ (∃ ip, sonos w = None ∧ sonos w' = Some (fresh ip w)
           ∧ trace w' = trace w
               ++ [NewSonos (fresh ip w); GetVolume (fresh ip w); GetMuted (fresh ip w)]).

(** Every client object in use was handed out by [new Sonos]. *)
Definition conn_ok (w : World) : Prop :=
  ∀ s, sonos w = Some s → (conn s < nextConn w)%nat.

(** The operations that talk to the speaker through [this.sonos]: the
    debounced write (the closure armed by a rotation), the mute toggle by
    press or by tap, and a poll cycle. *)
Inductive NetOp :=
| OpVolume (a : DialAction) (ip : string) (nv : Z)
| OpPress (ev : DialUpEvent)
| OpTap (ev : TouchTapEvent)
| OpPoll.

Definition perform (op : NetOp) (w : World) : World :=
  match op with
  | OpVolume a ip nv => volumeTimer a ip nv w
  | OpPress ev => onDialUp ev w
  | OpTap ev => onTouchTap ev w
  | OpPoll => pollWithDelay w
  end.

(** The address [op] would connect to in [w], if it gets as far as the
    network at all. *)
Definition address (op : NetOp) (w : World) : option string :=
  match op with
  | OpVolume _ ip _ => Some ip
  | OpPress ev => truthy (speakerIp (du_settings ev))
  | OpTap ev => truthy (speakerIp (tt_settings ev))
  | OpPoll =>
      if active w then
        match currentAction w, currentSettings w with
        | Some _, Some st => truthy (speakerIp st)
        | _, _ => None
        end
      else None
  end.

(** All client calls in [es] go to [s]. *)
Definition onlyOn (s : Sonos) (es : list Effect) : Prop :=
  ∀ e s', e ∈ es → onClient e = Some s' → s' = s.

(** [w'] extends the effects of [w], and [vs] are the arguments of the
    [setVolume] calls made in between, in order. *)
Definition volumesSent (w w' : World) (vs : list Z) : Prop :=
  ∃ d, trace w' = trace w ++ d ∧ setVolumeCalls d = vs.

(** Events the run time produces by itself (timers expiring, promises
    settling), as opposed to events delivered by the host. *)
Definition internal (e : Event) : bool :=
  match e with
  | ETimer _ | ERead _ _ | EWrite _ _ => true
  | _ => false
  end.

(** The state [onWillDisappear] leaves the poller and the timers in. *)
Definition tornDown (w : World) : Prop :=
  timers w = ∅ ∧ pollInterval w = None ∧ currentSettings w = None.

(** Whether a timer closure is the poll wake (as opposed to the debounced
    write). *)
Definition isWake (cb : Callback) : bool :=
  match cb with
  | PollWake => true
  | VolumeChange _ _ _ => false
  end.

(** The delay every closure of a kind is armed with. *)
Definition delayOf (cb : Callback) : Z :=
  match cb with
  | PollWake => POLLING_INTERVAL_MS
  | VolumeChange _ _ _ => VOLUME_CHANGE_DEBOUNCE_MS
  end.

(** The poller's bookkeeping: the flag object is never left inactive, an
    active poller has an action and settings bound, and a wake handle is
    only held while the poller is active. *)
Definition poller_ok (w : World) : Prop :=
  pollInterval w ≠ Some false
  ∧ (active w = true → currentAction w ≠ None ∧ currentSettings w ≠ None)
  ∧ (pollTimeoutId w ≠ None → active w = true).

(** Timers carry the delay of their kind. *)
Definition delays_ok (w : World) : Prop :=
  ∀ id t, timers w !! id = Some t → delay t = delayOf (callback t).

(** [w'] is a later state of the run time than [w]: handles are handed out
    upwards, a timer or a promise that [w] had handed out and that is still
    pending in [w'] is the one it was, and the effects of [w] are a prefix of
    those of [w']. *)
Definition later (w w' : World) : Prop :=
  (nextTimer w ≤ nextTimer w')%nat
  ∧ (nextAwait w ≤ nextAwait w')%nat
  ∧ (∀ id t, (id < nextTimer w)%nat → timers w' !! id = Some t → timers w !! id = Some t)
  ∧ (∀ k p, (k < nextAwait w)%nat → awaits w' !! k = Some p → awaits w !! k = Some p)
  ∧ ∃ d, trace w' = trace w ++ d.

(** Whether [e], delivered in [w], is the expiry of a debounce timer. *)
Definition debounceExpiry (e : Event) (w : World) : bool :=
  match e with
  | ETimer id =>
      match timers w !! id with
      | Some t => negb (isWake (callback t))
      | None => false
      end
  | _ => false
  end.

(** A run within one debounce window: any events, delivered in order, between
    which no debounce timer expires. *)
Fixpoint window (es : list Event) (w : World) : option World :=
  match es with
  | [] => Some w
  | e :: es' =>
      if debounceExpiry e w then None
      else
        match handle e w with
        | Some w' => window es' w'
        | None => None
        end
  end.

(** A debounced write for the value [v] is suspended in [w] on its
    [setMuted(false)]: its timer has expired and its [setVolume(v)] is still
    to come. *)
Definition unmuting (w : World) (v : Z) : Prop :=
  ∃ k a, awaits w !! k = Some (AwaitWrite (KUnmute a v)).

(** Between [w0] and [w] no debounced write has started: every [setVolume]
    sent, and every write suspended on its unmute, belongs to a write that
    was already suspended on its unmute in [w0]. *)
Definition within (w0 w : World) : Prop :=
  (∃ d, trace w = trace w0 ++ d ∧ ∀ v, v ∈ setVolumeCalls d → unmuting w0 v)
  ∧ ∀ v, unmuting w v → unmuting w0 v.

(** In whatever later state the write awaited under [k] settles, either way,
    no [setVolume] is sent. *)
Definition settlesSilently (k : nat) (w : World) : Prop :=
  ∀ es w', run es w = Some w' → awaits w' !! k ≠ None →
    ∀ ok, ∃ w'', handle (EWrite k ok) w' = Some w''
                 ∧ setVolumeCalls (emitted w' w'') = [].

(** Between [w0] and [w] only timers with a callback in [PT] were armed,
    only promises with a continuation in [PA] were awaited, and only effects
    in [PE] were performed. *)
Definition grows (PT : Callback → Prop) (PA : Pending → Prop) (PE : Effect → Prop)
    (w0 w : World) : Prop :=
  (∀ id t, timers w !! id = Some t → timers w0 !! id = Some t ∨ PT (callback t))
  ∧ (∀ k p, awaits w !! k = Some p → awaits w0 !! k = Some p ∨ PA p)
  ∧ ∃ d, trace w = trace w0 ++ d ∧ Forall PE d.

(** What may happen outside a debounced write: poll wakes are armed, reads
    and mute toggles are awaited, anything but [setVolume] is performed. *)
Definition wakeOnly (cb : Callback) : Prop := cb = PollWake.

Definition notUnmute (p : Pending) : Prop := ∀ a v, p ≠ AwaitWrite (KUnmute a v).

Definition notSetVolume (e : Effect) : Prop := ∀ s v, e ≠ SetVolume s v.

Definition anyPending (p : Pending) : Prop := True.

Definition anyEffect (e : Effect) : Prop := True.

(** Whether [e] is a rotation event. *)
Definition isRotation (e : Event) : bool :=
  match e with
  | EDialRotate _ => true
  | _ => false
  end.

(** Whether [e], delivered in [w], settles the unmute of a debounced write. *)
Definition unmuteSettles (e : Event) (w : World) : bool :=
  match e with
  | EWrite k _ =>
      match awaits w !! k with
      | Some (AwaitWrite (KUnmute _ _)) => true
      | _ => false
      end
  | _ => false
  end.

(** The debounced writes in progress in [w] are at most one, for the value
    [nv]: a pending debounce timer holds [nv] and then no write is suspended
    on its unmute; a write suspended on its unmute is for [nv] and is the
    only one. *)
Definition oneWriteFor (nv : Z) (w : World) : Prop :=
  (∀ id t a ip v, timers w !! id = Some t → callback t = VolumeChange a ip v →
     v = nv ∧ ∀ v', ¬ unmuting w v')
  ∧ (∀ k a v, awaits w !! k = Some (AwaitWrite (KUnmute a v)) →
       v = nv ∧ ∀ k' a' v', awaits w !! k' = Some (AwaitWrite (KUnmute a' v')) → k' = k).

(** No debounced write is in progress in [w]. *)
Definition noWrite (w : World) : Prop :=
  (∀ id t, timers w !! id = Some t → callback t = PollWake)
  ∧ ∀ v, ¬ unmuting w v.

(** One tick sequence as the host delivers it when it echoes the value the
    instance persisted last: every event carries the cached volume. *)
Definition hostRotate (a : DialAction) (ip : option string) (step : option Z)
    (ticks : Z) (w : World) : World :=
  onDialRotate (mkRotateEvent a (mkSettings ip (Some (lastKnownVolume w)) step) ticks) w.

Definition hostSpin (a : DialAction) (ip : option string) (step : option Z)
    (ticks : list Z) (w : World) : World :=
  foldl (λ w t, hostRotate a ip step t w) w ticks.

(** The sum of a list of tick counts. *)
Definition sumTicks (ticks : list Z) : Z := foldr Z.add 0 ticks.

(** The settings a user input event carries. *)
Definition inputSettings (e : Event) : option Settings :=
  match e with
  | EDialRotate ev => Some (re_settings ev)
  | EDialUp ev => Some (du_settings ev)
  | ETouchTap ev => Some (tt_settings ev)
  | _ => None
  end.

(** The alerts an input without a usable address produces. *)
Definition isUserInput (e : Event) : bool :=
  match e with
  | EDialRotate _ | EDialUp _ | ETouchTap _ => true
  | _ => false
  end.

(** Press and tap, the two events that toggle mute. *)
Definition isToggle (e : Event) : bool :=
  match e with
  | EDialUp _ | ETouchTap _ => true
  | _ => false
  end.

(** The speaker address a user input event carries, if it is usable. *)
Definition inputAddress (e : Event) : option string :=
  inputSettings e ≫= λ st, truthy (speakerIp st).

(** Worlds used as concrete inputs. *)
Definition lounge : Settings := mkSettings (Some "192.168.1.20") (Some 50) (Some 5).
Definition unconfigured : Settings := mkSettings None (Some 50) (Some 5).

(** Connected to the lounge speaker: the first read and one poll cycle
    have been answered, the next poll wake is pending. *)
Definition connectedWorld : World :=
  default initial
    (run [EWillAppear (mkAppearEvent 7 true lounge);
          ERead 0 (Some (50, false));
          ERead 1 (Some (50, false))] initial).

(** The same, two ticks into a rotation: the debounce timer is pending. *)
Definition spinningWorld : World :=
  onDialRotate (mkRotateEvent 7 lounge 2) connectedWorld.

(** The same, after the debounce timer has fired: [setVolume] is in flight. *)
Definition writingWorld : World :=
  default initial
    (run [EDialRotate (mkRotateEvent 7 lounge 2); ETimer 1] connectedWorld).

(** Shown on the device with no speaker address configured. *)
Definition unconfiguredWorld : World :=
  onWillAppear (mkAppearEvent 7 true unconfigured) initial.

(** The same, muted locally by a press. *)
Definition mutedUnconfiguredWorld : World :=
  onDialUp (mkDialUpEvent 7 unconfigured) unconfiguredWorld.

(** Connected to the lounge speaker, which reported itself muted. *)
Definition mutedWorld : World :=
  default initial
    (run [EWillAppear (mkAppearEvent 7 true lounge);
          ERead 0 (Some (50, true));
          ERead 1 (Some (50, true))] initial).

(** Three single ticks of a fast spin, as the host delivers them. *)
Definition tick1 : RotateEvent := mkRotateEvent 7 (mkSettings (Some "192.168.1.20") (Some 50) (Some 5)) 1.
Definition tick2 : RotateEvent := mkRotateEvent 7 (mkSettings (Some "192.168.1.20") (Some 55) (Some 5)) 1.
Definition tick3 : RotateEvent := mkRotateEvent 7 (mkSettings (Some "192.168.1.20") (Some 60) (Some 5)) 1.

(** The same, with a poll cycle in flight when the rotation started. *)
Definition spinningPollWorld : World :=
  default initial
    (run [ETimer 0; EDialRotate (mkRotateEvent 7 lounge 2)] connectedWorld).

(** Two ticks with a poll cycle running between them: the poll wake
    expires after the first tick, its reads settle after the second. *)
Definition busyWindow : list Event :=
  [EDialRotate tick1; ETimer 0; EDialRotate tick2; ERead 2 (Some (40, false))].

(** The world after that window and a third tick. *)
Definition afterWindow : World :=
  default initial (run (busyWindow ++ [EDialRotate tick3]) connectedWorld).

(** ** Proof support *)

Ltac wsimpl :=
  cbn [sonos lastKnownVolume isMuted pollInterval pollTimeoutId currentAction
       currentSettings volumeChangeTimeout isRotating timers nextTimer awaits
       nextAwait nextConn trace
       set_sonos set_lastKnownVolume set_isMuted set_pollInterval set_pollTimeoutId
       set_currentAction set_currentSettings set_volumeChangeTimeout set_isRotating
       emit setTimeout clearTimeout await settled connect fresh
       setFeedback setSettings showAlert readBoth active] in *.

Lemma emitted_app w w' d : trace w' = trace w ++ d → emitted w w' = d.
Proof. unfold emitted. intros ->. apply drop_app_length. Qed.

Lemma emitted_refl w w' : trace w' = trace w → emitted w w' = [].
Proof. intros H. apply emitted_app. by rewrite app_nil_r. Qed.

(** ** Rotation arithmetic *)

Lemma newValue_range ev w : 0 ≤ newValue ev w ≤ 100.
Proof. unfold newValue. lia. Qed.

Lemma onDialRotate_lastKnownVolume ev w :
  lastKnownVolume (onDialRotate ev w) = newValue ev w.
Proof. unfold onDialRotate. repeat case_match; reflexivity. Qed.

(** C4. After every rotation event, whatever the tick count and the
    configured step, the cached volume is
    [max 0 (min 100 (previous + ticks * step))], where [previous] is the
    value carried by the event's settings (the cached volume when the
    settings carry none) and [step] is the configured step (5 when none is
    configured); hence it always lies in [0, 100]. *)
Theorem rotate_clamps_volume (ev : RotateEvent) (w : World) :
  let previous := default (lastKnownVolume w) (value (re_settings ev)) in
  let step := default 5 (volumeStep (re_settings ev)) in
  lastKnownVolume (onDialRotate ev w)
    = Z.max 0 (Z.min 100 (previous + re_ticks ev * step))
  ∧ 0 ≤ lastKnownVolume (onDialRotate ev w) ≤ 100.
Proof.
  intros previous step. rewrite onDialRotate_lastKnownVolume.
  split; [reflexivity | apply newValue_range].
Qed.

Example rotate_three_ticks :
  lastKnownVolume
    (rotateBurst [mkRotateEvent 7 (mkSettings (Some "192.168.1.20") (Some 50) (Some 5)) 1;
                  mkRotateEvent 7 (mkSettings (Some "192.168.1.20") (Some 55) (Some 5)) 1;
                  mkRotateEvent 7 (mkSettings (Some "192.168.1.20") (Some 60) (Some 5)) 1]
       connectedWorld) = 65.
Proof. reflexivity. Qed.

Example rotate_saturates_high :
  lastKnownVolume (onDialRotate (mkRotateEvent 7 (mkSettings None (Some 100) (Some 10)) 1000000) initial) = 100.
Proof. reflexivity. Qed.

Example rotate_saturates_low :
  lastKnownVolume (onDialRotate (mkRotateEvent 7 (mkSettings None (Some 0) (Some 10)) (-3)) initial) = 0.
Proof. reflexivity. Qed.

(** ** Press and tap *)

(** C9. A dial press and a touch tap that carry the same action and the
    same settings leave the instance in the same world (same fields, same
    effects in the same order, same suspended continuation), and every later
    course of events then unfolds identically. *)
Theorem press_and_tap_agree (e1 : DialUpEvent) (e2 : TouchTapEvent) (w : World) :
  du_action e1 = tt_action e2 →
  du_settings e1 = tt_settings e2 →
  onDialUp e1 w = onTouchTap e2 w
  ∧ ∀ es, run (EDialUp e1 :: es) w = run (ETouchTap e2 :: es) w.
Proof.
  destruct e1 as [a1 st1], e2 as [a2 st2 hold pos]; cbn [du_action tt_action du_settings tt_settings].
  intros <- <-.
  assert (Heq : onDialUp (mkDialUpEvent a1 st1) w = onTouchTap (mkTouchTapEvent a1 st1 hold pos) w)
    by reflexivity.
  split; [exact Heq |].
  intros es. cbn [run handle]. by rewrite Heq.
Qed.

Lemma press_and_tap_agree_witness :
  onDialUp (mkDialUpEvent 7 lounge) connectedWorld
    = onTouchTap (mkTouchTapEvent 7 lounge false (10, 20)) connectedWorld
  ∧ ∀ es, run (EDialUp (mkDialUpEvent 7 lounge) :: es) connectedWorld
          = run (ETouchTap (mkTouchTapEvent 7 lounge false (10, 20)) :: es) connectedWorld.
Proof.
  apply (press_and_tap_agree (mkDialUpEvent 7 lounge)
           (mkTouchTapEvent 7 lounge false (10, 20)) connectedWorld); reflexivity.
Defined.

(** ** Settings updates *)

(** The comparison in [onDidReceiveSettings] reads the settings it has just
    stored, so its reconnecting branch is never taken. *)
Lemma onDidReceiveSettings_stores_only ev w :
  onDidReceiveSettings ev w
    = if se_isDial ev then set_currentSettings (Some (se_settings ev)) w else w.
Proof.
  unfold onDidReceiveSettings. destruct (se_isDial ev); cbn [negb]; [| reflexivity].
  cbn [currentSettings set_currentSettings mbind option_bind].
  rewrite bool_decide_eq_false_2; [reflexivity |].
  intros H. by apply H.
Qed.

(** C3. The instance is connected to 192.168.1.20 and polling; settings
    arrive that name 192.168.1.30.  The handler keeps the old client object,
    constructs no new one, reads nothing, and leaves the poller and its
    pending wake (for the old speaker) as they were. *)
Theorem address_change_keeps_old_connection :
  let ev := mkSettingsEvent 7 true (mkSettings (Some "192.168.1.30") (Some 50) (Some 5)) in
  let w' := onDidReceiveSettings ev connectedWorld in
  (currentSettings connectedWorld ≫= speakerIp) = Some "192.168.1.20"
  ∧ sonos connectedWorld = Some (mkSonos "192.168.1.20" 0)
  ∧ sonos w' = Some (mkSonos "192.168.1.20" 0)
  ∧ emitted connectedWorld w' = []
  ∧ pollInterval w' = Some true
  ∧ timers w' = timers connectedWorld
  ∧ awaits w' = awaits connectedWorld.
Proof. vm_compute. repeat split; reflexivity. Qed.

(** ** The volume control action *)

(** C10. In [SonosVolumeControl], a rotation whose settings carry a true
    mute flag changes nothing: the settings object is left as it was
    (in particular [currentVolume]) and no call is made on the host, neither
    a settings write nor a display update. *)
Theorem muted_rotation_is_noop (ev : VolumeControl.DialRotateEvent) :
  VolumeControl.isMuted (VolumeControl.settings ev) = Some true →
  VolumeControl.onDialRotate ev = (VolumeControl.settings ev, []).
Proof. unfold VolumeControl.onDialRotate. by intros ->. Qed.

Lemma muted_rotation_is_noop_witness :
  VolumeControl.onDialRotate
    (VolumeControl.mkDialRotateEvent 3
       (VolumeControl.mkSonosSettings (Some "192.168.1.20") (Some 2) (Some 40) (Some true)) 4)
  = (VolumeControl.mkSonosSettings (Some "192.168.1.20") (Some 2) (Some 40) (Some true), []).
Proof.
  apply (muted_rotation_is_noop
           (VolumeControl.mkDialRotateEvent 3
              (VolumeControl.mkSonosSettings (Some "192.168.1.20") (Some 2) (Some 40) (Some true)) 4)).
  reflexivity.
Defined.

Example unmuted_rotation_writes :
  VolumeControl.onDialRotate
    (VolumeControl.mkDialRotateEvent 3
       (VolumeControl.mkSonosSettings (Some "192.168.1.20") (Some 2) (Some 40) (Some false)) 4)
  = (VolumeControl.mkSonosSettings (Some "192.168.1.20") (Some 2) (Some 48) (Some false),
     [VolumeControl.SetSettings 3
        (VolumeControl.mkSonosSettings (Some "192.168.1.20") (Some 2) (Some 48) (Some false));
      VolumeControl.SetFeedback 3
        (VolumeControl.mkFeedback "Volume 48%" "imgs/actions/volume/icon" "48%" 48 true)]).
Proof. vm_compute. reflexivity. Qed.

(** ** The timer discipline *)

Lemma ok_frame w w' :
  timers w' = timers w → nextTimer w' = nextTimer w →
  volumeChangeTimeout w' = volumeChangeTimeout w → pollTimeoutId w' = pollTimeoutId w →
  timers_ok w → timers_ok w'.
Proof.
  unfold timers_ok, owned. intros -> -> -> -> H. exact H.
Qed.

(** Closes a goal [timers_ok w'] where [w'] is written with the run-time
    primitives over a world known to satisfy the discipline. *)
Ltac timers_tac :=
  unfold timers_ok, owned in *; wsimpl;
  intros ?id ?t ?Hl;
  repeat match goal with
  | H : <[_ := _]> _ !! _ = Some _ |- _ => apply lookup_insert_Some in H as [[<- <-]|[? H]]
  | H : delete _ _ !! _ = Some _ |- _ => apply lookup_delete_Some in H as [? H]
  end;
  wsimpl;
  try match goal with
  | Hok : (∀ id t, ?m !! id = Some t → _), H : ?m !! _ = Some _ |- _ =>
      let Hb := fresh "Hb" in let Ho := fresh "Ho" in
      destruct (Hok _ _ H) as [Hb Ho]; clear Hok
  end;
  repeat case_match; simplify_eq; try (split; [lia | done]); try done.

Create HintDb timers.

Lemma ok_emit e w : timers_ok w → timers_ok (emit e w).
Proof. by apply ok_frame. Qed.
Lemma ok_await p w : timers_ok w → timers_ok (await p w).
Proof. by apply ok_frame. Qed.
Lemma ok_settled id w : timers_ok w → timers_ok (settled id w).
Proof. by apply ok_frame. Qed.
Lemma ok_connect ip w : timers_ok w → timers_ok (connect ip w).
Proof. by apply ok_frame. Qed.
Lemma ok_set_sonos x w : timers_ok w → timers_ok (set_sonos x w).
Proof. by apply ok_frame. Qed.
Lemma ok_set_lastKnownVolume x w : timers_ok w → timers_ok (set_lastKnownVolume x w).
Proof. by apply ok_frame. Qed.
Lemma ok_set_isMuted x w : timers_ok w → timers_ok (set_isMuted x w).
Proof. by apply ok_frame. Qed.
Lemma ok_set_pollInterval x w : timers_ok w → timers_ok (set_pollInterval x w).
Proof. by apply ok_frame. Qed.
Lemma ok_set_currentAction x w : timers_ok w → timers_ok (set_currentAction x w).
Proof. by apply ok_frame. Qed.
Lemma ok_set_currentSettings x w : timers_ok w → timers_ok (set_currentSettings x w).
Proof. by apply ok_frame. Qed.
Lemma ok_set_isRotating x w : timers_ok w → timers_ok (set_isRotating x w).
Proof. by apply ok_frame. Qed.
Lemma ok_setFeedback a v m w : timers_ok w → timers_ok (setFeedback a v m w).
Proof. by apply ok_frame. Qed.
Lemma ok_setSettings a st w : timers_ok w → timers_ok (setSettings a st w).
Proof. by apply ok_frame. Qed.
Lemma ok_showAlert a msg w : timers_ok w → timers_ok (showAlert a msg w).
Proof. by apply ok_frame. Qed.
Lemma ok_readBoth s k w : timers_ok w → timers_ok (readBoth s k w).
Proof. by apply ok_frame. Qed.

#[local] Hint Resolve ok_emit ok_await ok_settled ok_connect ok_set_sonos
  ok_set_lastKnownVolume ok_set_isMuted ok_set_pollInterval ok_set_currentAction
  ok_set_currentSettings ok_set_isRotating ok_setFeedback ok_setSettings
  ok_showAlert ok_readBoth : timers.

Lemma ok_initial : timers_ok initial.
Proof.
  unfold timers_ok, initial. cbn [timers]. intros id t H.
  by rewrite lookup_empty in H.
Qed.

Lemma ok_clearTimeout id w : timers_ok w → timers_ok (clearTimeout id w).
Proof. intros Hok. timers_tac. Qed.

Lemma ok_stopPolling w : timers_ok w → timers_ok (stopPolling w).
Proof.
  unfold stopPolling. intros Hok. repeat case_match; timers_tac.
Qed.

Lemma ok_pollFinally w : timers_ok w → timers_ok (pollFinally w).
Proof.
  unfold pollFinally. intros Hok. repeat case_match; timers_tac.
Qed.

#[local] Hint Resolve ok_stopPolling ok_pollFinally : timers.

Lemma ok_pollWithDelay w : timers_ok w → timers_ok (pollWithDelay w).
Proof.
  unfold pollWithDelay. intros Hok. repeat case_match; auto with timers.
Qed.

Lemma ok_pollResume r w : timers_ok w → timers_ok (pollResume r w).
Proof.
  unfold pollResume. intros Hok. apply ok_pollFinally.
  repeat case_match; auto 7 with timers.
Qed.

Lemma ok_startPolling a w : timers_ok w → timers_ok (startPolling a w).
Proof.
  unfold startPolling. intros Hok.
  repeat case_match; try apply ok_pollWithDelay; timers_tac.
Qed.

#[local] Hint Resolve ok_pollWithDelay ok_pollResume ok_startPolling : timers.

Lemma ok_onWillDisappear w : timers_ok w → timers_ok (onWillDisappear w).
Proof.
  unfold onWillDisappear. intros Hok. apply ok_stopPolling.
  repeat case_match; timers_tac.
Qed.

Lemma ok_onWillAppear ev w : timers_ok w → timers_ok (onWillAppear ev w).
Proof.
  unfold onWillAppear. intros Hok. repeat case_match; auto 8 with timers.
Qed.

Lemma ok_appearResume a ip step v r w : timers_ok w → timers_ok (appearResume a ip step v r w).
Proof.
  unfold appearResume. intros Hok. repeat case_match; auto 8 with timers.
Qed.

Lemma ok_onDialRotate ev w : timers_ok w → timers_ok (onDialRotate ev w).
Proof.
  unfold onDialRotate. intros Hok. repeat case_match; timers_tac.
Qed.

Lemma ok_volumeFinally a w : timers_ok w → timers_ok (volumeFinally a w).
Proof. unfold volumeFinally. auto with timers. Qed.

Lemma ok_volumeCatch a w : timers_ok w → timers_ok (volumeCatch a w).
Proof. unfold volumeCatch. auto with timers. Qed.

#[local] Hint Resolve ok_volumeFinally ok_volumeCatch : timers.

Lemma ok_sendVolume a nv w : timers_ok w → timers_ok (sendVolume a nv w).
Proof. unfold sendVolume. intros Hok. repeat case_match; auto with timers. Qed.

#[local] Hint Resolve ok_sendVolume : timers.

Lemma ok_volumeTimer a ip nv w : timers_ok w → timers_ok (volumeTimer a ip nv w).
Proof. unfold volumeTimer. intros Hok. repeat case_match; auto 7 with timers. Qed.

Lemma ok_unmuteResume a nv ok w : timers_ok w → timers_ok (unmuteResume a nv ok w).
Proof. unfold unmuteResume. intros Hok. repeat case_match; auto with timers. Qed.

Lemma ok_setVolumeResume a ok w : timers_ok w → timers_ok (setVolumeResume a ok w).
Proof. unfold setVolumeResume. intros Hok. repeat case_match; auto with timers. Qed.

Lemma ok_onDialUp ev w : timers_ok w → timers_ok (onDialUp ev w).
Proof. unfold onDialUp. intros Hok. repeat case_match; auto 9 with timers. Qed.

Lemma ok_onTouchTap ev w : timers_ok w → timers_ok (onTouchTap ev w).
Proof. unfold onTouchTap. intros Hok. repeat case_match; auto 9 with timers. Qed.

Lemma ok_toggleResume a ok w : timers_ok w → timers_ok (toggleResume a ok w).
Proof. unfold toggleResume. intros Hok. repeat case_match; auto with timers. Qed.

Lemma ok_onDidReceiveSettings ev w : timers_ok w → timers_ok (onDidReceiveSettings ev w).
Proof.
  rewrite onDidReceiveSettings_stores_only. intros Hok. case_match; auto with timers.
Qed.

Lemma ok_settingsResume a st r w : timers_ok w → timers_ok (settingsResume a st r w).
Proof. unfold settingsResume. intros Hok. repeat case_match; auto 8 with timers. Qed.

(** A poll wake that fires was the one [pollTimeoutId] referred to, so
    forgetting the handle leaves no unowned wake behind. *)
Lemma ok_pollTimer id t w :
  timers_ok w → timers w !! id = Some t → callback t = PollWake →
  timers_ok (pollTimer (clearTimeout id w)).
Proof.
  intros Hok Hid Hcb. unfold pollTimer.
  assert (Hown : pollTimeoutId w = Some id).
  { destruct (Hok _ _ Hid) as [_ Ho]. unfold owned in Ho. by rewrite Hcb in Ho. }
  assert (timers_ok (set_pollTimeoutId None (clearTimeout id w))) by timers_tac.
  case_match; auto with timers.
Qed.

Lemma ok_fireTimer id w w' : timers_ok w → fireTimer id w = Some w' → timers_ok w'.
Proof.
  unfold fireTimer. intros Hok H.
  destruct (timers w !! id) as [t|] eqn:Hid; [| done].
  injection H as <-. destruct (callback t) eqn:Hcb; cbn [runCallback].
  - by eapply ok_pollTimer.
  - apply ok_volumeTimer. by apply ok_clearTimeout.
Qed.

Lemma ok_handle e w w' : timers_ok w → handle e w = Some w' → timers_ok w'.
Proof.
  intros Hok. destruct e; cbn [handle].
  - intros [= <-]. by apply ok_onWillAppear.
  - intros [= <-]. by apply ok_onWillDisappear.
  - intros [= <-]. by apply ok_onDialRotate.
  - intros [= <-]. by apply ok_onDialUp.
  - intros [= <-]. by apply ok_onTouchTap.
  - intros [= <-]. by apply ok_onDidReceiveSettings.
  - by apply ok_fireTimer.
  - unfold settleRead. repeat case_match; try done. intros [= <-].
    destruct k; cbn [resumeRead];
      auto using ok_pollResume, ok_appearResume, ok_settingsResume, ok_settled.
  - unfold settleWrite. repeat case_match; try done. intros [= <-].
    destruct k; cbn [resumeWrite];
      auto using ok_unmuteResume, ok_setVolumeResume, ok_toggleResume, ok_settled.
Qed.

Lemma reachable_timers_ok w : reachable w → timers_ok w.
Proof.
  induction 1 as [| e w w' _ IH Hstep]; [apply ok_initial | by eapply ok_handle].
Qed.

Lemma rotateBurst_snoc evs ev w :
  rotateBurst (evs ++ [ev]) w = onDialRotate ev (rotateBurst evs w).
Proof. unfold rotateBurst. by rewrite foldl_snoc. Qed.

Lemma reachable_rotateBurst evs w : reachable w → reachable (rotateBurst evs w).
Proof.
  revert w. induction evs as [| ev evs IH]; intros w Hw; [exact Hw |].
  apply IH. by apply (reachable_step (EDialRotate ev) w).
Qed.

Lemma reachable_run es w w' : reachable w → run es w = Some w' → reachable w'.
Proof.
  revert w. induction es as [| e es IH]; intros w Hw; cbn [run].
  - by intros [= <-].
  - destruct (handle e w) as [w1|] eqn:He; [| done].
    apply IH. by eapply reachable_step.
Qed.

Lemma reachable_connectedWorld : reachable connectedWorld.
Proof.
  apply (reachable_run
           [EWillAppear (mkAppearEvent 7 true lounge);
            ERead 0 (Some (50, false));
            ERead 1 (Some (50, false))] initial);
    [apply reachable_initial | vm_compute; reflexivity].
Qed.

Lemma reachable_spinningWorld : reachable spinningWorld.
Proof.
  apply (reachable_step (EDialRotate (mkRotateEvent 7 lounge 2)) connectedWorld);
    [apply reachable_connectedWorld | vm_compute; reflexivity].
Qed.

Lemma reachable_spinningPollWorld : reachable spinningPollWorld.
Proof.
  apply (reachable_run [ETimer 0; EDialRotate (mkRotateEvent 7 lounge 2)] connectedWorld);
    [apply reachable_connectedWorld | vm_compute; reflexivity].
Qed.

(** ** Polling: the [finally] block *)

Lemma pollFinally_trace w : trace (pollFinally w) = trace w.
Proof. unfold pollFinally. by repeat case_match. Qed.

Lemma pollFinally_cache w :
  lastKnownVolume (pollFinally w) = lastKnownVolume w
  ∧ isMuted (pollFinally w) = isMuted w
  ∧ sonos (pollFinally w) = sonos w
  ∧ pollInterval (pollFinally w) = pollInterval w
  ∧ currentAction (pollFinally w) = currentAction w
  ∧ currentSettings (pollFinally w) = currentSettings w
  ∧ isRotating (pollFinally w) = isRotating w
  ∧ awaits (pollFinally w) = awaits w
  ∧ nextAwait (pollFinally w) = nextAwait w
  ∧ nextConn (pollFinally w) = nextConn w
  ∧ volumeChangeTimeout (pollFinally w) = volumeChangeTimeout w.
Proof. unfold pollFinally. by repeat case_match. Qed.

(** What the [finally] block schedules while polling is active. *)
Lemma pollFinally_active w :
  active w = true →
  pollTimeoutId (pollFinally w) = Some (nextTimer w)
  ∧ timers (pollFinally w) !! nextTimer w = Some (mkTimer POLLING_INTERVAL_MS PollWake)
  ∧ nextTimer (pollFinally w) = S (nextTimer w).
Proof.
  unfold pollFinally. intros ->.
  case_match; wsimpl; by rewrite lookup_insert_eq.
Qed.

Lemma pollFinally_stopped w : active w = false → pollFinally w = w.
Proof. unfold pollFinally. by intros ->. Qed.

(** ** Teardown *)

Lemma onWillDisappear_timers w : timers_ok w → timers (onWillDisappear w) = ∅.
Proof.
  intros Hok. apply map_empty. intros id.
  apply eq_None_not_Some. intros [t Ht].
  unfold onWillDisappear, stopPolling in Ht.
  repeat case_match; wsimpl;
    repeat match goal with
    | H : delete _ _ !! _ = Some _ |- _ => apply lookup_delete_Some in H as [? H]
    end;
    destruct (Hok _ _ Ht) as [_ Ho]; unfold owned in Ho;
    repeat case_match; simplify_eq.
Qed.

Lemma tornDown_frame w w' :
  timers w' = timers w → pollInterval w' = pollInterval w →
  currentSettings w' = currentSettings w → tornDown w → tornDown w'.
Proof. unfold tornDown. by intros -> -> ->. Qed.

Lemma tornDown_pollFinally w : tornDown w → tornDown (pollFinally w).
Proof.
  intros Hd. rewrite pollFinally_stopped; [exact Hd |].
  destruct Hd as (_ & Hp & _). unfold active. by rewrite Hp.
Qed.

Lemma tornDown_startPolling a w : tornDown w → tornDown (startPolling a w).
Proof.
  intros (Ht & Hp & Hc). unfold startPolling, active. rewrite Hp.
  destruct (pollTimeoutId w) as [id|]; wsimpl; rewrite Hc;
    unfold tornDown; wsimpl; rewrite ?Ht, ?delete_empty; done.
Qed.

Lemma tornDown_volumeFinally a w : tornDown w → tornDown (volumeFinally a w).
Proof.
  intros Hd. unfold volumeFinally. apply tornDown_startPolling.
  revert Hd. by apply tornDown_frame.
Qed.

Lemma tornDown_sendVolume a nv w : tornDown w → tornDown (sendVolume a nv w).
Proof.
  intros Hd. unfold sendVolume. destruct (sonos w).
  - revert Hd. by apply tornDown_frame.
  - apply tornDown_volumeFinally. revert Hd. by apply tornDown_frame.
Qed.

(** Once torn down, the instance stays so until the host speaks again: no
    settling promise arms a timer or restarts the poller. *)
Lemma tornDown_handle e w w' :
  internal e = true → tornDown w → handle e w = Some w' → tornDown w'.
Proof.
  intros Hi Hd. destruct e; try done; cbn [handle].
  - unfold fireTimer. destruct Hd as (Ht & _). by rewrite Ht, lookup_empty.
  - unfold settleRead. destruct (awaits w !! id) as [[k|k]|]; try done.
    intros [= <-].
    assert (Hd0 : tornDown (settled id w)) by (revert Hd; by apply tornDown_frame).
    destruct k; cbn [resumeRead].
    + unfold pollResume. apply tornDown_pollFinally.
      repeat case_match; revert Hd0; by apply tornDown_frame.
    + unfold appearResume. destruct r as [[volume muted]|].
      * apply tornDown_startPolling. revert Hd0. by apply tornDown_frame.
      * revert Hd0. by apply tornDown_frame.
    + unfold settingsResume. destruct r as [[volume muted]|].
      * apply tornDown_startPolling. revert Hd0. by apply tornDown_frame.
      * revert Hd0. by apply tornDown_frame.
  - unfold settleWrite. destruct (awaits w !! id) as [[k|k]|]; try done.
    intros [= <-].
    assert (Hd0 : tornDown (settled id w)) by (revert Hd; by apply tornDown_frame).
    destruct k; cbn [resumeWrite].
    + unfold unmuteResume. destruct ok.
      * apply tornDown_sendVolume. revert Hd0. by apply tornDown_frame.
      * apply tornDown_volumeFinally. revert Hd0. by apply tornDown_frame.
    + unfold setVolumeResume. destruct ok; apply tornDown_volumeFinally;
        [exact Hd0 | revert Hd0; by apply tornDown_frame].
    + unfold toggleResume. destruct ok; [exact Hd0 |].
      revert Hd0. by apply tornDown_frame.
Qed.

Lemma tornDown_run es w w' :
  forallb internal es = true → tornDown w → run es w = Some w' → tornDown w'.
Proof.
  revert w. induction es as [| e es IH]; intros w Hi Hd; cbn [run].
  - by intros [= <-].
  - cbn [forallb] in Hi. apply andb_prop in Hi as [He Hes].
    destruct (handle e w) as [w1|] eqn:Hh; [| done].
    apply IH; [exact Hes |]. by eapply tornDown_handle.
Qed.

Lemma onWillDisappear_fields w :
  volumeChangeTimeout (onWillDisappear w) = None
  ∧ pollTimeoutId (onWillDisappear w) = None
  ∧ pollInterval (onWillDisappear w) = None
  ∧ currentSettings (onWillDisappear w) = None
  ∧ trace (onWillDisappear w) = trace w.
Proof. unfold onWillDisappear, stopPolling. by repeat case_match. Qed.

(** C7. From any world the instance can reach — in particular one with a
    debounce timer pending — [onWillDisappear] leaves no timer pending at
    all and clears both timer handles and the poll flag, so no timer
    callback, and hence no debounced [setVolume], can run afterwards.
    This stays so whatever promises settle later: until the host delivers a
    new event, no timer is armed again and the poller is not restarted. *)
Theorem teardown_cancels_timers (w : World) :
  reachable w →
  let w' := onWillDisappear w in
  timers w' = ∅
  ∧ volumeChangeTimeout w' = None
  ∧ pollTimeoutId w' = None
  ∧ pollInterval w' = None
  ∧ emitted w w' = []
  ∧ (∀ id, handle (ETimer id) w' = None)
  ∧ ∀ es w'',
      forallb internal es = true → run es w' = Some w'' →
      timers w'' = ∅ ∧ pollInterval w'' = None ∧ ∀ id, handle (ETimer id) w'' = None.
Proof.
  intros Hr. cbv zeta.
  pose proof (onWillDisappear_timers w (reachable_timers_ok w Hr)) as Ht.
  destruct (onWillDisappear_fields w) as (Hv & Hpt & Hpi & Hcs & Htr).
  split; [exact Ht |]. split; [exact Hv |]. split; [exact Hpt |]. split; [exact Hpi |].
  split; [by apply emitted_refl |].
  split.
  - intros id. cbn [handle]. unfold fireTimer. by rewrite Ht, lookup_empty.
  - intros es w'' Hi Hrun.
    destruct (tornDown_run es (onWillDisappear w) w'' Hi) as (Ht' & Hp' & _);
      [by repeat split | exact Hrun |].
    split; [exact Ht' |]. split; [exact Hp' |].
    intros id. cbn [handle]. unfold fireTimer. by rewrite Ht', lookup_empty.
Qed.

Lemma teardown_cancels_timers_witness :
  (∃ id nv, volumeChangeTimeout spinningWorld = Some id
            ∧ timers spinningWorld !! id
              = Some (mkTimer VOLUME_CHANGE_DEBOUNCE_MS (VolumeChange 7 "192.168.1.20" nv)))
  ∧ timers (onWillDisappear spinningWorld) = ∅
  ∧ volumeChangeTimeout (onWillDisappear spinningWorld) = None
  ∧ pollTimeoutId (onWillDisappear spinningWorld) = None
  ∧ pollInterval (onWillDisappear spinningWorld) = None
  ∧ emitted spinningWorld (onWillDisappear spinningWorld) = []
  ∧ (∀ id, handle (ETimer id) (onWillDisappear spinningWorld) = None)
  ∧ ∀ es w'',
      forallb internal es = true → run es (onWillDisappear spinningWorld) = Some w'' →
      timers w'' = ∅ ∧ pollInterval w'' = None ∧ ∀ id, handle (ETimer id) w'' = None.
Proof.
  split.
  - exists 1%nat, 60. split; vm_compute; reflexivity.
  - apply (teardown_cancels_timers spinningWorld).
    apply (reachable_step (EDialRotate (mkRotateEvent 7 lounge 2)) connectedWorld);
      [| vm_compute; reflexivity].
    apply (reachable_run
             [EWillAppear (mkAppearEvent 7 true lounge);
              ERead 0 (Some (50, false));
              ERead 1 (Some (50, false))] initial);
      [apply reachable_initial | vm_compute; reflexivity].
Defined.

(** ** Polling *)

(** C2. A poll cycle whose reads settle (either way) while [isRotating] is
    true leaves the cached volume and the cached mute flag as they were,
    pushes nothing to the host, and reschedules as usual: if polling is still
    active a wake is armed for [POLLING_INTERVAL_MS] and [pollTimeoutId]
    refers to it; if polling was stopped meanwhile, no timer is touched. *)
Theorem poll_discarded_while_rotating (w : World) (id : nat) (r : option (Z * bool)) :
  awaits w !! id = Some (AwaitRead KPoll) →
  isRotating w = true →
  ∃ w', handle (ERead id r) w = Some w'
    ∧ lastKnownVolume w' = lastKnownVolume w
    ∧ isMuted w' = isMuted w
    ∧ emitted w w' = []
    ∧ pollInterval w' = pollInterval w
    ∧ (active w = true →
         pollTimeoutId w' = Some (nextTimer w)
         ∧ timers w' !! nextTimer w = Some (mkTimer POLLING_INTERVAL_MS PollWake))
    ∧ (active w = false → timers w' = timers w ∧ pollTimeoutId w' = pollTimeoutId w).
Proof.
  intros Hk Hrot. cbn [handle]. unfold settleRead. rewrite Hk. cbn [resumeRead].
  eexists; split; [reflexivity |].
  unfold pollResume.
  set (w1 := match r with
             | Some (volume, muted) => _
             | None => _
             end).
  assert (Hw1 : w1 = settled id w ∨ w1 = set_sonos None (settled id w)).
  { subst w1. destruct r as [[volume muted]|]; [| by right].
    cbn [isRotating settled]. rewrite Hrot, andb_false_r. by left. }
  destruct (pollFinally_cache w1) as (Hv & Hm & _ & Hp & _).
  rewrite Hv, Hm, Hp.
  assert (Hact : active w1 = active w) by (by destruct Hw1 as [-> | ->]).
  repeat split.
  - by destruct Hw1 as [-> | ->].
  - by destruct Hw1 as [-> | ->].
  - apply emitted_refl. rewrite pollFinally_trace. by destruct Hw1 as [-> | ->].
  - by destruct Hw1 as [-> | ->].
  - rewrite <- Hact in H. destruct (pollFinally_active w1 H) as (Hid & _).
    rewrite Hid. by destruct Hw1 as [-> | ->].
  - rewrite <- Hact in H. destruct (pollFinally_active w1 H) as (_ & Ht & _).
    by destruct Hw1 as [-> | ->].
  - rewrite <- Hact in H. rewrite (pollFinally_stopped w1 H). by destruct Hw1 as [-> | ->].
  - rewrite <- Hact in H. rewrite (pollFinally_stopped w1 H). by destruct Hw1 as [-> | ->].
Qed.

Lemma poll_discarded_while_rotating_witness :
  ∃ w', handle (ERead 2 (Some (30, true))) spinningPollWorld = Some w'
    ∧ lastKnownVolume w' = lastKnownVolume spinningPollWorld
    ∧ isMuted w' = isMuted spinningPollWorld
    ∧ emitted spinningPollWorld w' = []
    ∧ pollInterval w' = pollInterval spinningPollWorld
    ∧ (active spinningPollWorld = true →
         pollTimeoutId w' = Some (nextTimer spinningPollWorld)
         ∧ timers w' !! nextTimer spinningPollWorld
           = Some (mkTimer POLLING_INTERVAL_MS PollWake))
    ∧ (active spinningPollWorld = false →
         timers w' = timers spinningPollWorld
         ∧ pollTimeoutId w' = pollTimeoutId spinningPollWorld).
Proof.
  apply (poll_discarded_while_rotating spinningPollWorld 2 (Some (30, true)));
    vm_compute; reflexivity.
Defined.

(** Outside a rotation the same poll result is taken over and shown. *)
Example poll_applied_when_idle :
  ∃ w', run [ETimer 0; ERead 2 (Some (30, true))] connectedWorld = Some w'
    ∧ lastKnownVolume w' = 30 ∧ isMuted w' = true
    ∧ emitted connectedWorld w'
      = [GetVolume (mkSonos "192.168.1.20" 0); GetMuted (mkSonos "192.168.1.20" 0);
         SetFeedback 7 30 Half;
         SetSettings 7 (mkSettings (Some "192.168.1.20") (Some 30) (Some 5))].
Proof. eexists. vm_compute. repeat split; reflexivity. Qed.

(** A poll cycle started in [w] with no client object and a configured
    address builds a new client and reads through it. *)
Lemma pollWithDelay_reconnects w a st ip :
  active w = true → currentAction w = Some a → currentSettings w = Some st →
  truthy (speakerIp st) = Some ip → sonos w = None →
  sonos (pollWithDelay w) = Some (fresh ip w)
  ∧ trace (pollWithDelay w)
    = trace w ++ [NewSonos (fresh ip w); GetVolume (fresh ip w); GetMuted (fresh ip w)]
  ∧ awaits (pollWithDelay w) !! nextAwait w = Some (AwaitRead KPoll)
  ∧ pollInterval (pollWithDelay w) = pollInterval w.
Proof.
  intros Hact Ha Hst Hip Hs. unfold pollWithDelay.
  rewrite Hact, Ha, Hst, Hs, Hip. cbn [negb]. wsimpl.
  rewrite <- !app_assoc. by rewrite lookup_insert_eq.
Qed.

(** C6. When the reads of a poll cycle reject, the client object is
    dropped, nothing is shown to the user (no alert, no feedback), and the
    poll flag is left alone.  If polling is still active a wake is armed for
    [POLLING_INTERVAL_MS]; when that wake fires with the action and a
    configured address still in place, a new cycle starts on a newly built
    client.  If polling was stopped meanwhile, nothing is scheduled. *)
Theorem poll_failure_keeps_polling (w : World) (id : nat) :
  awaits w !! id = Some (AwaitRead KPoll) →
  ∃ w', handle (ERead id None) w = Some w'
    ∧ sonos w' = None
    ∧ emitted w w' = []
    ∧ pollInterval w' = pollInterval w
    ∧ lastKnownVolume w' = lastKnownVolume w
    ∧ isMuted w' = isMuted w
    ∧ (active w = true →
         pollTimeoutId w' = Some (nextTimer w)
         ∧ timers w' !! nextTimer w = Some (mkTimer POLLING_INTERVAL_MS PollWake)
         ∧ ∀ a st ip,
             currentAction w = Some a → currentSettings w = Some st →
             truthy (speakerIp st) = Some ip →
             ∃ w'', handle (ETimer (nextTimer w)) w' = Some w''
               ∧ emitted w' w''
                 = [NewSonos (fresh ip w'); GetVolume (fresh ip w'); GetMuted (fresh ip w')]
               ∧ sonos w'' = Some (fresh ip w')
               ∧ awaits w'' !! nextAwait w' = Some (AwaitRead KPoll)
               ∧ active w'' = true)
    ∧ (active w = false → timers w' = timers w ∧ pollTimeoutId w' = pollTimeoutId w).
Proof.
  intros Hk. cbn [handle]. unfold settleRead. rewrite Hk. cbn [resumeRead].
  eexists; split; [reflexivity |].
  change (pollResume None (settled id w))
    with (pollFinally (set_sonos None (settled id w))).
  set (w1 := set_sonos None (settled id w)).
  destruct (pollFinally_cache w1) as (Hv & Hm & Hs & Hp & Hca & Hcs & _ & Haw & Hna & Hnc & _).
  split; [exact Hs |].
  split; [apply emitted_refl; by rewrite pollFinally_trace |].
  split; [exact Hp |]. split; [exact Hv |]. split; [exact Hm |].
  repeat split.
  - destruct (pollFinally_active w1 H) as (Hid & _). exact Hid.
  - destruct (pollFinally_active w1 H) as (_ & Ht & _). exact Ht.
  - intros a st ip Ha Hst Hip.
    destruct (pollFinally_active w1 H) as (Hid & Ht & _).
    unfold fireTimer. change (nextTimer w) with (nextTimer w1). rewrite Ht.
    eexists; split; [reflexivity |]. cbn [callback runCallback]. unfold pollTimer.
    set (w2 := set_pollTimeoutId None (clearTimeout (nextTimer w1) (pollFinally w1))).
    assert (Hact2 : active w2 = true).
    { subst w2. unfold active. wsimpl. rewrite Hp. exact H. }
    rewrite Hact2.
    assert (Ha2 : currentAction w2 = Some a).
    { subst w2. wsimpl. by rewrite Hca. }
    assert (Hst2 : currentSettings w2 = Some st).
    { subst w2. wsimpl. by rewrite Hcs. }
    assert (Hso2 : sonos w2 = None).
    { subst w2. wsimpl. exact Hs. }
    destruct (pollWithDelay_reconnects w2 a st ip Hact2 Ha2 Hst2 Hip Hso2)
      as (Hs2 & Ht2 & Haw2 & Hp2).
    assert (Hf : fresh ip w2 = fresh ip (pollFinally w1)) by reflexivity.
    rewrite <- Hf. repeat split.
    + apply emitted_app. rewrite Ht2. reflexivity.
    + exact Hs2.
    + exact Haw2.
    + unfold active. rewrite Hp2. exact Hact2.
  - by rewrite (pollFinally_stopped w1 H).
  - by rewrite (pollFinally_stopped w1 H).
Qed.

Lemma poll_failure_keeps_polling_witness :
  ∃ w', handle (ERead 2 None) spinningPollWorld = Some w'
    ∧ sonos w' = None
    ∧ emitted spinningPollWorld w' = []
    ∧ pollInterval w' = pollInterval spinningPollWorld
    ∧ lastKnownVolume w' = lastKnownVolume spinningPollWorld
    ∧ isMuted w' = isMuted spinningPollWorld
    ∧ (active spinningPollWorld = true →
         pollTimeoutId w' = Some (nextTimer spinningPollWorld)
         ∧ timers w' !! nextTimer spinningPollWorld
           = Some (mkTimer POLLING_INTERVAL_MS PollWake)
         ∧ ∀ a st ip,
             currentAction spinningPollWorld = Some a →
             currentSettings spinningPollWorld = Some st →
             truthy (speakerIp st) = Some ip →
             ∃ w'', handle (ETimer (nextTimer spinningPollWorld)) w' = Some w''
               ∧ emitted w' w''
                 = [NewSonos (fresh ip w'); GetVolume (fresh ip w'); GetMuted (fresh ip w')]
               ∧ sonos w'' = Some (fresh ip w')
               ∧ awaits w'' !! nextAwait w' = Some (AwaitRead KPoll)
               ∧ active w'' = true)
    ∧ (active spinningPollWorld = false →
         timers w' = timers spinningPollWorld
         ∧ pollTimeoutId w' = pollTimeoutId spinningPollWorld).
Proof.
  apply (poll_failure_keeps_polling spinningPollWorld 2). vm_compute. reflexivity.
Defined.

(** A failed poll followed by its next wake, on a concrete run. *)
Example poll_failure_then_wake :
  ∃ w', run [ETimer 0; ERead 2 None; ETimer 1] connectedWorld = Some w'
    ∧ emitted connectedWorld w'
      = [GetVolume (mkSonos "192.168.1.20" 0); GetMuted (mkSonos "192.168.1.20" 0);
         NewSonos (mkSonos "192.168.1.20" 1);
         GetVolume (mkSonos "192.168.1.20" 1); GetMuted (mkSonos "192.168.1.20" 1)].
Proof. eexists. vm_compute. split; reflexivity. Qed.

(** ** What a poll start can do *)

Lemma stopPolling_frame w :
  trace (stopPolling w) = trace w ∧ sonos (stopPolling w) = sonos w
  ∧ isMuted (stopPolling w) = isMuted w
  ∧ lastKnownVolume (stopPolling w) = lastKnownVolume w
  ∧ nextConn (stopPolling w) = nextConn w
  ∧ pollInterval (stopPolling w) = None.
Proof. unfold stopPolling. by repeat case_match. Qed.

Lemma pollWithDelay_pollStart w : pollStart w (pollWithDelay w).
Proof.
  unfold pollWithDelay, pollStart.
  destruct (negb (active w)); [by left |].
  destruct (currentAction w), (currentSettings w) as [st|];
    try (left; rewrite pollFinally_trace;
         destruct (pollFinally_cache (stopPolling w)) as (_ & _ & -> & _);
         by destruct (stopPolling_frame w) as (-> & -> & _)).
  destruct (sonos w) as [s|] eqn:Hs.
  - right; left. exists s. wsimpl. by rewrite <- !app_assoc.
  - destruct (truthy (speakerIp st)) as [ip|].
    + right; right. exists ip. wsimpl. by rewrite <- !app_assoc.
    + left. rewrite pollFinally_trace.
      destruct (pollFinally_cache (stopPolling w)) as (_ & _ & -> & _).
      destruct (stopPolling_frame w) as (-> & -> & _). by rewrite Hs.
Qed.

Lemma pollWithDelay_cache w :
  isMuted (pollWithDelay w) = isMuted w
  ∧ lastKnownVolume (pollWithDelay w) = lastKnownVolume w.
Proof.
  unfold pollWithDelay.
  repeat case_match; wsimpl; try done;
    destruct (pollFinally_cache (stopPolling w)) as (-> & -> & _);
    by destruct (stopPolling_frame w) as (_ & _ & -> & -> & _).
Qed.

Lemma startPolling_pollStart a w : pollStart w (startPolling a w).
Proof.
  unfold startPolling.
  destruct (active w); [by left |].
  set (w1 := set_currentAction _ _).
  assert (H1 : trace w1 = trace w ∧ sonos w1 = sonos w ∧ nextConn w1 = nextConn w)
    by (subst w1; by repeat case_match).
  destruct H1 as (Ht & Hs & Hn).
  destruct (currentSettings w1); [| by left].
  pose proof (pollWithDelay_pollStart (set_pollInterval (Some true) w1)) as Hp.
  unfold pollStart, fresh in *. cbn [trace sonos nextConn set_pollInterval] in Hp.
  by rewrite Ht, Hs, Hn in Hp.
Qed.

Lemma startPolling_cache a w :
  isMuted (startPolling a w) = isMuted w
  ∧ lastKnownVolume (startPolling a w) = lastKnownVolume w.
Proof.
  unfold startPolling.
  destruct (active w); [done |].
  set (w1 := set_currentAction _ _).
  assert (H1 : isMuted w1 = isMuted w ∧ lastKnownVolume w1 = lastKnownVolume w)
    by (subst w1; by repeat case_match).
  destruct H1 as (<- & <-).
  destruct (currentSettings w1); [| done].
  apply (pollWithDelay_cache (set_pollInterval (Some true) w1)).
Qed.

(** ** Client objects *)

Lemma conn_frame w w' :
  sonos w' = sonos w → nextConn w' = nextConn w → conn_ok w → conn_ok w'.
Proof. unfold conn_ok. intros -> ->. done. Qed.

Lemma conn_dropped w : sonos w = None → conn_ok w.
Proof. unfold conn_ok. intros ->. done. Qed.

Lemma conn_connect ip w : conn_ok (connect ip w).
Proof. unfold conn_ok, connect, fresh. wsimpl. intros s [= <-]. cbn [conn]. lia. Qed.

Create HintDb conns.

Lemma conn_emit e w : conn_ok w → conn_ok (emit e w).
Proof. by apply conn_frame. Qed.
Lemma conn_await p w : conn_ok w → conn_ok (await p w).
Proof. by apply conn_frame. Qed.
Lemma conn_settled id w : conn_ok w → conn_ok (settled id w).
Proof. by apply conn_frame. Qed.
Lemma conn_clearTimeout id w : conn_ok w → conn_ok (clearTimeout id w).
Proof. by apply conn_frame. Qed.
Lemma conn_setTimeout cb d w : conn_ok w → conn_ok (setTimeout cb d w).
Proof. by apply conn_frame. Qed.
Lemma conn_set_sonos_None w : conn_ok (set_sonos None w).
Proof. by apply conn_dropped. Qed.
Lemma conn_set_lastKnownVolume x w : conn_ok w → conn_ok (set_lastKnownVolume x w).
Proof. by apply conn_frame. Qed.
Lemma conn_set_isMuted x w : conn_ok w → conn_ok (set_isMuted x w).
Proof. by apply conn_frame. Qed.
Lemma conn_set_pollInterval x w : conn_ok w → conn_ok (set_pollInterval x w).
Proof. by apply conn_frame. Qed.
Lemma conn_set_pollTimeoutId x w : conn_ok w → conn_ok (set_pollTimeoutId x w).
Proof. by apply conn_frame. Qed.
Lemma conn_set_currentAction x w : conn_ok w → conn_ok (set_currentAction x w).
Proof. by apply conn_frame. Qed.
Lemma conn_set_currentSettings x w : conn_ok w → conn_ok (set_currentSettings x w).
Proof. by apply conn_frame. Qed.
Lemma conn_set_volumeChangeTimeout x w : conn_ok w → conn_ok (set_volumeChangeTimeout x w).
Proof. by apply conn_frame. Qed.
Lemma conn_set_isRotating x w : conn_ok w → conn_ok (set_isRotating x w).
Proof. by apply conn_frame. Qed.
Lemma conn_setFeedback a v m w : conn_ok w → conn_ok (setFeedback a v m w).
Proof. by apply conn_frame. Qed.
Lemma conn_setSettings a st w : conn_ok w → conn_ok (setSettings a st w).
Proof. by apply conn_frame. Qed.
Lemma conn_showAlert a msg w : conn_ok w → conn_ok (showAlert a msg w).
Proof. by apply conn_frame. Qed.
Lemma conn_readBoth s k w : conn_ok w → conn_ok (readBoth s k w).
Proof. by apply conn_frame. Qed.

#[local] Hint Resolve conn_connect conn_emit conn_await conn_settled conn_clearTimeout
  conn_setTimeout conn_set_sonos_None conn_set_lastKnownVolume conn_set_isMuted
  conn_set_pollInterval conn_set_pollTimeoutId conn_set_currentAction
  conn_set_currentSettings conn_set_volumeChangeTimeout conn_set_isRotating
  conn_setFeedback conn_setSettings conn_showAlert conn_readBoth : conns.

Lemma conn_stopPolling w : conn_ok w → conn_ok (stopPolling w).
Proof. unfold stopPolling. intros H. repeat case_match; auto 6 with conns. Qed.

Lemma conn_pollFinally w : conn_ok w → conn_ok (pollFinally w).
Proof. unfold pollFinally. intros H. repeat case_match; auto 6 with conns. Qed.

#[local] Hint Resolve conn_stopPolling conn_pollFinally : conns.

Lemma conn_pollWithDelay w : conn_ok w → conn_ok (pollWithDelay w).
Proof. unfold pollWithDelay. intros H. repeat case_match; auto 6 with conns. Qed.

Lemma conn_pollResume r w : conn_ok w → conn_ok (pollResume r w).
Proof.
  unfold pollResume. intros H. apply conn_pollFinally.
  repeat case_match; auto 7 with conns.
Qed.

#[local] Hint Resolve conn_pollWithDelay conn_pollResume : conns.

Lemma conn_startPolling a w : conn_ok w → conn_ok (startPolling a w).
Proof. unfold startPolling. intros H. repeat case_match; auto 8 with conns. Qed.

#[local] Hint Resolve conn_startPolling : conns.

Lemma conn_handle e w w' : conn_ok w → handle e w = Some w' → conn_ok w'.
Proof.
  intros Hok. destruct e; cbn [handle].
  - intros [= <-]. unfold onWillAppear. repeat case_match; auto 8 with conns.
  - intros [= <-]. unfold onWillDisappear. repeat case_match; auto 8 with conns.
  - intros [= <-]. unfold onDialRotate. repeat case_match; auto 12 with conns.
  - intros [= <-]. unfold onDialUp. repeat case_match; auto 8 with conns.
  - intros [= <-]. unfold onTouchTap. repeat case_match; auto 8 with conns.
  - intros [= <-]. rewrite onDidReceiveSettings_stores_only.
    case_match; auto with conns.
  - unfold fireTimer. destruct (timers w !! id) as [t|]; [| done]. intros [= <-].
    destruct (callback t); cbn [runCallback];
      unfold pollTimer, volumeTimer, sendVolume, volumeFinally, volumeCatch;
      repeat case_match; auto 10 with conns.
  - unfold settleRead. repeat case_match; try done. intros [= <-].
    destruct k; cbn [resumeRead]; unfold appearResume, settingsResume;
      repeat case_match; auto 10 with conns.
  - unfold settleWrite. repeat case_match; try done. intros [= <-].
    destruct k; cbn [resumeWrite];
      unfold unmuteResume, setVolumeResume, toggleResume, sendVolume, volumeFinally,
        volumeCatch;
      repeat case_match; auto 10 with conns.
Qed.

Lemma reachable_conn_ok w : reachable w → conn_ok w.
Proof.
  induction 1 as [| e w w' _ IH Hstep]; [by apply conn_dropped | by eapply conn_handle].
Qed.

(** ** Reconnecting *)

Lemma volumeTimer_reconnects a ip nv w :
  sonos w = None →
  sonos (volumeTimer a ip nv w) = Some (fresh ip w)
  ∧ trace (volumeTimer a ip nv w)
    = trace w ++ [NewSonos (fresh ip w);
                  if isMuted w then SetMuted (fresh ip w) false
                  else SetVolume (fresh ip w) nv].
Proof.
  intros Hs. unfold volumeTimer, sendVolume. rewrite Hs. wsimpl.
  destruct (isMuted w); wsimpl; by rewrite <- !app_assoc.
Qed.

Lemma onDialUp_reconnects ev w ip :
  sonos w = None →
  truthy (speakerIp (du_settings ev)) = Some ip →
  sonos (onDialUp ev w) = Some (fresh ip w)
  ∧ ∃ d, trace (onDialUp ev w)
         = trace w
             ++ [SetFeedback (du_action ev) (lastKnownVolume w) (opacity (negb (isMuted w)));
                 NewSonos (fresh ip w)]
             ++ d ++ [SetMuted (fresh ip w) (negb (isMuted w))]
       ∧ (d = [] ∨ d = [GetVolume (fresh ip w); GetMuted (fresh ip w)]).
Proof.
  intros Hs Hip. unfold onDialUp. rewrite Hip. wsimpl. rewrite Hs.
  set (w1 := connect ip _).
  assert (Hs1 : sonos w1 = Some (fresh ip w)) by reflexivity.
  assert (Ht1 : trace w1
                = trace w ++ [SetFeedback (du_action ev) (lastKnownVolume w)
                                (opacity (negb (isMuted w)));
                              NewSonos (fresh ip w)]).
  { subst w1. unfold connect, fresh. wsimpl. by rewrite <- !app_assoc. }
  destruct (pollInterval w).
  - rewrite Hs1. wsimpl. split; [exact Hs1 |].
    exists []. split; [| by left]. by rewrite Ht1, <- !app_assoc.
  - destruct (startPolling_pollStart (du_action ev) w1)
      as [(Ht & Hs2) | [(s & Hs0 & Hs2 & Ht) | (ip' & Hs0 & _)]].
    + rewrite Hs2, Hs1. wsimpl. split; [exact (eq_trans Hs2 Hs1) |].
      exists []. split; [| by left]. by rewrite Ht, Ht1, <- !app_assoc.
    + rewrite Hs1 in Hs0. injection Hs0 as <-.
      rewrite Hs2. wsimpl. split; [exact Hs2 |].
      exists [GetVolume (fresh ip w); GetMuted (fresh ip w)]. split; [| by right].
      by rewrite Ht, Ht1, <- !app_assoc.
    + by rewrite Hs1 in Hs0.
Qed.

Lemma onlyOn_Forall s es :
  Forall (λ e, match onClient e with Some s' => s' = s | None => True end) es →
  onlyOn s es.
Proof.
  intros HF e s' He Hc. rewrite Forall_forall in HF.
  specialize (HF e He). by rewrite Hc in HF.
Qed.

Ltac on_fresh :=
  split; [apply list_elem_of_In; cbn; auto | apply onlyOn_Forall; by repeat constructor].

Lemma perform_reconnects op w ip :
  sonos w = None → address op w = Some ip →
  sonos (perform op w) = Some (fresh ip w)
  ∧ NewSonos (fresh ip w) ∈ emitted w (perform op w)
  ∧ onlyOn (fresh ip w) (emitted w (perform op w)).
Proof.
  intros Hs Hip. destruct op as [a ip' nv | ev | ev |]; cbn [perform address] in *.
  - injection Hip as ->.
    destruct (volumeTimer_reconnects a ip nv w Hs) as (Hs' & Ht).
    rewrite (emitted_app _ _ _ Ht). split; [exact Hs' |].
    destruct (isMuted w); on_fresh.
  - destruct (onDialUp_reconnects ev w ip Hs Hip) as (Hs' & d & Ht & Hd).
    rewrite (emitted_app _ _ _ Ht). split; [exact Hs' |].
    destruct Hd as [-> | ->]; on_fresh.
  - change (onTouchTap ev w)
      with (onDialUp (mkDialUpEvent (tt_action ev) (tt_settings ev)) w).
    destruct (onDialUp_reconnects (mkDialUpEvent (tt_action ev) (tt_settings ev)) w ip Hs Hip)
      as (Hs' & d & Ht & Hd).
    rewrite (emitted_app _ _ _ Ht). split; [exact Hs' |].
    destruct Hd as [-> | ->]; on_fresh.
  - destruct (active w) eqn:Hact; [| done].
    destruct (currentAction w) as [a|] eqn:Ha; [| done].
    destruct (currentSettings w) as [st|] eqn:Hst; [| done].
    destruct (pollWithDelay_reconnects w a st ip Hact Ha Hst Hip Hs) as (Hs' & Ht & _).
    rewrite (emitted_app _ _ _ Ht). split; [exact Hs' |]. on_fresh.
Qed.

(** What a rejected promise leaves in [this.sonos]. *)
Lemma failure_sonos e id w w1 :
  e = ERead id None ∨ e = EWrite id false →
  handle e w = Some w1 →
  sonos w1 = None
  ∨ ∃ ip, sonos w1 = Some (fresh ip w) ∧ NewSonos (fresh ip w) ∈ emitted w w1.
Proof.
  intros [-> | ->]; cbn [handle].
  - unfold settleRead. destruct (awaits w !! id) as [[k|k]|]; try done.
    intros [= <-]. left. destruct k; cbn [resumeRead].
    + change (pollResume None (settled id w))
        with (pollFinally (set_sonos None (settled id w))).
      by destruct (pollFinally_cache (set_sonos None (settled id w))) as (_ & _ & -> & _).
    + reflexivity.
    + reflexivity.
  - unfold settleWrite. destruct (awaits w !! id) as [[k|k]|]; try done.
    intros [= <-].
    assert (Hvol : ∀ a,
      let w1 := volumeFinally a (volumeCatch a (settled id w)) in
      sonos w1 = None
      ∨ ∃ ip, sonos w1 = Some (fresh ip w) ∧ NewSonos (fresh ip w) ∈ emitted w w1).
    { intros a. cbv zeta. unfold volumeFinally.
      set (w0 := set_isRotating false (volumeCatch a (settled id w))).
      assert (Ht0 : trace w0 = trace w ++ [ShowAlert a "Failed to update volume"])
        by reflexivity.
      destruct (startPolling_pollStart a w0)
        as [(Ht & Hs2) | [(s & Hs0 & _) | (ip & _ & Hs2 & Ht)]].
      - left. by rewrite Hs2.
      - done.
      - right. exists ip. split; [exact Hs2 |].
        rewrite Ht0, <- app_assoc in Ht. rewrite (emitted_app _ _ _ Ht).
        change (fresh ip w0) with (fresh ip w).
        apply list_elem_of_In. cbn. auto. }
    destruct k; cbn [resumeWrite unmuteResume setVolumeResume toggleResume].
    + apply Hvol.
    + apply Hvol.
    + by left.
Qed.

(** C5. When a network promise of the instance rejects (the write of a
    rotation or of a mute toggle, or the reads of a poll or of a first
    connection), the client object it was using is gone from [this.sonos]:
    the field is empty, or already holds a client built after the failure by
    the poll that the rotation's [finally] block restarts.  And whenever
    the field is empty, the next operation of either path (debounced write,
    press, tap, poll) with a configured address builds a new client for that
    address and sends every call of the operation to it. *)
Theorem failure_forces_reconnect (w w1 : World) (id : nat) (e : Event) :
  reachable w →
  e = ERead id None ∨ e = EWrite id false →
  handle e w = Some w1 →
  (∀ s, sonos w = Some s → sonos w1 ≠ Some s)
  ∧ (sonos w1 = None
     ∨ ∃ ip, sonos w1 = Some (fresh ip w) ∧ NewSonos (fresh ip w) ∈ emitted w w1)
  ∧ ∀ op w2 ip,
      sonos w2 = None → address op w2 = Some ip →
      sonos (perform op w2) = Some (fresh ip w2)
      ∧ NewSonos (fresh ip w2) ∈ emitted w2 (perform op w2)
      ∧ onlyOn (fresh ip w2) (emitted w2 (perform op w2)).
Proof.
  intros Hr He Hh.
  pose proof (failure_sonos e id w w1 He Hh) as Hf.
  split; [| split; [exact Hf | apply perform_reconnects]].
  intros s Hs Hs1.
  pose proof (reachable_conn_ok w Hr s Hs) as Hlt.
  destruct Hf as [Hn | (ip & Hn & _)]; rewrite Hn in Hs1; [done |].
  injection Hs1 as <-. unfold fresh in Hlt. cbn [conn] in Hlt. lia.
Qed.

Lemma failure_forces_reconnect_witness :
  let w1 := default initial (handle (EWrite 2 false) writingWorld) in
  (∀ s, sonos writingWorld = Some s → sonos w1 ≠ Some s)
  ∧ (sonos w1 = None
     ∨ ∃ ip, sonos w1 = Some (fresh ip writingWorld)
             ∧ NewSonos (fresh ip writingWorld) ∈ emitted writingWorld w1)
  ∧ ∀ op w2 ip,
      sonos w2 = None → address op w2 = Some ip →
      sonos (perform op w2) = Some (fresh ip w2)
      ∧ NewSonos (fresh ip w2) ∈ emitted w2 (perform op w2)
      ∧ onlyOn (fresh ip w2) (emitted w2 (perform op w2)).
Proof.
  apply (failure_forces_reconnect writingWorld
           (default initial (handle (EWrite 2 false) writingWorld)) 2 (EWrite 2 false)).
  - apply (reachable_run
             [EWillAppear (mkAppearEvent 7 true lounge);
              ERead 0 (Some (50, false));
              ERead 1 (Some (50, false));
              EDialRotate (mkRotateEvent 7 lounge 2);
              ETimer 1] initial);
      [apply reachable_initial | vm_compute; reflexivity].
  - right. reflexivity.
  - vm_compute. reflexivity.
Defined.

(** A rejected volume write with polling active: alert, empty field; the
    next press builds client 1 and mutes through it. *)
Example failed_write_then_press :
  ∃ w', run [EWrite 2 false; EDialUp (mkDialUpEvent 7 lounge)] writingWorld = Some w'
    ∧ emitted writingWorld w'
      = [ShowAlert 7 "Failed to update volume";
         SetFeedback 7 60 Half;
         NewSonos (mkSonos "192.168.1.20" 1);
         SetMuted (mkSonos "192.168.1.20" 1) true]
    ∧ sonos w' = Some (mkSonos "192.168.1.20" 1).
Proof. eexists. vm_compute. repeat split; reflexivity. Qed.

(** A rejected volume write while polling never started: the [finally]
    block starts the poller, which at once builds client 2. *)
Example failed_write_restarts_poll :
  ∃ w', run [EWillAppear (mkAppearEvent 7 true lounge); ERead 0 None;
             EDialRotate (mkRotateEvent 7 lounge 2); ETimer 0; EWrite 1 false] initial
        = Some w'
    ∧ trace w'
      = [SetFeedback 7 50 Full;
         NewSonos (mkSonos "192.168.1.20" 0);
         GetVolume (mkSonos "192.168.1.20" 0); GetMuted (mkSonos "192.168.1.20" 0);
         ShowAlert 7 "Failed to connect to speaker";
         SetSettings 7 (mkSettings (Some "192.168.1.20") (Some 50) (Some 5));
         SetFeedback 7 60 Full;
         SetSettings 7 (mkSettings (Some "192.168.1.20") (Some 60) (Some 5));
         NewSonos (mkSonos "192.168.1.20" 1);
         SetVolume (mkSonos "192.168.1.20" 1) 60;
         ShowAlert 7 "Failed to update volume";
         NewSonos (mkSonos "192.168.1.20" 2);
         GetVolume (mkSonos "192.168.1.20" 2); GetMuted (mkSonos "192.168.1.20" 2)]
    ∧ sonos w' = Some (mkSonos "192.168.1.20" 2).
Proof. eexists. vm_compute. repeat split; reflexivity. Qed.

(** ** The debounced write *)

Lemma volumesSent_refl w : volumesSent w w [].
Proof. exists []. by rewrite app_nil_r. Qed.

Lemma volumesSent_trans w1 w2 w3 vs1 vs2 :
  volumesSent w1 w2 vs1 → volumesSent w2 w3 vs2 → volumesSent w1 w3 (vs1 ++ vs2).
Proof.
  intros (d1 & H1 & Hd1) (d2 & H2 & Hd2). exists (d1 ++ d2).
  split; [by rewrite H2, H1, app_assoc |].
  unfold setVolumeCalls in *. by rewrite omap_app, Hd1, Hd2.
Qed.

Lemma volumesSent_emitted w w' vs :
  volumesSent w w' vs → setVolumeCalls (emitted w w') = vs.
Proof. intros (d & Ht & Hd). by rewrite (emitted_app _ _ _ Ht). Qed.

Lemma onDialRotate_sends_nothing ev w : volumesSent w (onDialRotate ev w) [].
Proof.
  unfold onDialRotate, volumesSent.
  repeat case_match; wsimpl; rewrite <- ?app_assoc; eexists; split; done.
Qed.

Lemma rotateBurst_sends_nothing evs w : volumesSent w (rotateBurst evs w) [].
Proof.
  induction evs as [| ev evs IH] using rev_ind; [apply volumesSent_refl |].
  rewrite rotateBurst_snoc.
  apply (volumesSent_trans _ _ _ [] [] IH), onDialRotate_sends_nothing.
Qed.

Lemma pollStart_sends_nothing w w' : pollStart w w' → volumesSent w w' [].
Proof.
  intros [(Ht & _) | [(s & _ & _ & Ht) | (ip & _ & _ & Ht)]].
  - exists []. by rewrite app_nil_r.
  - by eexists.
  - by eexists.
Qed.

(** What a rotation with a configured address leaves behind. *)
Lemma onDialRotate_arms ev w ip :
  truthy (speakerIp (re_settings ev)) = Some ip →
  let w1 := onDialRotate ev w in
  volumeChangeTimeout w1 = Some (nextTimer w)
  ∧ timers w1 !! nextTimer w
    = Some (mkTimer VOLUME_CHANGE_DEBOUNCE_MS (VolumeChange (re_action ev) ip (newValue ev w)))
  ∧ isMuted w1 = isMuted w
  ∧ sonos w1 = sonos w
  ∧ nextAwait w1 = nextAwait w
  ∧ nextConn w1 = nextConn w
  ∧ isRotating w1 = true.
Proof.
  intros Hip. cbv zeta. unfold onDialRotate. rewrite Hip.
  case_match; wsimpl; by rewrite lookup_insert_eq.
Qed.

(** The debounced closure on a muted instance: only the unmute is sent. *)
Lemma volumeTimer_muted a ip nv w :
  isMuted w = true →
  let w2 := volumeTimer a ip nv w in
  ∃ s, sonos w2 = Some s
    ∧ (sonos w = Some s ∧ trace w2 = trace w ++ [SetMuted s false]
       ∨ sonos w = None ∧ s = fresh ip w
         ∧ trace w2 = trace w ++ [NewSonos s; SetMuted s false])
    ∧ isMuted w2 = true
    ∧ awaits w2 !! nextAwait w = Some (AwaitWrite (KUnmute a nv))
    ∧ nextAwait w2 = S (nextAwait w).
Proof.
  intros Hm. cbv zeta. unfold volumeTimer.
  destruct (sonos w) as [s|] eqn:Hs.
  - rewrite Hm, Hs. exists s. wsimpl. rewrite lookup_insert_eq. by repeat split; auto.
  - wsimpl. rewrite Hm. exists (fresh ip w). wsimpl. rewrite lookup_insert_eq.
    rewrite <- !app_assoc. by repeat split; auto.
Qed.

(** The debounced closure on an unmuted instance: the volume is sent. *)
Lemma volumeTimer_unmuted a ip nv w :
  isMuted w = false →
  let w2 := volumeTimer a ip nv w in
  ∃ s, sonos w2 = Some s
    ∧ (sonos w = Some s ∧ trace w2 = trace w ++ [SetVolume s nv]
       ∨ sonos w = None ∧ s = fresh ip w
         ∧ trace w2 = trace w ++ [NewSonos s; SetVolume s nv])
    ∧ awaits w2 !! nextAwait w = Some (AwaitWrite (KSetVolume a)).
Proof.
  intros Hm. cbv zeta. unfold volumeTimer, sendVolume.
  destruct (sonos w) as [s|] eqn:Hs.
  - rewrite Hm, Hs. exists s. wsimpl. rewrite lookup_insert_eq. by repeat split; auto.
  - wsimpl. rewrite Hm. exists (fresh ip w). wsimpl. rewrite lookup_insert_eq.
    rewrite <- !app_assoc. by repeat split; auto.
Qed.

(** The unmute resolved: the flag is cleared and the volume goes out. *)
Lemma unmuteResume_ok a nv w s :
  sonos w = Some s →
  let w3 := unmuteResume a nv true w in
  trace w3 = trace w ++ [SetVolume s nv]
  ∧ isMuted w3 = false
  ∧ awaits w3 !! nextAwait w = Some (AwaitWrite (KSetVolume a)).
Proof.
  intros Hs. cbv zeta. unfold unmuteResume, sendVolume. wsimpl. rewrite Hs. wsimpl.
  by rewrite lookup_insert_eq.
Qed.

(** The [catch] and [finally] blocks send no volume and keep the flag. *)
Lemma volumeFailure_quiet a w :
  let w3 := volumeFinally a (volumeCatch a w) in
  setVolumeCalls (emitted w w3) = []
  ∧ alerts (emitted w w3) = ["Failed to update volume"]
  ∧ isMuted w3 = isMuted w.
Proof.
  cbv zeta. unfold volumeFinally.
  set (w0 := set_isRotating false (volumeCatch a w)).
  assert (Ht0 : trace w0 = trace w ++ [ShowAlert a "Failed to update volume"])
    by reflexivity.
  destruct (startPolling_cache a w0) as (Hm & _). rewrite Hm.
  split; [| split; [| reflexivity]].
  - destruct (startPolling_pollStart a w0)
      as [(Ht & _) | [(s & _ & _ & Ht) | (ip & _ & _ & Ht)]];
      rewrite Ht0, <- ?app_assoc in Ht;
      by rewrite (emitted_app _ _ _ Ht).
  - destruct (startPolling_pollStart a w0)
      as [(Ht & _) | [(s & _ & _ & Ht) | (ip & _ & _ & Ht)]];
      rewrite Ht0, <- ?app_assoc in Ht;
      by rewrite (emitted_app _ _ _ Ht).
Qed.

Lemma volumeFinally_sends_nothing a w : volumesSent w (volumeFinally a w) [].
Proof.
  unfold volumeFinally.
  apply (pollStart_sends_nothing (set_isRotating false w)), startPolling_pollStart.
Qed.

Lemma setVolumeResume_sends_nothing a ok w : volumesSent w (setVolumeResume a ok w) [].
Proof.
  unfold setVolumeResume. destruct ok; [apply volumeFinally_sends_nothing |].
  apply (volumesSent_trans w (volumeCatch a w) _ [] []);
    [by eexists | apply volumeFinally_sends_nothing].
Qed.

Lemma unmuteResume_fail_sends_nothing a nv w : volumesSent w (unmuteResume a nv false w) [].
Proof. apply (setVolumeResume_sends_nothing a false w). Qed.

Lemma run_cons e es w w1 : handle e w = Some w1 → run (e :: es) w = run es w1.
Proof. intros H. cbn [run]. by rewrite H. Qed.

(** ** Later states of the run time *)

Lemma later_refl w : later w w.
Proof.
  unfold later. split; [lia |]. split; [lia |].
  split; [auto |]. split; [auto |]. exists []. by rewrite app_nil_r.
Qed.

(** Closes a goal [later w0 w'] where [w'] is one run-time primitive applied
    to a world known to be later than [w0]. *)
Ltac later_tac :=
  unfold later in *; wsimpl;
  let Hnt := fresh "Hnt" in
  let Hna := fresh "Hna" in
  let Ht := fresh "Ht" in
  let Ha := fresh "Ha" in
  let d := fresh "d" in
  let Hd := fresh "Hd" in
  intros (Hnt & Hna & Ht & Ha & d & Hd);
  split; [lia |]; split; [lia |]; split; [| split];
  [ let Hl := fresh "Hl" in
    intros ?id ?t ?Hlt Hl;
    try (apply lookup_insert_Some in Hl as [[? ?] | [? Hl]]; [lia |]);
    try (apply lookup_delete_Some in Hl as [? Hl]);
    by apply Ht
  | let Hl := fresh "Hl" in
    intros ?k ?p ?Hlt Hl;
    try (apply lookup_insert_Some in Hl as [[? ?] | [? Hl]]; [lia |]);
    try (apply lookup_delete_Some in Hl as [? Hl]);
    by apply Ha
  | rewrite Hd, <- ?app_assoc; by eexists ].

Create HintDb laters.

Lemma later_emit e w0 w : later w0 w → later w0 (emit e w).
Proof. later_tac. Qed.
Lemma later_setTimeout cb ms w0 w : later w0 w → later w0 (setTimeout cb ms w).
Proof. later_tac. Qed.
Lemma later_clearTimeout id w0 w : later w0 w → later w0 (clearTimeout id w).
Proof. later_tac. Qed.
Lemma later_await p w0 w : later w0 w → later w0 (await p w).
Proof. later_tac. Qed.
Lemma later_settled id w0 w : later w0 w → later w0 (settled id w).
Proof. later_tac. Qed.
Lemma later_connect ip w0 w : later w0 w → later w0 (connect ip w).
Proof. later_tac. Qed.
Lemma later_set_sonos x w0 w : later w0 w → later w0 (set_sonos x w).
Proof. later_tac. Qed.
Lemma later_set_lastKnownVolume x w0 w : later w0 w → later w0 (set_lastKnownVolume x w).
Proof. later_tac. Qed.
Lemma later_set_isMuted x w0 w : later w0 w → later w0 (set_isMuted x w).
Proof. later_tac. Qed.
Lemma later_set_pollInterval x w0 w : later w0 w → later w0 (set_pollInterval x w).
Proof. later_tac. Qed.
Lemma later_set_pollTimeoutId x w0 w : later w0 w → later w0 (set_pollTimeoutId x w).
Proof. later_tac. Qed.
Lemma later_set_currentAction x w0 w : later w0 w → later w0 (set_currentAction x w).
Proof. later_tac. Qed.
Lemma later_set_currentSettings x w0 w : later w0 w → later w0 (set_currentSettings x w).
Proof. later_tac. Qed.
Lemma later_set_volumeChangeTimeout x w0 w :
  later w0 w → later w0 (set_volumeChangeTimeout x w).
Proof. later_tac. Qed.
Lemma later_set_isRotating x w0 w : later w0 w → later w0 (set_isRotating x w).
Proof. later_tac. Qed.
Lemma later_setFeedback a v m w0 w : later w0 w → later w0 (setFeedback a v m w).
Proof. later_tac. Qed.
Lemma later_setSettings a st w0 w : later w0 w → later w0 (setSettings a st w).
Proof. later_tac. Qed.
Lemma later_showAlert a msg w0 w : later w0 w → later w0 (showAlert a msg w).
Proof. later_tac. Qed.
Lemma later_readBoth s k w0 w : later w0 w → later w0 (readBoth s k w).
Proof. later_tac. Qed.

#[local] Hint Resolve later_emit later_setTimeout later_clearTimeout later_await
  later_settled later_connect later_set_sonos later_set_lastKnownVolume later_set_isMuted
  later_set_pollInterval later_set_pollTimeoutId later_set_currentAction
  later_set_currentSettings later_set_volumeChangeTimeout later_set_isRotating
  later_setFeedback later_setSettings later_showAlert later_readBoth : laters.

Lemma later_stopPolling w0 w : later w0 w → later w0 (stopPolling w).
Proof. unfold stopPolling. intros H. repeat case_match; auto 8 with laters. Qed.

Lemma later_pollFinally w0 w : later w0 w → later w0 (pollFinally w).
Proof. unfold pollFinally. intros H. repeat case_match; auto 8 with laters. Qed.

#[local] Hint Resolve later_stopPolling later_pollFinally : laters.

Lemma later_pollWithDelay w0 w : later w0 w → later w0 (pollWithDelay w).
Proof. unfold pollWithDelay. intros H. repeat case_match; auto 8 with laters. Qed.

Lemma later_pollResume r w0 w : later w0 w → later w0 (pollResume r w).
Proof.
  unfold pollResume. intros H. apply later_pollFinally.
  repeat case_match; auto 8 with laters.
Qed.

#[local] Hint Resolve later_pollWithDelay later_pollResume : laters.

Lemma later_pollTimer w0 w : later w0 w → later w0 (pollTimer w).
Proof. unfold pollTimer. intros H. repeat case_match; auto 8 with laters. Qed.

Lemma later_startPolling a w0 w : later w0 w → later w0 (startPolling a w).
Proof. unfold startPolling. intros H. repeat case_match; auto 10 with laters. Qed.

#[local] Hint Resolve later_pollTimer later_startPolling : laters.

Lemma later_onWillDisappear w0 w : later w0 w → later w0 (onWillDisappear w).
Proof. unfold onWillDisappear. intros H. repeat case_match; auto 8 with laters. Qed.

Lemma later_onWillAppear ev w0 w : later w0 w → later w0 (onWillAppear ev w).
Proof. unfold onWillAppear. intros H. repeat case_match; auto 8 with laters. Qed.

Lemma later_appearResume a ip step v r w0 w :
  later w0 w → later w0 (appearResume a ip step v r w).
Proof. unfold appearResume. intros H. repeat case_match; auto 8 with laters. Qed.

Lemma later_onDialRotate ev w0 w : later w0 w → later w0 (onDialRotate ev w).
Proof. unfold onDialRotate. intros H. repeat case_match; auto 12 with laters. Qed.

Lemma later_volumeCatch a w0 w : later w0 w → later w0 (volumeCatch a w).
Proof. unfold volumeCatch. auto with laters. Qed.

Lemma later_volumeFinally a w0 w : later w0 w → later w0 (volumeFinally a w).
Proof. unfold volumeFinally. auto with laters. Qed.

#[local] Hint Resolve later_volumeCatch later_volumeFinally : laters.

Lemma later_sendVolume a nv w0 w : later w0 w → later w0 (sendVolume a nv w).
Proof. unfold sendVolume. intros H. repeat case_match; auto with laters. Qed.

#[local] Hint Resolve later_sendVolume : laters.

Lemma later_volumeTimer a ip nv w0 w : later w0 w → later w0 (volumeTimer a ip nv w).
Proof. unfold volumeTimer. intros H. repeat case_match; auto 7 with laters. Qed.

Lemma later_unmuteResume a nv ok w0 w : later w0 w → later w0 (unmuteResume a nv ok w).
Proof. unfold unmuteResume. intros H. repeat case_match; auto with laters. Qed.

Lemma later_setVolumeResume a ok w0 w : later w0 w → later w0 (setVolumeResume a ok w).
Proof. unfold setVolumeResume. intros H. repeat case_match; auto with laters. Qed.

Lemma later_onDialUp ev w0 w : later w0 w → later w0 (onDialUp ev w).
Proof. unfold onDialUp. intros H. repeat case_match; auto 9 with laters. Qed.

Lemma later_onTouchTap ev w0 w : later w0 w → later w0 (onTouchTap ev w).
Proof. unfold onTouchTap. intros H. repeat case_match; auto 9 with laters. Qed.

Lemma later_toggleResume a ok w0 w : later w0 w → later w0 (toggleResume a ok w).
Proof. unfold toggleResume. intros H. repeat case_match; auto with laters. Qed.

Lemma later_onDidReceiveSettings ev w0 w :
  later w0 w → later w0 (onDidReceiveSettings ev w).
Proof.
  rewrite onDidReceiveSettings_stores_only. intros H. case_match; auto with laters.
Qed.

Lemma later_settingsResume a st r w0 w :
  later w0 w → later w0 (settingsResume a st r w).
Proof. unfold settingsResume. intros H. repeat case_match; auto 8 with laters. Qed.

Lemma later_handle e w0 w w' : later w0 w → handle e w = Some w' → later w0 w'.
Proof.
  intros H. destruct e; cbn [handle].
  - intros [= <-]. by apply later_onWillAppear.
  - intros [= <-]. by apply later_onWillDisappear.
  - intros [= <-]. by apply later_onDialRotate.
  - intros [= <-]. by apply later_onDialUp.
  - intros [= <-]. by apply later_onTouchTap.
  - intros [= <-]. by apply later_onDidReceiveSettings.
  - unfold fireTimer. destruct (timers w !! id) as [t|]; [| done]. intros [= <-].
    destruct (callback t); cbn [runCallback];
      auto using later_pollTimer, later_volumeTimer, later_clearTimeout.
  - unfold settleRead. repeat case_match; try done. intros [= <-].
    destruct k; cbn [resumeRead];
      auto using later_pollResume, later_appearResume, later_settingsResume, later_settled.
  - unfold settleWrite. repeat case_match; try done. intros [= <-].
    destruct k; cbn [resumeWrite];
      auto using later_unmuteResume, later_setVolumeResume, later_toggleResume, later_settled.
Qed.

Lemma later_run es w w' : run es w = Some w' → later w w'.
Proof.
  assert (H : ∀ w0 w, later w0 w → run es w = Some w' → later w0 w').
  { induction es as [| e es IH]; intros w0 w1 Hl; cbn [run].
    - by intros [= <-].
    - destruct (handle e w1) as [w2|] eqn:He; [| done].
      apply IH. by eapply later_handle. }
  apply H, later_refl.
Qed.

(** A timer handed out by [w] and still pending later is unchanged. *)
Lemma later_timer w w' id t t' :
  later w w' → timers w !! id = Some t → timers w' !! id = Some t' →
  (id < nextTimer w)%nat → t' = t.
Proof.
  intros (_ & _ & Ht & _) H H' Hlt. apply Ht in H'; [| exact Hlt]. congruence.
Qed.

(** So is a promise. *)
Lemma later_promise w w' k p p' :
  later w w' → awaits w !! k = Some p → awaits w' !! k = Some p' →
  (k < nextAwait w)%nat → p' = p.
Proof.
  intros (_ & _ & _ & Ha & _) H H' Hlt. apply Ha in H'; [| exact Hlt]. congruence.
Qed.

(** A handle that is no longer pending never becomes pending again. *)
Lemma later_gone w w' id :
  later w w' → timers w !! id = None → (id < nextTimer w)%nat → timers w' !! id = None.
Proof.
  intros (_ & _ & Ht & _) H Hlt. apply eq_None_not_Some. intros [t H'].
  apply Ht in H'; [| exact Hlt]. congruence.
Qed.

(** ** Within one debounce window *)

Lemma within_refl w : within w w.
Proof.
  split; [| auto]. exists []. split; [by rewrite app_nil_r |].
  intros v Hv. by apply elem_of_nil in Hv.
Qed.

Lemma within_frame w0 w w' :
  awaits w' = awaits w → trace w' = trace w → within w0 w → within w0 w'.
Proof. unfold within, unmuting. intros -> ->. done. Qed.

Lemma within_effect e w0 w :
  setVolumeCalls [e] = [] → within w0 w → within w0 (emit e w).
Proof.
  intros He ((d & Hd & Hv) & Hu). split; [| exact Hu].
  exists (d ++ [e]). wsimpl. split; [by rewrite Hd, app_assoc |].
  intros v. unfold setVolumeCalls in *. rewrite omap_app, He, app_nil_r. apply Hv.
Qed.

Lemma within_suspend p w0 w :
  (∀ a v, p ≠ AwaitWrite (KUnmute a v)) → within w0 w → within w0 (await p w).
Proof.
  intros Hp (Hd & Hu). split; [exact Hd |].
  intros v (k & a & Hk). apply Hu. wsimpl.
  apply lookup_insert_Some in Hk as [[_ Hk] | [_ Hk]]; [by destruct (Hp a v) |].
  by exists k, a.
Qed.

Lemma within_settled id w0 w : within w0 w → within w0 (settled id w).
Proof.
  intros (Hd & Hu). split; [exact Hd |].
  intros v (k & a & Hk). apply Hu. wsimpl.
  apply lookup_delete_Some in Hk as [_ Hk]. by exists k, a.
Qed.

Create HintDb windows.

Lemma within_setTimeout cb ms w0 w : within w0 w → within w0 (setTimeout cb ms w).
Proof. by apply within_frame. Qed.
Lemma within_clearTimeout id w0 w : within w0 w → within w0 (clearTimeout id w).
Proof. by apply within_frame. Qed.
Lemma within_set_sonos x w0 w : within w0 w → within w0 (set_sonos x w).
Proof. by apply within_frame. Qed.
Lemma within_set_lastKnownVolume x w0 w : within w0 w → within w0 (set_lastKnownVolume x w).
Proof. by apply within_frame. Qed.
Lemma within_set_isMuted x w0 w : within w0 w → within w0 (set_isMuted x w).
Proof. by apply within_frame. Qed.
Lemma within_set_pollInterval x w0 w : within w0 w → within w0 (set_pollInterval x w).
Proof. by apply within_frame. Qed.
Lemma within_set_pollTimeoutId x w0 w : within w0 w → within w0 (set_pollTimeoutId x w).
Proof. by apply within_frame. Qed.
Lemma within_set_currentAction x w0 w : within w0 w → within w0 (set_currentAction x w).
Proof. by apply within_frame. Qed.
Lemma within_set_currentSettings x w0 w : within w0 w → within w0 (set_currentSettings x w).
Proof. by apply within_frame. Qed.
Lemma within_set_volumeChangeTimeout x w0 w :
  within w0 w → within w0 (set_volumeChangeTimeout x w).
Proof. by apply within_frame. Qed.
Lemma within_set_isRotating x w0 w : within w0 w → within w0 (set_isRotating x w).
Proof. by apply within_frame. Qed.
Lemma within_setFeedback a v m w0 w : within w0 w → within w0 (setFeedback a v m w).
Proof. by apply within_effect. Qed.
Lemma within_setSettings a st w0 w : within w0 w → within w0 (setSettings a st w).
Proof. by apply within_effect. Qed.
Lemma within_showAlert a msg w0 w : within w0 w → within w0 (showAlert a msg w).
Proof. by apply within_effect. Qed.
Lemma within_setMuted s m w0 w : within w0 w → within w0 (emit (SetMuted s m) w).
Proof. by apply within_effect. Qed.
Lemma within_connect ip w0 w : within w0 w → within w0 (connect ip w).
Proof.
  intros H. unfold connect. apply within_effect; [done |]. revert H. by apply within_frame.
Qed.
Lemma within_readBoth s k w0 w : within w0 w → within w0 (readBoth s k w).
Proof.
  intros H. unfold readBoth. apply within_suspend; [done |].
  by do 2 (apply within_effect; [done |]).
Qed.
Lemma within_await_setVolume a w0 w :
  within w0 w → within w0 (await (AwaitWrite (KSetVolume a)) w).
Proof. by apply within_suspend. Qed.
Lemma within_await_toggle a w0 w :
  within w0 w → within w0 (await (AwaitWrite (KToggle a)) w).
Proof. by apply within_suspend. Qed.

#[local] Hint Resolve within_settled within_setTimeout within_clearTimeout within_set_sonos
  within_set_lastKnownVolume within_set_isMuted within_set_pollInterval
  within_set_pollTimeoutId within_set_currentAction within_set_currentSettings
  within_set_volumeChangeTimeout within_set_isRotating within_setFeedback
  within_setSettings within_showAlert within_setMuted within_connect within_readBoth
  within_await_setVolume within_await_toggle : windows.

Lemma within_stopPolling w0 w : within w0 w → within w0 (stopPolling w).
Proof. unfold stopPolling. intros H. repeat case_match; auto 8 with windows. Qed.

Lemma within_pollFinally w0 w : within w0 w → within w0 (pollFinally w).
Proof. unfold pollFinally. intros H. repeat case_match; auto 8 with windows. Qed.

#[local] Hint Resolve within_stopPolling within_pollFinally : windows.

Lemma within_pollWithDelay w0 w : within w0 w → within w0 (pollWithDelay w).
Proof. unfold pollWithDelay. intros H. repeat case_match; auto 8 with windows. Qed.

Lemma within_pollResume r w0 w : within w0 w → within w0 (pollResume r w).
Proof.
  unfold pollResume. intros H. apply within_pollFinally.
  repeat case_match; auto 8 with windows.
Qed.

#[local] Hint Resolve within_pollWithDelay within_pollResume : windows.

Lemma within_pollTimer w0 w : within w0 w → within w0 (pollTimer w).
Proof. unfold pollTimer. intros H. repeat case_match; auto 8 with windows. Qed.

Lemma within_startPolling a w0 w : within w0 w → within w0 (startPolling a w).
Proof. unfold startPolling. intros H. repeat case_match; auto 10 with windows. Qed.

#[local] Hint Resolve within_pollTimer within_startPolling : windows.

Lemma within_onWillDisappear w0 w : within w0 w → within w0 (onWillDisappear w).
Proof. unfold onWillDisappear. intros H. repeat case_match; auto 8 with windows. Qed.

Lemma within_onWillAppear ev w0 w : within w0 w → within w0 (onWillAppear ev w).
Proof. unfold onWillAppear. intros H. repeat case_match; auto 8 with windows. Qed.

Lemma within_appearResume a ip step v r w0 w :
  within w0 w → within w0 (appearResume a ip step v r w).
Proof. unfold appearResume. intros H. repeat case_match; auto 8 with windows. Qed.

(** A rotation event only arms a timer. *)
Lemma within_onDialRotate ev w0 w : within w0 w → within w0 (onDialRotate ev w).
Proof. unfold onDialRotate. intros H. repeat case_match; auto 12 with windows. Qed.

Lemma within_volumeCatch a w0 w : within w0 w → within w0 (volumeCatch a w).
Proof. unfold volumeCatch. auto with windows. Qed.

Lemma within_volumeFinally a w0 w : within w0 w → within w0 (volumeFinally a w).
Proof. unfold volumeFinally. auto with windows. Qed.

#[local] Hint Resolve within_volumeCatch within_volumeFinally : windows.

Lemma within_setVolumeResume a ok w0 w : within w0 w → within w0 (setVolumeResume a ok w).
Proof. unfold setVolumeResume. intros H. repeat case_match; auto with windows. Qed.

Lemma within_onDialUp ev w0 w : within w0 w → within w0 (onDialUp ev w).
Proof. unfold onDialUp. intros H. repeat case_match; auto 9 with windows. Qed.

Lemma within_onTouchTap ev w0 w : within w0 w → within w0 (onTouchTap ev w).
Proof. unfold onTouchTap. intros H. repeat case_match; auto 9 with windows. Qed.

Lemma within_toggleResume a ok w0 w : within w0 w → within w0 (toggleResume a ok w).
Proof. unfold toggleResume. intros H. repeat case_match; auto with windows. Qed.

Lemma within_onDidReceiveSettings ev w0 w :
  within w0 w → within w0 (onDidReceiveSettings ev w).
Proof.
  rewrite onDidReceiveSettings_stores_only. intros H. case_match; auto with windows.
Qed.

Lemma within_settingsResume a st r w0 w :
  within w0 w → within w0 (settingsResume a st r w).
Proof. unfold settingsResume. intros H. repeat case_match; auto 8 with windows. Qed.

(** The [setVolume] of a write that was suspended on its unmute when the
    window began. *)
Lemma within_sendVolume a nv w0 w :
  unmuting w0 nv → within w0 w → within w0 (sendVolume a nv w).
Proof.
  intros Hnv H. unfold sendVolume. destruct (sonos w) as [s|]; [| auto with windows].
  apply within_await_setVolume.
  destruct H as ((d & Hd & Hv) & Hu). split; [| exact Hu].
  exists (d ++ [SetVolume s nv]). wsimpl. split; [by rewrite Hd, app_assoc |].
  intros v. unfold setVolumeCalls in *. rewrite omap_app.
  change (omap _ [SetVolume s nv]) with [nv].
  rewrite elem_of_app, list_elem_of_singleton. intros [Hin | ->]; auto.
Qed.

Lemma within_unmuteResume a nv ok w0 w :
  unmuting w0 nv → within w0 w → within w0 (unmuteResume a nv ok w).
Proof.
  intros Hnv H. unfold unmuteResume. destruct ok; [| auto with windows].
  apply within_sendVolume; auto with windows.
Qed.

(** One turn of the event loop that is not the expiry of a debounce timer. *)
Lemma within_handle e w0 w w' :
  debounceExpiry e w = false → handle e w = Some w' → within w0 w → within w0 w'.
Proof.
  intros Hq Hh H. destruct e; cbn [handle] in Hh.
  - injection Hh as <-. by apply within_onWillAppear.
  - injection Hh as <-. by apply within_onWillDisappear.
  - injection Hh as <-. by apply within_onDialRotate.
  - injection Hh as <-. by apply within_onDialUp.
  - injection Hh as <-. by apply within_onTouchTap.
  - injection Hh as <-. by apply within_onDidReceiveSettings.
  - unfold fireTimer in Hh. cbn [debounceExpiry] in Hq.
    destruct (timers w !! id) as [t|]; [| done]. injection Hh as <-.
    destruct (callback t); [| done]. cbn [runCallback].
    auto using within_pollTimer, within_clearTimeout.
  - unfold settleRead in Hh. destruct (awaits w !! id) as [[k|k]|]; try done.
    injection Hh as <-.
    destruct k; cbn [resumeRead];
      auto using within_pollResume, within_appearResume, within_settingsResume,
        within_settled.
  - unfold settleWrite in Hh. destruct (awaits w !! id) as [[k|k]|] eqn:Hk; try done.
    injection Hh as <-.
    destruct k as [a nv | a | a]; cbn [resumeWrite];
      auto using within_setVolumeResume, within_toggleResume, within_settled.
    apply within_unmuteResume; [| by apply within_settled].
    destruct H as (_ & Hu). apply Hu. by exists id, a.
Qed.

Lemma window_run es w w' : window es w = Some w' → run es w = Some w'.
Proof.
  revert w. induction es as [| e es IH]; intros w; cbn [window run]; [done |].
  destruct (debounceExpiry e w); [done |].
  destruct (handle e w) as [w1|]; [apply IH | done].
Qed.

Lemma within_window es w w' : window es w = Some w' → within w w'.
Proof.
  assert (H : ∀ w0 w, within w0 w → window es w = Some w' → within w0 w').
  { induction es as [| e es IH]; intros w0 w1 Hw; cbn [window].
    - by intros [= <-].
    - destruct (debounceExpiry e w1) eqn:Hq; [done |].
      destruct (handle e w1) as [w2|] eqn:He; [| done].
      apply IH. by eapply within_handle. }
  apply H, within_refl.
Qed.

Lemma run_snoc es e w w' :
  run (es ++ [e]) w = Some w' → ∃ w0, run es w = Some w0 ∧ handle e w0 = Some w'.
Proof.
  revert w. induction es as [| e0 es IH]; intros w; cbn [app run].
  - destruct (handle e w) as [w1|] eqn:He; [| done]. intros [= <-]. by exists w.
  - destruct (handle e0 w) as [w1|]; [apply IH | done].
Qed.

(** ** The steps of a debounced write, in whatever state they happen *)

Lemma debounce_expiry a ip nv ms id w :
  timers w !! id = Some (mkTimer ms (VolumeChange a ip nv)) →
  handle (ETimer id) w = Some (volumeTimer a ip nv (clearTimeout id w)).
Proof. intros H. cbn [handle]. unfold fireTimer. by rewrite H. Qed.

Lemma unmute_settles a nv k ok w :
  awaits w !! k = Some (AwaitWrite (KUnmute a nv)) →
  handle (EWrite k ok) w = Some (unmuteResume a nv ok (settled k w)).
Proof. intros H. cbn [handle]. unfold settleWrite. by rewrite H. Qed.

Lemma volumeTimer_unmuted_next a ip nv w :
  isMuted w = false →
  nextAwait (volumeTimer a ip nv w) = S (nextAwait w)
  ∧ setMutedCalls (emitted w (volumeTimer a ip nv w)) = [].
Proof.
  intros Hm. unfold volumeTimer, sendVolume.
  destruct (sonos w) as [s|] eqn:Hs.
  - rewrite Hm, Hs. split; [reflexivity |].
    by rewrite (emitted_app _ _ [SetVolume s nv]).
  - wsimpl. rewrite Hm. wsimpl. split; [reflexivity |].
    rewrite (emitted_app _ _ [NewSonos (fresh ip w); SetVolume (fresh ip w) nv]); [done |].
    wsimpl. by rewrite <- app_assoc.
Qed.

(** The unmute resolved, but the client object is gone: the flag is
    cleared, the [TypeError] goes to the [catch] block. *)
Lemma unmuteResume_no_client a nv w :
  sonos w = None →
  let w3 := unmuteResume a nv true w in
  setVolumeCalls (emitted w w3) = []
  ∧ alerts (emitted w w3) = ["Failed to update volume"]
  ∧ isMuted w3 = false.
Proof.
  intros Hs. cbv zeta. unfold unmuteResume, sendVolume. wsimpl. rewrite Hs.
  apply (volumeFailure_quiet a (set_isMuted false w)).
Qed.

(** A pending volume write settles silently, whenever it does. *)
Lemma settlesSilently_pending a k w :
  awaits w !! k = Some (AwaitWrite (KSetVolume a)) → (k < nextAwait w)%nat →
  settlesSilently k w.
Proof.
  intros Hk Hlt es w' Hrun Hp ok.
  destruct (awaits w' !! k) as [p|] eqn:Hk'; [| done].
  assert (p = AwaitWrite (KSetVolume a)) as ->
    by (by eapply (later_promise w w'); [apply (later_run es) | | |]).
  cbn [handle]. unfold settleWrite. rewrite Hk'. cbn [resumeWrite].
  eexists. split; [reflexivity |].
  apply volumesSent_emitted, (setVolumeResume_sends_nothing a ok (settled k w')).
Qed.

(** The pending unmute of a debounced write, in whatever later state it
    settles. *)
Lemma unmute_outcome a nv k w2 es w'' :
  awaits w2 !! k = Some (AwaitWrite (KUnmute a nv)) → (k < nextAwait w2)%nat →
  run es w2 = Some w'' → awaits w'' !! k ≠ None →
  (∃ w3, handle (EWrite k true) w'' = Some w3
     ∧ isMuted w3 = false
     ∧ match sonos w'' with
       | Some s' =>
           trace w3 = trace w'' ++ [SetVolume s' nv]
           ∧ awaits w3 !! nextAwait w'' = Some (AwaitWrite (KSetVolume a))
           ∧ settlesSilently (nextAwait w'') w3
       | None =>
           setVolumeCalls (emitted w'' w3) = []
           ∧ alerts (emitted w'' w3) = ["Failed to update volume"]
       end)
  ∧ (∃ w3, handle (EWrite k false) w'' = Some w3
       ∧ setVolumeCalls (emitted w'' w3) = []
       ∧ alerts (emitted w'' w3) = ["Failed to update volume"]
       ∧ isMuted w3 = isMuted w'').
Proof.
  intros Hk Hlt Hrun Hp.
  destruct (awaits w'' !! k) as [p|] eqn:Hk'; [| done].
  assert (p = AwaitWrite (KUnmute a nv)) as ->
    by (by eapply (later_promise w2 w''); [apply (later_run es) | | |]).
  split.
  - eexists. split; [by apply unmute_settles |].
    destruct (sonos w'') as [s'|] eqn:Hs.
    + destruct (unmuteResume_ok a nv (settled k w'') s' Hs) as (Ht3 & Hm3 & Haw3).
      split; [exact Hm3 |]. split; [exact Ht3 |]. split; [exact Haw3 |].
      apply (settlesSilently_pending a); [exact Haw3 |].
      unfold unmuteResume, sendVolume. wsimpl. rewrite Hs. wsimpl. lia.
    + destruct (unmuteResume_no_client a nv (settled k w'') Hs) as (Hq & Hal & Hm3).
      split; [exact Hm3 |]. by split.
  - eexists. split; [by apply unmute_settles |].
    apply (volumeFailure_quiet a (settled k w'')).
Qed.

Lemma onDialRotate_quiet ev w :
  ∃ d, trace (onDialRotate ev w) = trace w ++ d
    ∧ setMutedCalls d = [] ∧ setVolumeCalls d = [].
Proof.
  unfold onDialRotate.
  repeat case_match; wsimpl; rewrite <- ?app_assoc; eexists; (split; [reflexivity | done]).
Qed.

Lemma onDialRotate_nextTimer ev w ip :
  truthy (speakerIp (re_settings ev)) = Some ip →
  nextTimer (onDialRotate ev w) = S (nextTimer w).
Proof. intros Hip. unfold onDialRotate. rewrite Hip. by case_match. Qed.

(** ** One write per window *)

Section Grows.

Variable PT : Callback → Prop.
Variable PA : Pending → Prop.
Variable PE : Effect → Prop.

Hypothesis HT_wake : PT PollWake.
Hypothesis HA_read : ∀ k, PA (AwaitRead k).
Hypothesis HA_toggle : ∀ a, PA (AwaitWrite (KToggle a)).
Hypothesis HA_setVolume : ∀ a, PA (AwaitWrite (KSetVolume a)).
Hypothesis HA_unmute : ∀ a v, PA (AwaitWrite (KUnmute a v)).
Hypothesis HE_newSonos : ∀ s, PE (NewSonos s).
Hypothesis HE_getVolume : ∀ s, PE (GetVolume s).
Hypothesis HE_getMuted : ∀ s, PE (GetMuted s).
Hypothesis HE_setMuted : ∀ s m, PE (SetMuted s m).
Hypothesis HE_setVolume : ∀ s v, PE (SetVolume s v).
Hypothesis HE_setFeedback : ∀ a v o, PE (SetFeedback a v o).
Hypothesis HE_setSettings : ∀ a st, PE (SetSettings a st).
Hypothesis HE_showAlert : ∀ a msg, PE (ShowAlert a msg).

Lemma grows_refl w : grows PT PA PE w w.
Proof.
  split; [auto |]. split; [auto |]. exists []. by rewrite app_nil_r.
Qed.

Lemma grows_frame w0 w w' :
  timers w' = timers w → awaits w' = awaits w → trace w' = trace w →
  grows PT PA PE w0 w → grows PT PA PE w0 w'.
Proof. unfold grows. intros -> -> ->. done. Qed.

Lemma grows_emit e w0 w : PE e → grows PT PA PE w0 w → grows PT PA PE w0 (emit e w).
Proof.
  intros He (Ht & Ha & d & Hd & Hf). split; [exact Ht |]. split; [exact Ha |].
  exists (d ++ [e]). wsimpl. split; [by rewrite Hd, app_assoc |].
  apply Forall_app. split; [exact Hf | by apply Forall_singleton].
Qed.

Lemma grows_setTimeout cb ms w0 w :
  PT cb → grows PT PA PE w0 w → grows PT PA PE w0 (setTimeout cb ms w).
Proof.
  intros Hcb (Ht & Ha & Hd). split; [| by split].
  intros id t Hl. wsimpl.
  apply lookup_insert_Some in Hl as [[_ <-] | [_ Hl]]; [by right | by apply Ht].
Qed.

Lemma grows_clearTimeout id w0 w :
  grows PT PA PE w0 w → grows PT PA PE w0 (clearTimeout id w).
Proof.
  intros (Ht & Ha & Hd). split; [| by split].
  intros id' t Hl. wsimpl. apply lookup_delete_Some in Hl as [_ Hl]. by apply Ht.
Qed.

Lemma grows_await p w0 w : PA p → grows PT PA PE w0 w → grows PT PA PE w0 (await p w).
Proof.
  intros Hp (Ht & Ha & Hd). split; [exact Ht |]. split; [| exact Hd].
  intros k p' Hl. wsimpl.
  apply lookup_insert_Some in Hl as [[_ <-] | [_ Hl]]; [by right | by apply Ha].
Qed.

Lemma grows_settled id w0 w : grows PT PA PE w0 w → grows PT PA PE w0 (settled id w).
Proof.
  intros (Ht & Ha & Hd). split; [exact Ht |]. split; [| exact Hd].
  intros k p Hl. wsimpl. apply lookup_delete_Some in Hl as [_ Hl]. by apply Ha.
Qed.

Lemma grows_set_sonos x w0 w : grows PT PA PE w0 w → grows PT PA PE w0 (set_sonos x w).
Proof. by apply grows_frame. Qed.
Lemma grows_set_lastKnownVolume x w0 w :
  grows PT PA PE w0 w → grows PT PA PE w0 (set_lastKnownVolume x w).
Proof. by apply grows_frame. Qed.
Lemma grows_set_isMuted x w0 w : grows PT PA PE w0 w → grows PT PA PE w0 (set_isMuted x w).
Proof. by apply grows_frame. Qed.
Lemma grows_set_pollInterval x w0 w :
  grows PT PA PE w0 w → grows PT PA PE w0 (set_pollInterval x w).
Proof. by apply grows_frame. Qed.
Lemma grows_set_pollTimeoutId x w0 w :
  grows PT PA PE w0 w → grows PT PA PE w0 (set_pollTimeoutId x w).
Proof. by apply grows_frame. Qed.
Lemma grows_set_currentAction x w0 w :
  grows PT PA PE w0 w → grows PT PA PE w0 (set_currentAction x w).
Proof. by apply grows_frame. Qed.
Lemma grows_set_currentSettings x w0 w :
  grows PT PA PE w0 w → grows PT PA PE w0 (set_currentSettings x w).
Proof. by apply grows_frame. Qed.
Lemma grows_set_volumeChangeTimeout x w0 w :
  grows PT PA PE w0 w → grows PT PA PE w0 (set_volumeChangeTimeout x w).
Proof. by apply grows_frame. Qed.
Lemma grows_set_isRotating x w0 w :
  grows PT PA PE w0 w → grows PT PA PE w0 (set_isRotating x w).
Proof. by apply grows_frame. Qed.

Lemma grows_setFeedback a v m w0 w :
  grows PT PA PE w0 w → grows PT PA PE w0 (setFeedback a v m w).
Proof. apply grows_emit, HE_setFeedback. Qed.
Lemma grows_setSettings a st w0 w :
  grows PT PA PE w0 w → grows PT PA PE w0 (setSettings a st w).
Proof. apply grows_emit, HE_setSettings. Qed.
Lemma grows_showAlert a msg w0 w :
  grows PT PA PE w0 w → grows PT PA PE w0 (showAlert a msg w).
Proof. apply grows_emit, HE_showAlert. Qed.
Lemma grows_setMuted s m w0 w :
  grows PT PA PE w0 w → grows PT PA PE w0 (emit (SetMuted s m) w).
Proof. apply grows_emit, HE_setMuted. Qed.
Lemma grows_setVolume s v w0 w :
  grows PT PA PE w0 w → grows PT PA PE w0 (emit (SetVolume s v) w).
Proof. apply grows_emit, HE_setVolume. Qed.
Lemma grows_connect ip w0 w : grows PT PA PE w0 w → grows PT PA PE w0 (connect ip w).
Proof.
  intros H. unfold connect. apply grows_emit; [apply HE_newSonos |].
  revert H. by apply grows_frame.
Qed.
Lemma grows_readBoth s k w0 w :
  grows PT PA PE w0 w → grows PT PA PE w0 (readBoth s k w).
Proof.
  intros H. unfold readBoth. apply grows_await; [apply HA_read |].
  apply grows_emit; [apply HE_getMuted |]. by apply grows_emit; [apply HE_getVolume |].
Qed.
Lemma grows_wake ms w0 w :
  grows PT PA PE w0 w → grows PT PA PE w0 (setTimeout PollWake ms w).
Proof. apply grows_setTimeout, HT_wake. Qed.
Lemma grows_await_toggle a w0 w :
  grows PT PA PE w0 w → grows PT PA PE w0 (await (AwaitWrite (KToggle a)) w).
Proof. apply grows_await, HA_toggle. Qed.
Lemma grows_await_setVolume a w0 w :
  grows PT PA PE w0 w → grows PT PA PE w0 (await (AwaitWrite (KSetVolume a)) w).
Proof. apply grows_await, HA_setVolume. Qed.
Lemma grows_await_unmute a v w0 w :
  grows PT PA PE w0 w → grows PT PA PE w0 (await (AwaitWrite (KUnmute a v)) w).
Proof. apply grows_await, HA_unmute. Qed.

Create HintDb grow.

#[local] Hint Resolve grows_clearTimeout grows_settled grows_set_sonos
  grows_set_lastKnownVolume grows_set_isMuted grows_set_pollInterval
  grows_set_pollTimeoutId grows_set_currentAction grows_set_currentSettings
  grows_set_volumeChangeTimeout grows_set_isRotating grows_setFeedback grows_setSettings
  grows_showAlert grows_setMuted grows_setVolume grows_connect grows_readBoth grows_wake
  grows_await_toggle grows_await_setVolume grows_await_unmute : grow.

Lemma grows_stopPolling w0 w : grows PT PA PE w0 w → grows PT PA PE w0 (stopPolling w).
Proof. unfold stopPolling. intros H. repeat case_match; auto 8 with grow. Qed.

Lemma grows_pollFinally w0 w : grows PT PA PE w0 w → grows PT PA PE w0 (pollFinally w).
Proof. unfold pollFinally. intros H. repeat case_match; auto 8 with grow. Qed.

#[local] Hint Resolve grows_stopPolling grows_pollFinally : grow.

Lemma grows_pollWithDelay w0 w :
  grows PT PA PE w0 w → grows PT PA PE w0 (pollWithDelay w).
Proof. unfold pollWithDelay. intros H. repeat case_match; auto 8 with grow. Qed.

Lemma grows_pollResume r w0 w :
  grows PT PA PE w0 w → grows PT PA PE w0 (pollResume r w).
Proof.
  unfold pollResume. intros H. apply grows_pollFinally.
  repeat case_match; auto 8 with grow.
Qed.

#[local] Hint Resolve grows_pollWithDelay grows_pollResume : grow.

Lemma grows_pollTimer w0 w : grows PT PA PE w0 w → grows PT PA PE w0 (pollTimer w).
Proof. unfold pollTimer. intros H. repeat case_match; auto 8 with grow. Qed.

Lemma grows_startPolling a w0 w :
  grows PT PA PE w0 w → grows PT PA PE w0 (startPolling a w).
Proof. unfold startPolling. intros H. repeat case_match; auto 10 with grow. Qed.

#[local] Hint Resolve grows_pollTimer grows_startPolling : grow.

Lemma grows_onWillDisappear w0 w :
  grows PT PA PE w0 w → grows PT PA PE w0 (onWillDisappear w).
Proof. unfold onWillDisappear. intros H. repeat case_match; auto 8 with grow. Qed.

Lemma grows_onWillAppear ev w0 w :
  grows PT PA PE w0 w → grows PT PA PE w0 (onWillAppear ev w).
Proof. unfold onWillAppear. intros H. repeat case_match; auto 8 with grow. Qed.

Lemma grows_appearResume a ip step v r w0 w :
  grows PT PA PE w0 w → grows PT PA PE w0 (appearResume a ip step v r w).
Proof. unfold appearResume. intros H. repeat case_match; auto 8 with grow. Qed.

Lemma grows_volumeCatch a w0 w :
  grows PT PA PE w0 w → grows PT PA PE w0 (volumeCatch a w).
Proof. unfold volumeCatch. auto with grow. Qed.

Lemma grows_volumeFinally a w0 w :
  grows PT PA PE w0 w → grows PT PA PE w0 (volumeFinally a w).
Proof. unfold volumeFinally. auto with grow. Qed.

#[local] Hint Resolve grows_volumeCatch grows_volumeFinally : grow.

Lemma grows_setVolumeResume a ok w0 w :
  grows PT PA PE w0 w → grows PT PA PE w0 (setVolumeResume a ok w).
Proof. unfold setVolumeResume. intros H. repeat case_match; auto with grow. Qed.

Lemma grows_sendVolume a nv w0 w :
  grows PT PA PE w0 w → grows PT PA PE w0 (sendVolume a nv w).
Proof. unfold sendVolume. intros H. repeat case_match; auto with grow. Qed.

#[local] Hint Resolve grows_sendVolume : grow.

Lemma grows_volumeTimer a ip nv w0 w :
  grows PT PA PE w0 w → grows PT PA PE w0 (volumeTimer a ip nv w).
Proof. unfold volumeTimer. intros H. repeat case_match; auto 7 with grow. Qed.

Lemma grows_unmuteResume a nv ok w0 w :
  grows PT PA PE w0 w → grows PT PA PE w0 (unmuteResume a nv ok w).
Proof. unfold unmuteResume. intros H. repeat case_match; auto with grow. Qed.

Lemma grows_onDialUp ev w0 w : grows PT PA PE w0 w → grows PT PA PE w0 (onDialUp ev w).
Proof. unfold onDialUp. intros H. repeat case_match; auto 9 with grow. Qed.

Lemma grows_onTouchTap ev w0 w :
  grows PT PA PE w0 w → grows PT PA PE w0 (onTouchTap ev w).
Proof. unfold onTouchTap. intros H. repeat case_match; auto 9 with grow. Qed.

Lemma grows_toggleResume a ok w0 w :
  grows PT PA PE w0 w → grows PT PA PE w0 (toggleResume a ok w).
Proof. unfold toggleResume. intros H. repeat case_match; auto with grow. Qed.

Lemma grows_onDidReceiveSettings ev w0 w :
  grows PT PA PE w0 w → grows PT PA PE w0 (onDidReceiveSettings ev w).
Proof.
  rewrite onDidReceiveSettings_stores_only. intros H. case_match; auto with grow.
Qed.

Lemma grows_settingsResume a st r w0 w :
  grows PT PA PE w0 w → grows PT PA PE w0 (settingsResume a st r w).
Proof. unfold settingsResume. intros H. repeat case_match; auto 8 with grow. Qed.

(** One turn of the event loop that is no step of a debounced write: not a
    rotation, not the expiry of a debounce timer, not the settling of an
    unmute. *)
Lemma grows_handle e w0 w w' :
  isRotation e = false → debounceExpiry e w = false → unmuteSettles e w = false →
  handle e w = Some w' → grows PT PA PE w0 w → grows PT PA PE w0 w'.
Proof.
  intros Hr Hq Hu Hh H. destruct e; cbn [handle] in Hh; try done.
  - injection Hh as <-. by apply grows_onWillAppear.
  - injection Hh as <-. by apply grows_onWillDisappear.
  - injection Hh as <-. by apply grows_onDialUp.
  - injection Hh as <-. by apply grows_onTouchTap.
  - injection Hh as <-. by apply grows_onDidReceiveSettings.
  - unfold fireTimer in Hh. cbn [debounceExpiry] in Hq.
    destruct (timers w !! id) as [t|]; [| done]. injection Hh as <-.
    destruct (callback t); [| done]. cbn [runCallback].
    auto using grows_pollTimer, grows_clearTimeout.
  - unfold settleRead in Hh. destruct (awaits w !! id) as [[k|k]|]; try done.
    injection Hh as <-.
    destruct k; cbn [resumeRead];
      auto using grows_pollResume, grows_appearResume, grows_settingsResume,
        grows_settled.
  - unfold settleWrite in Hh. cbn [unmuteSettles] in Hu.
    destruct (awaits w !! id) as [[k|k]|]; try done.
    injection Hh as <-.
    destruct k as [a nv | a | a]; [done | |]; cbn [resumeWrite];
      auto using grows_setVolumeResume, grows_toggleResume, grows_settled.
Qed.

End Grows.

Lemma notSetVolume_calls d : Forall notSetVolume d → setVolumeCalls d = [].
Proof.
  induction 1 as [| e d He _ IH]; [reflexivity |].
  unfold setVolumeCalls in *. cbn [omap list_omap]. rewrite IH.
  destruct e; try reflexivity. by destruct (He s v).
Qed.

(** A turn that is no step of a debounced write arms no debounce timer,
    suspends no write on its unmute and sends no [setVolume]. *)
Lemma quiet_turn e w w' :
  isRotation e = false → debounceExpiry e w = false → unmuteSettles e w = false →
  handle e w = Some w' →
  (∀ id t, timers w' !! id = Some t → callback t ≠ PollWake → timers w !! id = Some t)
  ∧ (∀ k a v, awaits w' !! k = Some (AwaitWrite (KUnmute a v)) →
       awaits w !! k = Some (AwaitWrite (KUnmute a v)))
  ∧ ∃ d, trace w' = trace w ++ d ∧ setVolumeCalls d = [].
Proof.
  intros Hr Hq Hu Hh.
  assert (H : grows wakeOnly notUnmute notSetVolume w w').
  { apply (grows_handle wakeOnly notUnmute notSetVolume) with (e := e) (w := w);
      try done; apply grows_refl. }
  destruct H as (Ht & Ha & d & Hd & Hf).
  split; [| split].
  - intros id t Hl Hcb. by destruct (Ht id t Hl).
  - intros k a v Hl. destruct (Ha k _ Hl) as [H | H]; [exact H | by destruct (H a v)].
  - exists d. split; [exact Hd | by apply notSetVolume_calls].
Qed.

(** The [catch] and [finally] blocks of the debounced write likewise. *)
Lemma quiet_failure a w :
  let w' := volumeFinally a (volumeCatch a w) in
  (∀ id t, timers w' !! id = Some t → callback t ≠ PollWake → timers w !! id = Some t)
  ∧ (∀ k a v, awaits w' !! k = Some (AwaitWrite (KUnmute a v)) →
       awaits w !! k = Some (AwaitWrite (KUnmute a v)))
  ∧ ∃ d, trace w' = trace w ++ d ∧ setVolumeCalls d = [].
Proof.
  cbv zeta.
  assert (H : grows wakeOnly notUnmute notSetVolume w (volumeFinally a (volumeCatch a w))).
  { apply grows_volumeFinally, grows_volumeCatch; try done; apply grows_refl. }
  destruct H as (Ht & Ha & d & Hd & Hf).
  split; [| split].
  - intros id t Hl Hcb. by destruct (Ht id t Hl).
  - intros k a' v Hl. destruct (Ha k _ Hl) as [H | H]; [exact H | by destruct (H a' v)].
  - exists d. split; [exact Hd | by apply notSetVolume_calls].
Qed.

(** The closure of a debounced write arms no debounce timer, at expiry or
    when its unmute settles. *)
Lemma volumeTimer_arms_nothing a ip nv w id t :
  timers (volumeTimer a ip nv w) !! id = Some t → callback t ≠ PollWake →
  timers w !! id = Some t.
Proof.
  intros Hl Hcb.
  assert (H : grows wakeOnly anyPending anyEffect w (volumeTimer a ip nv w))
    by (apply grows_volumeTimer; try done; apply grows_refl).
  destruct H as (Ht & _). by destruct (Ht id t Hl).
Qed.

Lemma unmuteResume_arms_nothing a nv ok w id t :
  timers (unmuteResume a nv ok w) !! id = Some t → callback t ≠ PollWake →
  timers w !! id = Some t.
Proof.
  intros Hl Hcb.
  assert (H : grows wakeOnly anyPending anyEffect w (unmuteResume a nv ok w))
    by (apply grows_unmuteResume; try done; apply grows_refl).
  destruct H as (Ht & _). by destruct (Ht id t Hl).
Qed.

(** What the closure is suspended on after its timer expired. *)
Lemma volumeTimer_awaits a ip nv w :
  awaits (volumeTimer a ip nv w)
  = <[nextAwait w := AwaitWrite (if isMuted w then KUnmute a nv else KSetVolume a)]>
      (awaits w).
Proof.
  unfold volumeTimer, sendVolume.
  destruct (sonos w) as [s|] eqn:Hs, (isMuted w) eqn:Hm; wsimpl; rewrite ?Hs, ?Hm; reflexivity.
Qed.

Lemma unmuteResume_awaits a nv w s :
  sonos w = Some s →
  awaits (unmuteResume a nv true w)
  = <[nextAwait w := AwaitWrite (KSetVolume a)]> (awaits w).
Proof. intros Hs. unfold unmuteResume, sendVolume. wsimpl. by rewrite Hs. Qed.

Lemma unmuteResume_dropped a nv w :
  sonos w = None →
  unmuteResume a nv true w = volumeFinally a (volumeCatch a (set_isMuted false w)).
Proof. intros Hs. unfold unmuteResume, sendVolume. wsimpl. by rewrite Hs. Qed.

Lemma noWrite_oneWriteFor nv w : noWrite w → oneWriteFor nv w.
Proof.
  intros (Ht & Hu). split.
  - intros id t a ip v Hl Hcb. apply Ht in Hl. congruence.
  - intros k a v Hl. destruct (Hu v). by exists k, a.
Qed.

(** The invariant of a run without rotations: at most one debounced write
    is in progress, it is for [nv], and so far either no [setVolume] has been
    sent, or exactly one, for [nv], and then no write is in progress. *)
Lemma one_write_turn nv w1 e w w' :
  isRotation e = false → handle e w = Some w' →
  timers_ok w → oneWriteFor nv w →
  (∃ d, trace w = trace w1 ++ d
        ∧ (setVolumeCalls d = [] ∨ setVolumeCalls d = [nv] ∧ noWrite w)) →
  oneWriteFor nv w'
  ∧ ∃ d, trace w' = trace w1 ++ d
         ∧ (setVolumeCalls d = [] ∨ setVolumeCalls d = [nv] ∧ noWrite w').
Proof.
  intros Hr Hh Hok (Ho1 & Ho2) (d & Hd & Hph).
  destruct (debounceExpiry e w) eqn:Hq; [| destruct (unmuteSettles e w) eqn:Hu].
  - (* the debounce timer expires *)
    destruct e as [| | | | | | id | |]; try done.
    cbn [debounceExpiry] in Hq. cbn [handle] in Hh. unfold fireTimer in Hh.
    destruct (timers w !! id) as [t|] eqn:Hid; [| done]. injection Hh as <-.
    destruct (callback t) as [| a ip v] eqn:Hcb; [done |]. cbn [runCallback].
    destruct (Ho1 id t a ip v Hid Hcb) as (-> & Hnu).
    assert (Hsent : setVolumeCalls d = []).
    { destruct Hph as [H | (_ & Ht & _)]; [exact H |]. apply Ht in Hid. congruence. }
    set (wc := clearTimeout id w).
    assert (Hnone : ∀ id' t', timers (volumeTimer a ip nv wc) !! id' = Some t' →
                              callback t' = PollWake).
    { intros id' t' Hl. destruct (callback t') as [| a' ip' v'] eqn:Hcb'; [done |].
      apply volumeTimer_arms_nothing in Hl; [| congruence].
      subst wc. wsimpl. apply lookup_delete_Some in Hl as [Hne Hl].
      destruct (Hok id t Hid) as [_ Hown], (Hok id' t' Hl) as [_ Hown'].
      unfold owned in Hown, Hown'. rewrite Hcb in Hown. rewrite Hcb' in Hown'. congruence. }
    pose proof (volumeTimer_awaits a ip nv wc) as Haw.
    change (awaits wc) with (awaits w) in Haw. change (nextAwait wc) with (nextAwait w) in Haw.
    change (isMuted wc) with (isMuted w) in Haw.
    destruct (isMuted w) eqn:Hm.
    + destruct (volumeTimer_muted a ip nv wc Hm) as (s & _ & Htr & _).
      split.
      * split.
        { intros id' t' a' ip' v' Hl Hcb'. apply Hnone in Hl. congruence. }
        { intros k a' v Hl. rewrite Haw in Hl.
          apply lookup_insert_Some in Hl as [[<- [= <- <-]] | [_ Hl]];
            [| destruct (Hnu v); by exists k, a'].
          split; [reflexivity |]. intros k' a'' v' Hl'. rewrite Haw in Hl'.
          apply lookup_insert_Some in Hl' as [[<- _] | [_ Hl']]; [reflexivity |].
          destruct (Hnu v'). by exists k', a''. }
      * destruct Htr as [(_ & Htr) | (_ & _ & Htr)]; rewrite Htr;
          change (trace wc) with (trace w); rewrite Hd, <- app_assoc;
          eexists; (split; [reflexivity |]); left;
          unfold setVolumeCalls in *; by rewrite omap_app, Hsent.
    + destruct (volumeTimer_unmuted a ip nv wc Hm) as (s & _ & Htr & _).
      assert (Hnw : noWrite (volumeTimer a ip nv wc)).
      { split; [exact Hnone |]. intros v (k & a' & Hl). rewrite Haw in Hl.
        apply lookup_insert_Some in Hl as [[_ [=]] | [_ Hl]]. destruct (Hnu v). by exists k, a'. }
      split; [by apply noWrite_oneWriteFor |].
      destruct Htr as [(_ & Htr) | (_ & _ & Htr)]; rewrite Htr;
        change (trace wc) with (trace w); rewrite Hd, <- app_assoc;
        eexists; (split; [reflexivity |]); right; (split; [| exact Hnw]);
        unfold setVolumeCalls in *; by rewrite omap_app, Hsent.
  - (* the unmute of the write settles *)
    destruct e as [| | | | | | | | k ok]; try done.
    cbn [unmuteSettles] in Hu. cbn [handle] in Hh. unfold settleWrite in Hh.
    destruct (awaits w !! k) as [[| [a v | |]]|] eqn:Hk; try done.
    injection Hh as <-. cbn [resumeWrite].
    destruct (Ho2 k a v Hk) as (-> & Huniq).
    assert (Hnt : ∀ id t, timers w !! id = Some t → callback t = PollWake).
    { intros id t Hl. destruct (callback t) as [| a' ip' v'] eqn:Hcb; [done |].
      destruct (Ho1 id t a' ip' v' Hl Hcb) as (_ & Hnu). destruct (Hnu nv). by exists k, a. }
    assert (Hsent : setVolumeCalls d = []).
    { destruct Hph as [H | (_ & _ & Hnu)]; [exact H |]. destruct (Hnu nv). by exists k, a. }
    set (ws := settled k w).
    assert (Hnu : ∀ k' a' v', awaits ws !! k' ≠ Some (AwaitWrite (KUnmute a' v'))).
    { intros k' a' v' Hl. subst ws. wsimpl. apply lookup_delete_Some in Hl as [Hne Hl].
      by apply Huniq in Hl. }
    assert (Hnone : ∀ id t, timers (unmuteResume a nv ok ws) !! id = Some t →
                            callback t = PollWake).
    { intros id t Hl. destruct (callback t) as [| a' ip' v'] eqn:Hcb; [done |].
      apply unmuteResume_arms_nothing in Hl; [| congruence].
      apply Hnt in Hl. congruence. }
    destruct ok, (sonos w) as [s|] eqn:Hs.
    + destruct (unmuteResume_ok a nv ws s Hs) as (Htr & _).
      assert (Hnw : noWrite (unmuteResume a nv true ws)).
      { split; [exact Hnone |]. intros v (k' & a' & Hl).
        rewrite (unmuteResume_awaits a nv ws s Hs) in Hl.
        apply lookup_insert_Some in Hl as [[_ [=]] | [_ Hl]].
        by destruct (Hnu k' a' v). }
      split; [by apply noWrite_oneWriteFor |].
      rewrite Htr. change (trace ws) with (trace w). rewrite Hd, <- app_assoc.
      eexists. split; [reflexivity |]. right. split; [| exact Hnw].
      unfold setVolumeCalls in *. by rewrite omap_app, Hsent.
    + pose proof (unmuteResume_dropped a nv ws Hs) as Heq.
      destruct (quiet_failure a (set_isMuted false ws)) as (_ & Ha & d' & Hd' & Hq').
      rewrite <- Heq in Ha, Hd'.
      assert (Hnw : noWrite (unmuteResume a nv true ws)).
      { split; [exact Hnone |]. intros v (k' & a' & Hl). apply Ha in Hl.
        by destruct (Hnu k' a' v). }
      split; [by apply noWrite_oneWriteFor |].
      rewrite Hd'. change (trace (set_isMuted false ws)) with (trace w).
      rewrite Hd, <- app_assoc. eexists. split; [reflexivity |]. left.
      unfold setVolumeCalls in *. by rewrite omap_app, Hsent, Hq'.
    + destruct (quiet_failure a ws) as (_ & Ha & d' & Hd' & Hq').
      assert (Hnw : noWrite (unmuteResume a nv false ws)).
      { split; [exact Hnone |]. intros v (k' & a' & Hl). apply Ha in Hl.
        by destruct (Hnu k' a' v). }
      split; [by apply noWrite_oneWriteFor |].
      unfold unmuteResume. rewrite Hd'. change (trace ws) with (trace w).
      rewrite Hd, <- app_assoc. eexists. split; [reflexivity |]. left.
      unfold setVolumeCalls in *. by rewrite omap_app, Hsent, Hq'.
    + destruct (quiet_failure a ws) as (_ & Ha & d' & Hd' & Hq').
      assert (Hnw : noWrite (unmuteResume a nv false ws)).
      { split; [exact Hnone |]. intros v (k' & a' & Hl). apply Ha in Hl.
        by destruct (Hnu k' a' v). }
      split; [by apply noWrite_oneWriteFor |].
      unfold unmuteResume. rewrite Hd'. change (trace ws) with (trace w).
      rewrite Hd, <- app_assoc. eexists. split; [reflexivity |]. left.
      unfold setVolumeCalls in *. by rewrite omap_app, Hsent, Hq'.
  - (* any other turn *)
    destruct (quiet_turn e w w' Hr Hq Hu Hh) as (Ht & Ha & d' & Hd' & Hq').
    split.
    + split.
      * intros id t a ip v Hl Hcb.
        assert (Hcb' : callback t ≠ PollWake) by congruence.
        destruct (Ho1 id t a ip v (Ht id t Hl Hcb') Hcb) as (-> & Hnu).
        split; [reflexivity |]. intros v' (k & a' & Hk). destruct (Hnu v').
        exists k, a'. by apply Ha.
      * intros k a v Hl. destruct (Ho2 k a v (Ha _ _ _ Hl)) as (-> & Huniq).
        split; [reflexivity |]. intros k' a' v' Hl'. apply (Huniq k' a' v'). by apply Ha.
    + exists (d ++ d'). split; [by rewrite Hd', Hd, app_assoc |].
      unfold setVolumeCalls in *. rewrite omap_app, Hq', app_nil_r.
      destruct Hph as [H | (H & Hnt & Hnu)]; [by left | right].
      split; [exact H |]. split.
      * intros id t Hl. destruct (callback t) as [| a ip v] eqn:Hcb; [done |].
        assert (Hcb' : callback t ≠ PollWake) by congruence.
        apply Ht in Hl; [| exact Hcb']. apply Hnt in Hl. congruence.
      * intros v (k & a & Hk). destruct (Hnu v). exists k, a. by apply Ha.
Qed.

(** Whatever happens short of another rotation, the [setVolume] calls made
    are none or exactly one, for [nv]. *)
Lemma one_write_run nv w es w' :
  timers_ok w → oneWriteFor nv w →
  forallb (λ e, negb (isRotation e)) es = true →
  run es w = Some w' →
  setVolumeCalls (emitted w w') = [] ∨ setVolumeCalls (emitted w w') = [nv].
Proof.
  intros Hok0 Ho0 Hes Hrun.
  assert (H : ∀ w0,
             timers_ok w0 → oneWriteFor nv w0 →
             (∃ d, trace w0 = trace w ++ d
                   ∧ (setVolumeCalls d = [] ∨ setVolumeCalls d = [nv] ∧ noWrite w0)) →
             run es w0 = Some w' →
             ∃ d, trace w' = trace w ++ d
                  ∧ (setVolumeCalls d = [] ∨ setVolumeCalls d = [nv] ∧ noWrite w')).
  { clear Hrun. induction es as [| e es IH]; intros w0 Hok Ho Hd; cbn [run].
    - by intros [= <-].
    - cbn [forallb] in Hes. apply andb_prop in Hes as [He Hes'].
      apply negb_true_iff in He.
      destruct (handle e w0) as [w2|] eqn:Hh; [| done].
      destruct (one_write_turn nv w e w0 w2 He Hh Hok Ho Hd) as (Ho2 & Hd2).
      apply (IH Hes'); [by eapply ok_handle | exact Ho2 | exact Hd2]. }
  destruct (H w Hok0 Ho0) as (d & Hd & Hph); [| exact Hrun |].
  - exists []. split; [by rewrite app_nil_r | by left].
  - rewrite (emitted_app _ _ _ Hd). destruct Hph as [H1 | (H1 & _)]; [by left | by right].
Qed.

(** The counterexample to C8 as stated: the instance is muted and no
    speaker address is configured.  A rotation updates the cached volume and
    alerts, but arms no timer and suspends on no promise, sends neither
    [setMuted(false)] nor [setVolume], and leaves the mute flag set. *)
Lemma muted_rotation_without_address :
  let w1 := onDialRotate (mkRotateEvent 7 unconfigured 1) mutedUnconfiguredWorld in
  isMuted mutedUnconfiguredWorld = true
  ∧ lastKnownVolume w1 = 55
  ∧ isMuted w1 = true
  ∧ timers w1 = ∅
  ∧ awaits w1 = ∅
  ∧ setMutedCalls (trace w1) = []
  ∧ setVolumeCalls (trace w1) = []
  ∧ emitted mutedUnconfiguredWorld w1
    = [SetFeedback 7 55 Half;
       SetSettings 7 (mkSettings None (Some 55) (Some 5));
       ShowAlert 7 "No speaker IP configured"].
Proof. vm_compute. repeat split; reflexivity. Qed.

(** C8 (amended). A rotation arrives while the instance is muted, with a
    speaker address configured.  The rotation itself sends nothing to the
    speaker and arms its debounce timer.  Whatever happens next, in whatever
    state that timer expires:
    - if the mute flag is still set, the closure sends [setMuted(false)]
      (after building a client if there is none) and nothing else, leaves
      the flag set and is suspended on that write.  In whatever state the
      unmute then resolves, the flag is cleared; if a client object is held
      at that moment, [setVolume(newValue)] is sent on it, after the
      [setMuted(false)] in the order of effects, the flag being false
      already when the volume write is issued; if the client object has been
      dropped in between (a failed poll or toggle), no [setVolume] is sent
      and an alert is shown.  If the unmute rejects, no [setVolume] is sent,
      an alert is shown and the flag is left as it is;
    - if the flag has been cleared in between, [setVolume(newValue)] is sent
      with no unmute before it. *)
Theorem unmute_precedes_volume (w : World) (ev : RotateEvent) (ip : string) :
  isMuted w = true →
  truthy (speakerIp (re_settings ev)) = Some ip →
  let w1 := onDialRotate ev w in
  let nv := newValue ev w in
  let a := re_action ev in
  let id := nextTimer w in
  setMutedCalls (emitted w w1) = []
  ∧ setVolumeCalls (emitted w w1) = []
  ∧ isMuted w1 = true
  ∧ timers w1 !! id = Some (mkTimer VOLUME_CHANGE_DEBOUNCE_MS (VolumeChange a ip nv))
  ∧ ∀ es w', run es w1 = Some w' → timers w' !! id ≠ None →
      ∃ w2, handle (ETimer id) w' = Some w2
        ∧ if isMuted w' then
            ∃ s, sonos w2 = Some s
              ∧ (emitted w' w2 = [SetMuted s false]
                 ∨ emitted w' w2 = [NewSonos s; SetMuted s false])
              ∧ isMuted w2 = true
              ∧ awaits w2 !! nextAwait w' = Some (AwaitWrite (KUnmute a nv))
              ∧ ∀ es' w'', run es' w2 = Some w'' → awaits w'' !! nextAwait w' ≠ None →
                  (∃ w3, handle (EWrite (nextAwait w') true) w'' = Some w3
                     ∧ isMuted w3 = false
                     ∧ match sonos w'' with
                       | Some s' =>
                           emitted w'' w3 = [SetVolume s' nv]
                           ∧ (∃ pre mid,
                                trace w3 = pre ++ SetMuted s false :: mid ++ [SetVolume s' nv])
                           ∧ awaits w3 !! nextAwait w'' = Some (AwaitWrite (KSetVolume a))
                       | None =>
                           setVolumeCalls (emitted w'' w3) = []
                           ∧ alerts (emitted w'' w3) = ["Failed to update volume"]
                       end)
                  ∧ (∃ w3, handle (EWrite (nextAwait w') false) w'' = Some w3
                       ∧ setVolumeCalls (emitted w'' w3) = []
                       ∧ alerts (emitted w'' w3) = ["Failed to update volume"]
                       ∧ isMuted w3 = isMuted w'')
          else
            setMutedCalls (emitted w' w2) = []
            ∧ setVolumeCalls (emitted w' w2) = [nv].
Proof.
  intros Hm Hip. cbv zeta.
  destruct (onDialRotate_arms ev w ip Hip) as (_ & Ht & Hm1 & _).
  pose proof (onDialRotate_nextTimer ev w ip Hip) as Hnt.
  destruct (onDialRotate_quiet ev w) as (d0 & Hd0 & Hq1 & Hq2).
  rewrite (emitted_app _ _ _ Hd0).
  split; [exact Hq1 |]. split; [exact Hq2 |]. split; [congruence |]. split; [exact Ht |].
  set (w1 := onDialRotate ev w) in *. set (a := re_action ev) in *.
  set (nv := newValue ev w) in *. set (id := nextTimer w) in *.
  intros es w' Hrun Hp.
  destruct (timers w' !! id) as [t|] eqn:Ht'; [| done].
  assert (t = mkTimer VOLUME_CHANGE_DEBOUNCE_MS (VolumeChange a ip nv)) as ->.
  { apply (later_timer w1 w' id); [by apply (later_run es) | exact Ht | exact Ht' | lia]. }
  eexists. split; [by eapply debounce_expiry |].
  set (wc := clearTimeout id w').
  destruct (isMuted w') eqn:Hm'.
  - destruct (volumeTimer_muted a ip nv wc Hm') as (s & Hs2 & Htr & Hm2 & Haw & Hna2).
    set (w2 := volumeTimer a ip nv wc) in *.
    change (nextAwait wc) with (nextAwait w') in Haw, Hna2.
    exists s. split; [exact Hs2 |]. split.
    { destruct Htr as [(_ & Htr) | (_ & _ & Htr)];
        [left | right]; by apply (emitted_app wc). }
    split; [exact Hm2 |]. split; [exact Haw |].
    intros es' w'' Hrun2 Hp2.
    assert (Hlt : (nextAwait w' < nextAwait w2)%nat) by lia.
    destruct (unmute_outcome a nv (nextAwait w') w2 es' w'' Haw Hlt Hrun2 Hp2)
      as ((w3 & Hh & Hm3 & Hcase) & Hrej).
    split; [| exact Hrej].
    exists w3. split; [exact Hh |]. split; [exact Hm3 |].
    destruct (sonos w'') as [s'|]; [| exact Hcase].
    destruct Hcase as (Ht3 & Haw3 & _).
    split; [by apply emitted_app |]. split; [| exact Haw3].
    destruct (later_run es' w2 w'' Hrun2) as (_ & _ & _ & _ & mid & Hmid).
    rewrite Ht3, Hmid.
    destruct Htr as [(_ & ->) | (_ & _ & ->)].
    + exists (trace wc), mid. by rewrite <- !app_assoc.
    + exists (trace wc ++ [NewSonos s]), mid. by rewrite <- !app_assoc.
  - destruct (volumeTimer_unmuted a ip nv wc Hm') as (s & _ & Htr & _).
    destruct (volumeTimer_unmuted_next a ip nv wc Hm') as (_ & Hsm).
    split; [exact Hsm |].
    assert (He : ∀ x, emitted w' x = emitted wc x) by reflexivity.
    destruct Htr as [(_ & Htr) | (_ & _ & Htr)]; by rewrite He, (emitted_app wc _ _ Htr).
Qed.

Lemma unmute_precedes_volume_witness :
  let w := mutedWorld in
  let ev := mkRotateEvent 7 lounge 2 in
  let w1 := onDialRotate ev w in
  let nv := newValue ev w in
  let a := re_action ev in
  let id := nextTimer w in
  setMutedCalls (emitted w w1) = []
  ∧ setVolumeCalls (emitted w w1) = []
  ∧ isMuted w1 = true
  ∧ timers w1 !! id
    = Some (mkTimer VOLUME_CHANGE_DEBOUNCE_MS (VolumeChange a "192.168.1.20" nv))
  ∧ ∀ es w', run es w1 = Some w' → timers w' !! id ≠ None →
      ∃ w2, handle (ETimer id) w' = Some w2
        ∧ if isMuted w' then
            ∃ s, sonos w2 = Some s
              ∧ (emitted w' w2 = [SetMuted s false]
                 ∨ emitted w' w2 = [NewSonos s; SetMuted s false])
              ∧ isMuted w2 = true
              ∧ awaits w2 !! nextAwait w' = Some (AwaitWrite (KUnmute a nv))
              ∧ ∀ es' w'', run es' w2 = Some w'' → awaits w'' !! nextAwait w' ≠ None →
                  (∃ w3, handle (EWrite (nextAwait w') true) w'' = Some w3
                     ∧ isMuted w3 = false
                     ∧ match sonos w'' with
                       | Some s' =>
                           emitted w'' w3 = [SetVolume s' nv]
                           ∧ (∃ pre mid,
                                trace w3 = pre ++ SetMuted s false :: mid ++ [SetVolume s' nv])
                           ∧ awaits w3 !! nextAwait w'' = Some (AwaitWrite (KSetVolume a))
                       | None =>
                           setVolumeCalls (emitted w'' w3) = []
                           ∧ alerts (emitted w'' w3) = ["Failed to update volume"]
                       end)
                  ∧ (∃ w3, handle (EWrite (nextAwait w') false) w'' = Some w3
                       ∧ setVolumeCalls (emitted w'' w3) = []
                       ∧ alerts (emitted w'' w3) = ["Failed to update volume"]
                       ∧ isMuted w3 = isMuted w'')
          else
            setMutedCalls (emitted w' w2) = []
            ∧ setVolumeCalls (emitted w' w2) = [nv].
Proof.
  apply (unmute_precedes_volume mutedWorld (mkRotateEvent 7 lounge 2) "192.168.1.20");
    vm_compute; reflexivity.
Defined.

(** The muted rotation on a concrete run, end to end. *)
Example muted_rotation_run :
  ∃ w', run [EDialRotate (mkRotateEvent 7 lounge 2); ETimer 1; EWrite 2 true] mutedWorld
        = Some w'
    ∧ emitted mutedWorld w'
      = [SetFeedback 7 60 Half;
         SetSettings 7 (mkSettings (Some "192.168.1.20") (Some 60) (Some 5));
         SetMuted (mkSonos "192.168.1.20" 0) false;
         SetVolume (mkSonos "192.168.1.20" 0) 60]
    ∧ isMuted w' = false
    ∧ awaits w' !! 3%nat = Some (AwaitWrite (KSetVolume 7)).
Proof. eexists. vm_compute. repeat split; reflexivity. Qed.

(** The same rotation when a poll cycle is in flight and its read fails
    while the unmute is pending: the poll drops the client object, the
    unmute resolves and clears the flag, and the closure fails on the missing
    client: no [setVolume] is sent. *)
Example muted_rotation_with_failed_poll :
  ∃ w', run [ETimer 0; EDialRotate (mkRotateEvent 7 lounge 2); ETimer 1;
             ERead 2 None; EWrite 3 true] mutedWorld
        = Some w'
    ∧ emitted mutedWorld w'
      = [GetVolume (mkSonos "192.168.1.20" 0); GetMuted (mkSonos "192.168.1.20" 0);
         SetFeedback 7 60 Half;
         SetSettings 7 (mkSettings (Some "192.168.1.20") (Some 60) (Some 5));
         SetMuted (mkSonos "192.168.1.20" 0) false;
         ShowAlert 7 "Failed to update volume"]
    ∧ isMuted w' = false
    ∧ sonos w' = None.
Proof. eexists. vm_compute. repeat split; reflexivity. Qed.

(** The counterexample to C1 as stated: one tick on an instance that was
    shown with no speaker address configured.  The cached volume moves to
    55 and an alert is shown, but no timer is armed and no promise is
    pending, so no [setVolume] call has been made and none can follow. *)
Lemma rotation_without_address_sends_nothing :
  let w1 := rotateBurst [mkRotateEvent 7 unconfigured 1] unconfiguredWorld in
  lastKnownVolume w1 = 55
  ∧ timers w1 = ∅
  ∧ awaits w1 = ∅
  ∧ volumeChangeTimeout w1 = None
  ∧ setVolumeCalls (trace w1) = []
  ∧ (∀ id, handle (ETimer id) w1 = None)
  ∧ (∀ id ok, handle (EWrite id ok) w1 = None)
  ∧ emitted unconfiguredWorld w1
    = [SetFeedback 7 55 Full;
       SetSettings 7 (mkSettings None (Some 55) (Some 5));
       ShowAlert 7 "No speaker IP configured"].
Proof.
  vm_compute. repeat split; reflexivity.
Qed.

(** C1 (amended). Take any run of events from a reachable state in which no
    debounce timer expires (the ticks of one debounce window, with whatever
    else the host and the run time deliver between them) and whose last
    event is a rotation that carries a speaker address.
    - The [setVolume] calls made during the window, if any, belong to
      debounced writes that were already past their timer, suspended on
      their unmute, when the window began: the ticks of the window add
      none.
    - At the end of the window exactly one debounce timer is pending: the
      one of the last tick, armed for [VOLUME_CHANGE_DEBOUNCE_MS] and holding
      the final cached volume, a value in [0, 100].  Whatever happens
      afterwards, no other debounce timer handed out before the end of the
      window is ever pending again, so the closures of the earlier ticks
      never run; and the last tick's timer, once it has expired or has been
      cancelled, is never pending again.
    - In whatever state the last tick's timer expires: on an unmuted
      instance its closure sends exactly one [setVolume], with the final
      value, and none is added when that write settles, whenever it does; on
      a muted instance it sends [setMuted(false)] and no [setVolume], and in
      whatever state that unmute resolves, exactly one [setVolume] with the
      final value follows if a client object is held at that moment (and none
      is added when it settles), and none, with an alert, if the client
      object has been dropped in between; when the unmute rejects, none is
      sent.
    - Altogether, if no earlier debounced write is still suspended on its
      unmute at the end of the window, then whatever happens afterwards short
      of another rotation, the [setVolume] calls made are none or exactly
      one, and that one carries the final value. *)
Theorem debounce_sends_final_value
    (w : World) (es : list Event) (ev : RotateEvent) (ip : string) (w1 : World) :
  reachable w →
  window (es ++ [EDialRotate ev]) w = Some w1 →
  truthy (speakerIp (re_settings ev)) = Some ip →
  let a := re_action ev in
  let nv := lastKnownVolume w1 in
  let final := mkTimer VOLUME_CHANGE_DEBOUNCE_MS (VolumeChange a ip nv) in
  (∀ v, v ∈ setVolumeCalls (emitted w w1) → unmuting w v)
  ∧ 0 ≤ nv ≤ 100
  ∧ ∃ id,
      volumeChangeTimeout w1 = Some id
      ∧ timers w1 !! id = Some final
      ∧ (∀ id' t, timers w1 !! id' = Some t → callback t ≠ PollWake → id' = id)
      ∧ ((∀ v, ¬ unmuting w1 v) →
         ∀ fs w', forallb (λ e, negb (isRotation e)) fs = true → run fs w1 = Some w' →
           setVolumeCalls (emitted w1 w') = [] ∨ setVolumeCalls (emitted w1 w') = [nv])
      ∧ ∀ fs w', run fs w1 = Some w' →
          (∀ id' t, (id' < nextTimer w1)%nat → timers w' !! id' = Some t →
             callback t ≠ PollWake → id' = id ∧ t = final)
          ∧ (timers w' !! id = None →
             ∀ gs w'', run gs w' = Some w'' → timers w'' !! id = None)
          ∧ (timers w' !! id ≠ None →
             ∃ w2, handle (ETimer id) w' = Some w2
               ∧ timers w2 !! id = None
               ∧ if isMuted w' then
                   setMutedCalls (emitted w' w2) = [false]
                   ∧ setVolumeCalls (emitted w' w2) = []
                   ∧ awaits w2 !! nextAwait w' = Some (AwaitWrite (KUnmute a nv))
                   ∧ ∀ gs w'', run gs w2 = Some w'' → awaits w'' !! nextAwait w' ≠ None →
                       (∃ w3, handle (EWrite (nextAwait w') true) w'' = Some w3
                          ∧ match sonos w'' with
                            | Some _ =>
                                setVolumeCalls (emitted w'' w3) = [nv]
                                ∧ awaits w3 !! nextAwait w'' = Some (AwaitWrite (KSetVolume a))
                                ∧ settlesSilently (nextAwait w'') w3
                            | None =>
                                setVolumeCalls (emitted w'' w3) = []
                                ∧ alerts (emitted w'' w3) = ["Failed to update volume"]
                            end)
                       ∧ (∃ w3, handle (EWrite (nextAwait w') false) w'' = Some w3
                            ∧ setVolumeCalls (emitted w'' w3) = [])
                 else
                   setVolumeCalls (emitted w' w2) = [nv]
                   ∧ awaits w2 !! nextAwait w' = Some (AwaitWrite (KSetVolume a))
                   ∧ settlesSilently (nextAwait w') w2).
Proof.
  intros Hr Hwin Hip. cbv zeta.
  split.
  { destruct (within_window _ _ _ Hwin) as ((d & Hd & Hv) & _).
    by rewrite (emitted_app _ _ _ Hd). }
  apply window_run, run_snoc in Hwin as (w0 & Hrun0 & Hh).
  cbn [handle] in Hh. injection Hh as <-.
  assert (Hr1 : reachable (onDialRotate ev w0)).
  { apply (reachable_step (EDialRotate ev) w0); [| reflexivity].
    by apply (reachable_run es w). }
  pose proof (reachable_timers_ok _ Hr1) as Hok.
  destruct (onDialRotate_arms ev w0 ip Hip) as (Hvct & Ht & _).
  rewrite onDialRotate_lastKnownVolume.
  split; [apply newValue_range |].
  set (w1 := onDialRotate ev w0) in *.
  set (a := re_action ev) in *. set (nv := newValue ev w0) in *.
  set (id := nextTimer w0) in *.
  assert (Hone : ∀ id' t, timers w1 !! id' = Some t → callback t ≠ PollWake → id' = id).
  { intros id' t Hid Hcb. destruct (Hok id' t Hid) as [_ Ho]. unfold owned in Ho.
    destruct (callback t); [done |]. congruence. }
  exists id. split; [exact Hvct |]. split; [exact Ht |]. split; [exact Hone |].
  split.
  { intros Hnu fs w' Hfs Hrun.
    apply (one_write_run nv w1 fs w'); [exact Hok | | exact Hfs | exact Hrun].
    split.
    - intros id' t a' ip' v Hl Hcb. split; [| exact Hnu].
      assert (id' = id) as -> by (eapply Hone; [exact Hl | congruence]).
      rewrite Ht in Hl. injection Hl as <-. cbn [callback] in Hcb. congruence.
    - intros k a' v Hl. destruct (Hnu v). by exists k, a'. }
  intros fs w' Hrun.
  pose proof (later_run fs w1 w' Hrun) as Hl.
  split.
  { intros id' t Hlt Hid Hcb.
    destruct Hl as (_ & _ & Hkeep & _). apply Hkeep in Hid; [| exact Hlt].
    assert (id' = id) as -> by (by eapply Hone). split; [reflexivity | congruence]. }
  assert (Hid : (id < nextTimer w')%nat).
  { destruct (Hok id _ Ht) as [Hlt _]. destruct Hl as (Hnt & _). lia. }
  split.
  { intros Hgone gs w'' Hrun2.
    by apply (later_gone w' w'' id); [apply (later_run gs) | |]. }
  intros Hp.
  destruct (timers w' !! id) as [t|] eqn:Ht'; [| done].
  assert (t = mkTimer VOLUME_CHANGE_DEBOUNCE_MS (VolumeChange a ip nv)) as ->.
  { apply (later_timer w1 w' id); [exact Hl | exact Ht | exact Ht' |].
    by destruct (Hok id _ Ht). }
  eexists. split; [by eapply debounce_expiry |].
  set (wc := clearTimeout id w').
  split.
  { apply (later_gone wc _ id); [apply later_volumeTimer, later_refl | | exact Hid].
    subst wc. wsimpl. apply lookup_delete_eq. }
  assert (He : ∀ x, emitted w' x = emitted wc x) by reflexivity.
  destruct (isMuted w') eqn:Hm'.
  - destruct (volumeTimer_muted a ip nv wc Hm') as (s & _ & Htr & _ & Haw & Hna2).
    set (w2 := volumeTimer a ip nv wc) in *.
    change (nextAwait wc) with (nextAwait w') in Haw, Hna2.
    rewrite !He.
    split; [destruct Htr as [(_ & Htr) | (_ & _ & Htr)]; by rewrite (emitted_app wc _ _ Htr) |].
    split; [destruct Htr as [(_ & Htr) | (_ & _ & Htr)]; by rewrite (emitted_app wc _ _ Htr) |].
    split; [exact Haw |].
    intros gs w'' Hrun2 Hp2.
    assert (Hlt : (nextAwait w' < nextAwait w2)%nat) by lia.
    destruct (unmute_outcome a nv (nextAwait w') w2 gs w'' Haw Hlt Hrun2 Hp2)
      as ((w3 & Hh & _ & Hcase) & (w3' & Hh' & Hq' & _)).
    split; [| by exists w3'].
    exists w3. split; [exact Hh |].
    destruct (sonos w'') as [s'|]; [| exact Hcase].
    destruct Hcase as (Ht3 & Haw3 & Hsil).
    split; [by rewrite (emitted_app _ _ _ Ht3) |]. split; [exact Haw3 | exact Hsil].
  - destruct (volumeTimer_unmuted a ip nv wc Hm') as (s & _ & Htr & Haw).
    destruct (volumeTimer_unmuted_next a ip nv wc Hm') as (Hna2 & _).
    set (w2 := volumeTimer a ip nv wc) in *.
    change (nextAwait wc) with (nextAwait w') in Haw, Hna2.
    rewrite He.
    split; [destruct Htr as [(_ & Htr) | (_ & _ & Htr)]; by rewrite (emitted_app wc _ _ Htr) |].
    split; [exact Haw |].
    apply (settlesSilently_pending a); [exact Haw | lia].
Qed.

Lemma debounce_sends_final_value_witness :
  let w := connectedWorld in
  let w1 := afterWindow in
  let a := re_action tick3 in
  let nv := lastKnownVolume w1 in
  let final := mkTimer VOLUME_CHANGE_DEBOUNCE_MS (VolumeChange a "192.168.1.20" nv) in
  (∀ v, v ∈ setVolumeCalls (emitted w w1) → unmuting w v)
  ∧ 0 ≤ nv ≤ 100
  ∧ ∃ id,
      volumeChangeTimeout w1 = Some id
      ∧ timers w1 !! id = Some final
      ∧ (∀ id' t, timers w1 !! id' = Some t → callback t ≠ PollWake → id' = id)
      ∧ ((∀ v, ¬ unmuting w1 v) →
         ∀ fs w', forallb (λ e, negb (isRotation e)) fs = true → run fs w1 = Some w' →
           setVolumeCalls (emitted w1 w') = [] ∨ setVolumeCalls (emitted w1 w') = [nv])
      ∧ ∀ fs w', run fs w1 = Some w' →
          (∀ id' t, (id' < nextTimer w1)%nat → timers w' !! id' = Some t →
             callback t ≠ PollWake → id' = id ∧ t = final)
          ∧ (timers w' !! id = None →
             ∀ gs w'', run gs w' = Some w'' → timers w'' !! id = None)
          ∧ (timers w' !! id ≠ None →
             ∃ w2, handle (ETimer id) w' = Some w2
               ∧ timers w2 !! id = None
               ∧ if isMuted w' then
                   setMutedCalls (emitted w' w2) = [false]
                   ∧ setVolumeCalls (emitted w' w2) = []
                   ∧ awaits w2 !! nextAwait w' = Some (AwaitWrite (KUnmute a nv))
                   ∧ ∀ gs w'', run gs w2 = Some w'' → awaits w'' !! nextAwait w' ≠ None →
                       (∃ w3, handle (EWrite (nextAwait w') true) w'' = Some w3
                          ∧ match sonos w'' with
                            | Some _ =>
                                setVolumeCalls (emitted w'' w3) = [nv]
                                ∧ awaits w3 !! nextAwait w'' = Some (AwaitWrite (KSetVolume a))
                                ∧ settlesSilently (nextAwait w'') w3
                            | None =>
                                setVolumeCalls (emitted w'' w3) = []
                                ∧ alerts (emitted w'' w3) = ["Failed to update volume"]
                            end)
                       ∧ (∃ w3, handle (EWrite (nextAwait w') false) w'' = Some w3
                            ∧ setVolumeCalls (emitted w'' w3) = [])
                 else
                   setVolumeCalls (emitted w' w2) = [nv]
                   ∧ awaits w2 !! nextAwait w' = Some (AwaitWrite (KSetVolume a))
                   ∧ settlesSilently (nextAwait w') w2).
Proof.
  apply (debounce_sends_final_value connectedWorld busyWindow tick3 "192.168.1.20"
           afterWindow).
  - apply (reachable_run
             [EWillAppear (mkAppearEvent 7 true lounge);
              ERead 0 (Some (50, false));
              ERead 1 (Some (50, false))] initial);
      [apply reachable_initial | vm_compute; reflexivity].
  - vm_compute. reflexivity.
  - vm_compute. reflexivity.
Defined.

(** Three ticks within the window: the display reaches 65 at once, the two
    superseded timers are gone, and the surviving one sends a single
    [setVolume(65)]. *)
Example three_ticks_one_write :
  ∃ w', run [EDialRotate tick1; EDialRotate tick2; EDialRotate tick3; ETimer 3] connectedWorld
        = Some w'
    ∧ emitted connectedWorld w'
      = [SetFeedback 7 55 Full;
         SetSettings 7 (mkSettings (Some "192.168.1.20") (Some 55) (Some 5));
         SetFeedback 7 60 Full;
         SetSettings 7 (mkSettings (Some "192.168.1.20") (Some 60) (Some 5));
         SetFeedback 7 65 Full;
         SetSettings 7 (mkSettings (Some "192.168.1.20") (Some 65) (Some 5));
         SetVolume (mkSonos "192.168.1.20" 0) 65]
    ∧ handle (ETimer 1) (rotateBurst [tick1; tick2; tick3] connectedWorld) = None
    ∧ handle (ETimer 2) (rotateBurst [tick1; tick2; tick3] connectedWorld) = None.
Proof. eexists. vm_compute. repeat split; reflexivity. Qed.

(** The same three ticks with a poll cycle running between them: the poll
    wake expires after the first tick and its reads settle after the
    second (the result is discarded, a rotation being in progress).  Still
    only the last tick's timer is left, and it sends a single
    [setVolume(65)]. *)
Example three_ticks_across_a_poll :
  ∃ w', run (busyWindow ++ [EDialRotate tick3; ETimer 4]) connectedWorld = Some w'
    ∧ window (busyWindow ++ [EDialRotate tick3]) connectedWorld = Some afterWindow
    ∧ setVolumeCalls (emitted connectedWorld afterWindow) = []
    ∧ setVolumeCalls (emitted connectedWorld w') = [65]
    ∧ handle (ETimer 1) afterWindow = None
    ∧ handle (ETimer 2) afterWindow = None.
Proof. eexists. vm_compute. repeat split; reflexivity. Qed.

(** * Further properties of the dial action *)

(** ** Poller bookkeeping *)

Ltac poller_tac :=
  unfold poller_ok, active in *; wsimpl;
  repeat match goal with
  | H : ?x = Some _ |- context [?x] => rewrite H
  | H : ?x = None |- context [?x] => rewrite H
  end;
  intuition congruence.

Lemma poller_frame w w' :
  pollInterval w' = pollInterval w → currentAction w' = currentAction w →
  currentSettings w' = currentSettings w → pollTimeoutId w' = pollTimeoutId w →
  poller_ok w → poller_ok w'.
Proof. unfold poller_ok, active. by intros -> -> -> ->. Qed.

Lemma poller_set_currentSettings st w :
  poller_ok w → poller_ok (set_currentSettings (Some st) w).
Proof. poller_tac. Qed.

Lemma poller_set_currentAction a w :
  poller_ok w → poller_ok (set_currentAction (Some a) w).
Proof. poller_tac. Qed.

Lemma poller_stopPolling w : poller_ok (stopPolling w).
Proof. unfold stopPolling. repeat case_match; poller_tac. Qed.

Lemma poller_pollFinally w : poller_ok w → poller_ok (pollFinally w).
Proof.
  intros Hok. unfold pollFinally. destruct (active w) eqn:Ha; [| exact Hok].
  case_match; poller_tac.
Qed.

Lemma poller_pollWithDelay w : poller_ok w → poller_ok (pollWithDelay w).
Proof.
  intros Hok. unfold pollWithDelay.
  repeat case_match; try done;
    try (apply poller_pollFinally, poller_stopPolling);
    revert Hok; by apply poller_frame.
Qed.

Lemma poller_pollResume r w : poller_ok w → poller_ok (pollResume r w).
Proof.
  intros Hok. unfold pollResume. apply poller_pollFinally.
  repeat case_match; revert Hok; by apply poller_frame.
Qed.

Lemma poller_startPolling a w : poller_ok w → poller_ok (startPolling a w).
Proof.
  intros Hok. unfold startPolling. destruct (active w) eqn:Ha; [exact Hok |].
  set (w1 := set_currentAction _ _).
  assert (H1 : pollInterval w1 = None ∧ pollTimeoutId w1 = None
               ∧ currentAction w1 = Some a ∧ currentSettings w1 = currentSettings w).
  { subst w1. destruct Hok as (Hf & _). unfold active in Ha.
    destruct (pollInterval w) as [[]|] eqn:Ep; [done | congruence |].
    destruct (pollTimeoutId w) eqn:Et; wsimpl; by rewrite ?Ep, ?Et. }
  destruct H1 as (Hp & Ht & Hca & Hcs).
  destruct (currentSettings w1) as [st|] eqn:Hst.
  - apply poller_pollWithDelay. poller_tac.
  - poller_tac.
Qed.

Lemma poller_onDialUp ev w : poller_ok w → poller_ok (onDialUp ev w).
Proof.
  intros Hok. unfold onDialUp.
  set (w0 := setFeedback _ _ _ _).
  assert (H0 : poller_ok w0) by (revert Hok; by apply poller_frame).
  clearbody w0.
  destruct (truthy _) as [ip|]; [| revert H0; by apply poller_frame].
  set (w2 := match sonos w0 with Some _ => w0 | None => _ end).
  assert (H2 : poller_ok w2).
  { subst w2. destruct (sonos w0); [exact H0 |].
    assert (H1 : poller_ok (connect ip w0)) by (revert H0; by apply poller_frame).
    destruct (pollInterval (connect ip w0)); [exact H1 |].
    by apply poller_startPolling. }
  clearbody w2.
  destruct (sonos w2); revert H2; by apply poller_frame.
Qed.

Lemma poller_handle e w w' : poller_ok w → handle e w = Some w' → poller_ok w'.
Proof.
  intros Hok. destruct e; cbn [handle].
  - intros [= <-]. unfold onWillAppear.
    destruct (negb (ae_isDial ev)); [exact Hok |].
    assert (poller_ok (set_currentSettings (Some (ae_settings ev))
                         (set_currentAction (Some (ae_action ev)) w)))
      by by apply poller_set_currentSettings, poller_set_currentAction.
    case_match; revert H; by apply poller_frame.
  - intros [= <-]. apply poller_stopPolling.
  - intros [= <-]. unfold onDialRotate.
    assert (poller_ok (set_currentSettings (Some (re_settings ev)) w))
      by by apply poller_set_currentSettings.
    repeat case_match; revert H; by apply poller_frame.
  - intros [= <-]. by apply poller_onDialUp.
  - intros [= <-].
    change (onTouchTap ev w)
      with (onDialUp (mkDialUpEvent (tt_action ev) (tt_settings ev)) w).
    by apply poller_onDialUp.
  - intros [= <-]. rewrite onDidReceiveSettings_stores_only.
    case_match; [by apply poller_set_currentSettings | exact Hok].
  - unfold fireTimer. destruct (timers w !! id) as [t|]; [| done]. intros [= <-].
    destruct (callback t); cbn [runCallback].
    + unfold pollTimer.
      destruct (active _) eqn:Ha; [apply poller_pollWithDelay |]; poller_tac.
    + unfold volumeTimer, sendVolume, volumeFinally, volumeCatch.
      repeat case_match;
        try (revert Hok; by apply poller_frame);
        (apply poller_startPolling; revert Hok; by apply poller_frame).
  - unfold settleRead. repeat case_match; try done. intros [= <-].
    destruct k; cbn [resumeRead].
    + apply poller_pollResume. revert Hok. by apply poller_frame.
    + unfold appearResume. repeat case_match.
      * apply poller_startPolling. revert Hok. by apply poller_frame.
      * revert Hok. by apply poller_frame.
    + unfold settingsResume. repeat case_match.
      * apply poller_startPolling. revert Hok. by apply poller_frame.
      * revert Hok. by apply poller_frame.
  - unfold settleWrite. repeat case_match; try done. intros [= <-].
    destruct k; cbn [resumeWrite];
      unfold unmuteResume, setVolumeResume, toggleResume, sendVolume, volumeFinally,
        volumeCatch;
      repeat case_match;
        try (revert Hok; by apply poller_frame);
        (apply poller_startPolling; revert Hok; by apply poller_frame).
Qed.

Lemma reachable_poller_ok w : reachable w → poller_ok w.
Proof.
  induction 1 as [| e w w' _ IH Hstep]; [| by eapply poller_handle].
  unfold initial. poller_tac.
Qed.

(** ** Timer delays *)

Ltac delays_tac :=
  unfold delays_ok in *; wsimpl;
  intros ?id ?t ?Hl;
  repeat match goal with
  | H : <[_ := _]> _ !! _ = Some _ |- _ => apply lookup_insert_Some in H as [[<- <-]|[? H]]
  | H : delete _ _ !! _ = Some _ |- _ => apply lookup_delete_Some in H as [? H]
  end;
  first [reflexivity | eauto].

Lemma delays_frame w w' : timers w' = timers w → delays_ok w → delays_ok w'.
Proof. unfold delays_ok. by intros ->. Qed.

Lemma delays_stopPolling w : delays_ok w → delays_ok (stopPolling w).
Proof. unfold stopPolling. intros Hok. repeat case_match; delays_tac. Qed.

Lemma delays_pollFinally w : delays_ok w → delays_ok (pollFinally w).
Proof. unfold pollFinally. intros Hok. repeat case_match; delays_tac. Qed.

Lemma delays_pollWithDelay w : delays_ok w → delays_ok (pollWithDelay w).
Proof.
  unfold pollWithDelay. intros Hok.
  repeat case_match; try done;
    try (by apply delays_pollFinally, delays_stopPolling);
    revert Hok; by apply delays_frame.
Qed.

Lemma delays_startPolling a w : delays_ok w → delays_ok (startPolling a w).
Proof.
  unfold startPolling. intros Hok.
  repeat case_match; try apply delays_pollWithDelay; delays_tac.
Qed.

Lemma delays_volumeFinally a w : delays_ok w → delays_ok (volumeFinally a w).
Proof.
  intros Hok. unfold volumeFinally. apply delays_startPolling.
  revert Hok. by apply delays_frame.
Qed.

Lemma delays_handle e w w' : delays_ok w → handle e w = Some w' → delays_ok w'.
Proof.
  intros Hok. destruct e; cbn [handle].
  - intros [= <-]. unfold onWillAppear.
    repeat case_match; revert Hok; by apply delays_frame.
  - intros [= <-]. unfold onWillDisappear. apply delays_stopPolling.
    repeat case_match; delays_tac.
  - intros [= <-]. unfold onDialRotate. repeat case_match; delays_tac.
  - intros [= <-]. unfold onDialUp.
    set (w0 := setFeedback _ _ _ _).
    assert (H0 : delays_ok w0) by (revert Hok; by apply delays_frame).
    clearbody w0.
    destruct (truthy _) as [ip|]; [| revert H0; by apply delays_frame].
    set (w2 := match sonos w0 with Some _ => w0 | None => _ end).
    assert (H2 : delays_ok w2).
    { subst w2. destruct (sonos w0); [exact H0 |].
      assert (H1 : delays_ok (connect ip w0)) by (revert H0; by apply delays_frame).
      destruct (pollInterval (connect ip w0)); [exact H1 |].
      by apply delays_startPolling. }
    clearbody w2.
    destruct (sonos w2); revert H2; by apply delays_frame.
  - intros [= <-]. unfold onTouchTap.
    set (w0 := setFeedback _ _ _ _).
    assert (H0 : delays_ok w0) by (revert Hok; by apply delays_frame).
    clearbody w0.
    destruct (truthy _) as [ip|]; [| revert H0; by apply delays_frame].
    set (w2 := match sonos w0 with Some _ => w0 | None => _ end).
    assert (H2 : delays_ok w2).
    { subst w2. destruct (sonos w0); [exact H0 |].
      assert (H1 : delays_ok (connect ip w0)) by (revert H0; by apply delays_frame).
      destruct (pollInterval (connect ip w0)); [exact H1 |].
      by apply delays_startPolling. }
    clearbody w2.
    destruct (sonos w2); revert H2; by apply delays_frame.
  - intros [= <-]. rewrite onDidReceiveSettings_stores_only.
    case_match; [| exact Hok]. revert Hok. by apply delays_frame.
  - unfold fireTimer. destruct (timers w !! id) as [t|]; [| done]. intros [= <-].
    assert (H0 : delays_ok (clearTimeout id w)) by delays_tac.
    destruct (callback t); cbn [runCallback].
    + unfold pollTimer. case_match; [apply delays_pollWithDelay |];
        revert H0; by apply delays_frame.
    + unfold volumeTimer, sendVolume, volumeCatch.
      repeat case_match;
        try (revert H0; by apply delays_frame);
        (apply delays_volumeFinally; revert H0; by apply delays_frame).
  - unfold settleRead. repeat case_match; try done. intros [= <-].
    destruct k; cbn [resumeRead].
    + unfold pollResume. apply delays_pollFinally.
      repeat case_match; revert Hok; by apply delays_frame.
    + unfold appearResume. repeat case_match.
      * apply delays_startPolling. revert Hok. by apply delays_frame.
      * revert Hok. by apply delays_frame.
    + unfold settingsResume. repeat case_match.
      * apply delays_startPolling. revert Hok. by apply delays_frame.
      * revert Hok. by apply delays_frame.
  - unfold settleWrite. repeat case_match; try done. intros [= <-].
    destruct k; cbn [resumeWrite];
      unfold unmuteResume, setVolumeResume, toggleResume, sendVolume, volumeCatch;
      repeat case_match;
        try (revert Hok; by apply delays_frame);
        (apply delays_volumeFinally; revert Hok; by apply delays_frame).
Qed.

Lemma reachable_delays_ok w : reachable w → delays_ok w.
Proof.
  induction 1 as [| e w w' _ IH Hstep]; [| by eapply delays_handle].
  unfold delays_ok, initial. cbn [timers]. intros id t H. by rewrite lookup_empty in H.
Qed.

(** X1. In every world the instance can reach, at most one poll wake and at
    most one debounced write are pending, each armed with the delay of its
    kind (3000 ms and 500 ms), and each is the timer its handle field
    refers to. *)
Theorem one_timer_per_kind (w : World) (i j : nat) (ti tj : Timer) :
  reachable w →
  timers w !! i = Some ti →
  timers w !! j = Some tj →
  isWake (callback ti) = isWake (callback tj) →
  i = j
  ∧ delay ti = delayOf (callback ti)
  ∧ (if isWake (callback ti) then pollTimeoutId w else volumeChangeTimeout w) = Some i.
Proof.
  intros Hr Hi Hj Hk.
  destruct (reachable_timers_ok w Hr i ti Hi) as [_ Hoi].
  destruct (reachable_timers_ok w Hr j tj Hj) as [_ Hoj].
  pose proof (reachable_delays_ok w Hr i ti Hi) as Hd.
  unfold owned in *.
  destruct (callback ti), (callback tj); cbn [isWake] in *; try done;
    (split; [congruence | by split]).
Qed.

Lemma one_timer_per_kind_witness :
  1%nat = 1%nat
  ∧ delay (mkTimer 500 (VolumeChange 7 "192.168.1.20" 60))
    = delayOf (callback (mkTimer 500 (VolumeChange 7 "192.168.1.20" 60)))
  ∧ (if isWake (callback (mkTimer 500 (VolumeChange 7 "192.168.1.20" 60)))
     then pollTimeoutId spinningWorld else volumeChangeTimeout spinningWorld) = Some 1%nat.
Proof.
  apply (one_timer_per_kind spinningWorld 1 1
           (mkTimer 500 (VolumeChange 7 "192.168.1.20" 60))
           (mkTimer 500 (VolumeChange 7 "192.168.1.20" 60))).
  - apply (reachable_run
             [EWillAppear (mkAppearEvent 7 true lounge);
              ERead 0 (Some (50, false));
              ERead 1 (Some (50, false));
              EDialRotate (mkRotateEvent 7 lounge 2)] initial);
      [apply reachable_initial | vm_compute; reflexivity].
  - vm_compute. reflexivity.
  - vm_compute. reflexivity.
  - reflexivity.
Defined.

(** X2. In every reachable world a pending poll wake means the poller is
    active with an action and settings bound: stopping the poller never
    leaves a wake behind, and the poll flag object is never left inactive. *)
Theorem pending_wake_means_active (w : World) (id : nat) (t : Timer) :
  reachable w →
  timers w !! id = Some t →
  callback t = PollWake →
  pollInterval w = Some true
  ∧ pollTimeoutId w = Some id
  ∧ currentAction w ≠ None
  ∧ currentSettings w ≠ None.
Proof.
  intros Hr Hid Hcb.
  destruct (reachable_timers_ok w Hr id t Hid) as [_ Ho].
  unfold owned in Ho. rewrite Hcb in Ho.
  destruct (reachable_poller_ok w Hr) as (Hf & Hb & Ha).
  assert (Hact : active w = true) by (apply Ha; congruence).
  destruct (Hb Hact) as [Hca Hcs].
  repeat split; try done.
  unfold active in Hact. destruct (pollInterval w) as [[]|]; done.
Qed.

Lemma pending_wake_means_active_witness :
  pollInterval connectedWorld = Some true
  ∧ pollTimeoutId connectedWorld = Some 0%nat
  ∧ currentAction connectedWorld ≠ None
  ∧ currentSettings connectedWorld ≠ None.
Proof.
  apply (pending_wake_means_active connectedWorld 0 (mkTimer 3000 PollWake)).
  - apply (reachable_run
             [EWillAppear (mkAppearEvent 7 true lounge);
              ERead 0 (Some (50, false));
              ERead 1 (Some (50, false))] initial);
      [apply reachable_initial | vm_compute; reflexivity].
  - vm_compute. reflexivity.
  - reflexivity.
Defined.

(** ** Teardown, again *)

Lemma stopPolling_idempotent w : stopPolling (stopPolling w) = stopPolling w.
Proof.
  destruct w as [so lkv im pi pt ca cs vct ir tm nt aw na nc tr].
  unfold stopPolling. wsimpl. destruct pi, pt; reflexivity.
Qed.

(** X3. Tearing down twice is the same as tearing down once:
    [onWillDisappear] (and with it [stopPolling]) is idempotent. *)
Theorem teardown_idempotent (w : World) :
  onWillDisappear (onWillDisappear w) = onWillDisappear w
  ∧ stopPolling (stopPolling w) = stopPolling w.
Proof.
  split; [| apply stopPolling_idempotent].
  destruct (onWillDisappear_fields w) as (Hv & _).
  unfold onWillDisappear at 1. rewrite Hv.
  unfold onWillDisappear. apply stopPolling_idempotent.
Qed.

(** ** Mute toggles *)

(** A toggle always flips the cached flag and leaves the cached volume; with
    an address it sends exactly one [setMuted], carrying the new flag. *)
Lemma onDialUp_flips ev w :
  isMuted (onDialUp ev w) = negb (isMuted w)
  ∧ lastKnownVolume (onDialUp ev w) = lastKnownVolume w
  ∧ ∃ d, trace (onDialUp ev w) = trace w ++ d
       ∧ setVolumeCalls d = []
       ∧ setMutedCalls d
         = match truthy (speakerIp (du_settings ev)) with
           | Some _ => [negb (isMuted w)]
           | None => []
           end.
Proof.
  unfold onDialUp.
  destruct (truthy (speakerIp (du_settings ev))) as [ip|] eqn:Hip.
  2: { wsimpl. repeat split. eexists. by rewrite <- !app_assoc. }
  set (w0 := setFeedback _ _ _ _).
  assert (Ht0 : trace w0 = trace w ++ [SetFeedback (du_action ev) (lastKnownVolume w)
                                         (opacity (negb (isMuted w)))]) by reflexivity.
  assert (Hm0 : isMuted w0 = negb (isMuted w)) by reflexivity.
  assert (Hv0 : lastKnownVolume w0 = lastKnownVolume w) by reflexivity.
  clearbody w0.
  set (w2 := match sonos w0 with Some _ => w0 | None => _ end).
  assert (H2 : isMuted w2 = isMuted w0 ∧ lastKnownVolume w2 = lastKnownVolume w0
               ∧ sonos w2 ≠ None
               ∧ ∃ d, trace w2 = trace w0 ++ d ∧ setVolumeCalls d = []
                      ∧ setMutedCalls d = []).
  { subst w2. destruct (sonos w0) eqn:Hs0.
    - repeat split; [congruence |]. exists []. by rewrite app_nil_r.
    - set (w1 := connect ip w0).
      assert (Hs1 : sonos w1 = Some (fresh ip w0)) by reflexivity.
      destruct (pollInterval w1).
      + repeat split; [congruence |]. by eexists.
      + destruct (startPolling_cache (du_action ev) w1) as (-> & ->).
        repeat split.
        * destruct (startPolling_pollStart (du_action ev) w1)
            as [(_ & ->) | [(s & _ & -> & _) | (ip' & Hn & _)]]; congruence.
        * destruct (startPolling_pollStart (du_action ev) w1)
            as [(Ht & _) | [(s & _ & _ & Ht) | (ip' & Hn & _)]];
            [| | congruence]; rewrite Ht; subst w1; unfold connect; wsimpl;
            rewrite <- ?app_assoc; by eexists. }
  destruct H2 as (Hm2 & Hv2 & Hs2 & d & Ht2 & Hd1 & Hd2).
  clearbody w2.
  destruct (sonos w2) as [s|]; [| done]. wsimpl.
  rewrite Hm2, Hv2, Hm0, Hv0. repeat split.
  exists ([SetFeedback (du_action ev) (lastKnownVolume w) (opacity (negb (isMuted w)))]
            ++ d ++ [SetMuted s (negb (isMuted w))]).
  split; [by rewrite Ht2, Ht0, <- !app_assoc |].
  unfold setVolumeCalls, setMutedCalls in *.
  rewrite !omap_app, Hd1, Hd2. by split.
Qed.

Lemma toggle_flips e w :
  isToggle e = true →
  ∃ w', handle e w = Some w'
    ∧ isMuted w' = negb (isMuted w)
    ∧ lastKnownVolume w' = lastKnownVolume w
    ∧ ∃ d, trace w' = trace w ++ d
         ∧ setVolumeCalls d = []
         ∧ setMutedCalls d
           = match inputAddress e with
             | Some _ => [negb (isMuted w)]
             | None => []
             end.
Proof.
  destruct e; try done; intros _; cbn [handle]; eexists; (split; [reflexivity |]).
  - apply onDialUp_flips.
  - change (onTouchTap ev w)
      with (onDialUp (mkDialUpEvent (tt_action ev) (tt_settings ev)) w).
    apply (onDialUp_flips (mkDialUpEvent (tt_action ev) (tt_settings ev)) w).
Qed.

(** X4. Two mute toggles in a row (each a press or a tap, each carrying a
    speaker address) bring the cached mute flag back to where it was, leave
    the cached volume alone, send no [setVolume], and send exactly two
    [setMuted] calls: the flipped flag, then the original one.  Toggles are
    not debounced or coalesced. *)
Theorem double_toggle_restores (w : World) (e1 e2 : Event) :
  isToggle e1 = true → isToggle e2 = true →
  inputAddress e1 ≠ None → inputAddress e2 ≠ None →
  ∃ w2, run [e1; e2] w = Some w2
    ∧ isMuted w2 = isMuted w
    ∧ lastKnownVolume w2 = lastKnownVolume w
    ∧ setMutedCalls (emitted w w2) = [negb (isMuted w); isMuted w]
    ∧ setVolumeCalls (emitted w w2) = [].
Proof.
  intros H1 H2 Ha1 Ha2.
  destruct (toggle_flips e1 w H1) as (w1 & Hh1 & Hm1 & Hv1 & d1 & Ht1 & Hdv1 & Hdm1).
  destruct (toggle_flips e2 w1 H2) as (w2 & Hh2 & Hm2 & Hv2 & d2 & Ht2 & Hdv2 & Hdm2).
  exists w2. rewrite (run_cons _ _ _ _ Hh1), (run_cons _ _ _ _ Hh2).
  split; [reflexivity |].
  split; [by rewrite Hm2, Hm1, negb_involutive |].
  split; [congruence |].
  assert (Ht : trace w2 = trace w ++ (d1 ++ d2)) by (by rewrite Ht2, Ht1, app_assoc).
  rewrite (emitted_app _ _ _ Ht).
  unfold setMutedCalls, setVolumeCalls in *. rewrite !omap_app.
  rewrite Hdm1, Hdm2, Hdv1, Hdv2, Hm1, negb_involutive.
  destruct (inputAddress e1), (inputAddress e2); done.
Qed.

Lemma double_toggle_restores_witness :
  ∃ w2, run [EDialUp (mkDialUpEvent 7 lounge);
             ETouchTap (mkTouchTapEvent 7 lounge false (10, 20))] connectedWorld = Some w2
    ∧ isMuted w2 = isMuted connectedWorld
    ∧ lastKnownVolume w2 = lastKnownVolume connectedWorld
    ∧ setMutedCalls (emitted connectedWorld w2)
      = [negb (isMuted connectedWorld); isMuted connectedWorld]
    ∧ setVolumeCalls (emitted connectedWorld w2) = [].
Proof.
  apply (double_toggle_restores connectedWorld
           (EDialUp (mkDialUpEvent 7 lounge))
           (ETouchTap (mkTouchTapEvent 7 lounge false (10, 20))));
    try reflexivity; vm_compute; discriminate.
Defined.

(** X5. When the [setMuted] of a toggle rejects, the optimistic state
    stays: the cached flag and volume are not reverted and no feedback is
    pushed; the client object is dropped, one alert is shown, and the
    poller and its timers are left alone.  When it resolves, nothing at all
    happens. *)
Theorem toggle_failure_keeps_optimistic_state (w : World) (id : nat) (a : DialAction) :
  awaits w !! id = Some (AwaitWrite (KToggle a)) →
  (∃ w', handle (EWrite id false) w = Some w'
     ∧ isMuted w' = isMuted w
     ∧ lastKnownVolume w' = lastKnownVolume w
     ∧ sonos w' = None
     ∧ emitted w w' = [ShowAlert a "Failed to toggle mute"]
     ∧ pollInterval w' = pollInterval w
     ∧ timers w' = timers w)
  ∧ handle (EWrite id true) w = Some (settled id w).
Proof.
  intros Hk. cbn [handle]. unfold settleWrite. rewrite Hk. cbn [resumeWrite toggleResume].
  split; [| reflexivity].
  eexists. split; [reflexivity |]. repeat split. by apply emitted_app.
Qed.

Lemma toggle_failure_keeps_optimistic_state_witness :
  (∃ w', handle (EWrite 2 false) (onDialUp (mkDialUpEvent 7 lounge) connectedWorld) = Some w'
     ∧ isMuted w' = isMuted (onDialUp (mkDialUpEvent 7 lounge) connectedWorld)
     ∧ lastKnownVolume w' = lastKnownVolume (onDialUp (mkDialUpEvent 7 lounge) connectedWorld)
     ∧ sonos w' = None
     ∧ emitted (onDialUp (mkDialUpEvent 7 lounge) connectedWorld) w'
       = [ShowAlert 7 "Failed to toggle mute"]
     ∧ pollInterval w' = pollInterval (onDialUp (mkDialUpEvent 7 lounge) connectedWorld)
     ∧ timers w' = timers (onDialUp (mkDialUpEvent 7 lounge) connectedWorld))
  ∧ handle (EWrite 2 true) (onDialUp (mkDialUpEvent 7 lounge) connectedWorld)
    = Some (settled 2 (onDialUp (mkDialUpEvent 7 lounge) connectedWorld)).
Proof.
  apply (toggle_failure_keeps_optimistic_state
           (onDialUp (mkDialUpEvent 7 lounge) connectedWorld) 2 7).
  vm_compute. reflexivity.
Defined.

(** ** Completion of the debounced write *)

Lemma pollWithDelay_frame w :
  isRotating (pollWithDelay w) = isRotating w
  ∧ volumeChangeTimeout (pollWithDelay w) = volumeChangeTimeout w.
Proof.
  unfold pollWithDelay.
  repeat case_match; try done;
    unfold pollFinally, stopPolling; by repeat case_match.
Qed.

Lemma startPolling_frame a w :
  isRotating (startPolling a w) = isRotating w
  ∧ volumeChangeTimeout (startPolling a w) = volumeChangeTimeout w.
Proof.
  unfold startPolling.
  destruct (active w); [done |].
  set (w1 := set_currentAction _ _).
  assert (H1 : isRotating w1 = isRotating w
               ∧ volumeChangeTimeout w1 = volumeChangeTimeout w)
    by (subst w1; by repeat case_match).
  destruct H1 as (<- & <-).
  destruct (currentSettings w1); [| done].
  apply (pollWithDelay_frame (set_pollInterval (Some true) w1)).
Qed.

(** With settings that carry an address, [startPolling] leaves the poller
    active, whatever state it was in. *)
Lemma startPolling_active a w st :
  pollInterval w ≠ Some false →
  currentSettings w = Some st → truthy (speakerIp st) ≠ None →
  active (startPolling a w) = true.
Proof.
  intros Hf Hst Hip. unfold startPolling.
  destruct (active w) eqn:Ha; [exact Ha |].
  set (w1 := set_currentAction _ _).
  assert (H1 : currentSettings w1 = Some st ∧ currentAction w1 = Some a
               ∧ sonos w1 = sonos w)
    by (subst w1; repeat case_match; by wsimpl).
  destruct H1 as (Hst1 & Hca1 & _). rewrite Hst1.
  unfold pollWithDelay. wsimpl. rewrite Hca1, Hst1.
  destruct (sonos w1); [reflexivity |].
  destruct (truthy (speakerIp st)); [reflexivity | done].
Qed.

(** X6. When the [setVolume] of a debounced write settles, either way, the
    rotation flag is cleared, no further [setVolume] is sent, an alert is
    shown exactly when it rejected, and — if the settings in force carry a
    speaker address — the poller is running afterwards. *)
Theorem write_completion_resumes_polling
    (w : World) (id : nat) (a : DialAction) (ok : bool) :
  reachable w →
  awaits w !! id = Some (AwaitWrite (KSetVolume a)) →
  ∃ w', handle (EWrite id ok) w = Some w'
    ∧ isRotating w' = false
    ∧ setVolumeCalls (emitted w w') = []
    ∧ alerts (emitted w w') = (if ok then [] else ["Failed to update volume"])
    ∧ lastKnownVolume w' = lastKnownVolume w
    ∧ isMuted w' = isMuted w
    ∧ ∀ st, currentSettings w = Some st → truthy (speakerIp st) ≠ None →
        active w' = true.
Proof.
  intros Hr Hk. cbn [handle]. unfold settleWrite. rewrite Hk. cbn [resumeWrite].
  eexists. split; [reflexivity |].
  destruct (reachable_poller_ok w Hr) as (Hf & _).
  set (w0 := settled id w).
  assert (Hq : volumesSent w (setVolumeResume a ok w0) [])
    by apply (setVolumeResume_sends_nothing a ok w0).
  unfold setVolumeResume, volumeFinally in *.
  set (w1 := if ok then w0 else volumeCatch a w0).
  assert (Hw1 : (if ok then startPolling a (set_isRotating false w0)
                 else startPolling a (set_isRotating false (volumeCatch a w0)))
                = startPolling a (set_isRotating false w1)) by (by destruct ok).
  rewrite Hw1 in *. clear Hw1.
  set (w2 := set_isRotating false w1).
  destruct (startPolling_frame a w2) as (Hrot & _).
  destruct (startPolling_cache a w2) as (Hm & Hv).
  split; [by rewrite Hrot |].
  split; [by apply volumesSent_emitted |].
  split.
  { assert (Ht2 : trace w2 = trace w ++ (if ok then [] else [ShowAlert a "Failed to update volume"])).
    { subst w2 w1 w0. destruct ok; wsimpl; [by rewrite app_nil_r | reflexivity]. }
    destruct (startPolling_pollStart a w2)
      as [(Ht & _) | [(s & _ & _ & Ht) | (ip & _ & _ & Ht)]];
      rewrite Ht2, <- ?app_assoc in Ht; rewrite (emitted_app _ _ _ Ht);
      destruct ok; reflexivity. }
  split; [rewrite Hv; subst w2 w1 w0; by destruct ok |].
  split; [rewrite Hm; subst w2 w1 w0; by destruct ok |].
  intros st Hst Hip. apply (startPolling_active a w2 st); [| | exact Hip].
  - subst w2 w1 w0. by destruct ok.
  - subst w2 w1 w0. by destruct ok.
Qed.

Lemma write_completion_resumes_polling_witness :
  ∃ w', handle (EWrite 2 true) writingWorld = Some w'
    ∧ isRotating w' = false
    ∧ setVolumeCalls (emitted writingWorld w') = []
    ∧ alerts (emitted writingWorld w') = (if true then [] else ["Failed to update volume"])
    ∧ lastKnownVolume w' = lastKnownVolume writingWorld
    ∧ isMuted w' = isMuted writingWorld
    ∧ ∀ st, currentSettings writingWorld = Some st → truthy (speakerIp st) ≠ None →
        active w' = true.
Proof.
  apply (write_completion_resumes_polling writingWorld 2 7 true).
  - apply (reachable_run
             [EWillAppear (mkAppearEvent 7 true lounge);
              ERead 0 (Some (50, false));
              ERead 1 (Some (50, false));
              EDialRotate (mkRotateEvent 7 lounge 2);
              ETimer 1] initial);
      [apply reachable_initial | vm_compute; reflexivity].
  - vm_compute. reflexivity.
Defined.

(** ** Poll results *)



(** X8. When the reads of a poll cycle resolve with exactly the cached
    volume and mute flag, nothing is pushed to the host and the cache and
    the client are left as they are, rotating or not. *)
Theorem poll_unchanged_is_silent (w : World) (id : nat) :
  awaits w !! id = Some (AwaitRead KPoll) →
  ∃ w', handle (ERead id (Some (lastKnownVolume w, isMuted w))) w = Some w'
    ∧ emitted w w' = []
    ∧ lastKnownVolume w' = lastKnownVolume w
    ∧ isMuted w' = isMuted w
    ∧ sonos w' = sonos w.
Proof.
  intros Hk. cbn [handle]. unfold settleRead. rewrite Hk. cbn [resumeRead].
  eexists. split; [reflexivity |]. unfold pollResume.
  cbn [isRotating lastKnownVolume isMuted settled].
  rewrite Z.eqb_refl, eqb_reflx. cbn [negb orb andb].
  destruct (pollFinally_cache (settled id w)) as (Hv & Hm & Hs & _).
  rewrite Hv, Hm, Hs. repeat split.
  apply emitted_refl. by rewrite pollFinally_trace.
Qed.

Lemma poll_unchanged_is_silent_witness :
  ∃ w', handle (ERead 2 (Some (lastKnownVolume spinningPollWorld, isMuted spinningPollWorld)))
          spinningPollWorld = Some w'
    ∧ emitted spinningPollWorld w' = []
    ∧ lastKnownVolume w' = lastKnownVolume spinningPollWorld
    ∧ isMuted w' = isMuted spinningPollWorld
    ∧ sonos w' = sonos spinningPollWorld.
Proof.
  apply (poll_unchanged_is_silent spinningPollWorld 2). vm_compute. reflexivity.
Defined.

(** X9. A poll wake that fires when there is no client object and the
    settings in force carry no speaker address shuts the poller down: the
    poll flag, the wake handle, the bound action and the bound settings are
    cleared, no wake is pending any more, and nothing is sent or shown. *)
Theorem poll_without_address_stops (w : World) (id : nat) (t : Timer) (st : Settings) :
  reachable w →
  timers w !! id = Some t →
  callback t = PollWake →
  sonos w = None →
  currentSettings w = Some st →
  truthy (speakerIp st) = None →
  ∃ w', handle (ETimer id) w = Some w'
    ∧ pollInterval w' = None
    ∧ pollTimeoutId w' = None
    ∧ currentAction w' = None
    ∧ currentSettings w' = None
    ∧ emitted w w' = []
    ∧ timers w' = delete id (timers w)
    ∧ ∀ i ti, timers w' !! i = Some ti → callback ti ≠ PollWake.
Proof.
  intros Hr Hid Hcb Hs Hst Hip.
  destruct (reachable_timers_ok w Hr id t Hid) as [_ Ho].
  unfold owned in Ho. rewrite Hcb in Ho.
  destruct (reachable_poller_ok w Hr) as (Hf & Hb & Ha).
  assert (Hact : active w = true) by (apply Ha; congruence).
  destruct (Hb Hact) as [Hca _].
  destruct (currentAction w) as [a|] eqn:Eca; [| done].
  cbn [handle]. unfold fireTimer. rewrite Hid, Hcb. cbn [runCallback].
  eexists. split; [reflexivity |].
  unfold pollTimer.
  set (w1 := set_pollTimeoutId None (clearTimeout id w)).
  change (active w1) with (active w). rewrite Hact.
  unfold pollWithDelay.
  change (active w1) with (active w). change (currentAction w1) with (currentAction w).
  change (currentSettings w1) with (currentSettings w). change (sonos w1) with (sonos w).
  rewrite Hact, Eca, Hst, Hs, Hip. cbn [negb].
  assert (Hstop : pollFinally (stopPolling w1) = stopPolling w1).
  { apply pollFinally_stopped. unfold active.
    by destruct (stopPolling_frame w1) as (_ & _ & _ & _ & _ & ->). }
  rewrite Hstop.
  assert (Hw : stopPolling w1
               = set_currentSettings None (set_currentAction None (set_pollInterval None w1))).
  { unfold stopPolling. subst w1. wsimpl. unfold active in Hact.
    destruct (pollInterval w) as [b|]; [reflexivity | done]. }
  rewrite Hw. subst w1. wsimpl. repeat split.
  - by apply emitted_refl.
  - intros i ti Hi Hc.
    apply lookup_delete_Some in Hi as [Hne Hi].
    destruct (reachable_timers_ok w Hr i ti Hi) as [_ Hoi].
    unfold owned in Hoi. rewrite Hc in Hoi. congruence.
Qed.

Lemma poll_without_address_stops_witness :
  ∃ w', handle (ETimer 1)
          (default initial
             (run [EDialRotate (mkRotateEvent 7 unconfigured 1); ETimer 0; ERead 2 None]
                connectedWorld)) = Some w'
    ∧ pollInterval w' = None
    ∧ pollTimeoutId w' = None
    ∧ currentAction w' = None
    ∧ currentSettings w' = None
    ∧ emitted
        (default initial
           (run [EDialRotate (mkRotateEvent 7 unconfigured 1); ETimer 0; ERead 2 None]
              connectedWorld)) w' = []
    ∧ timers w'
      = delete 1%nat
          (timers
             (default initial
                (run [EDialRotate (mkRotateEvent 7 unconfigured 1); ETimer 0; ERead 2 None]
                   connectedWorld)))
    ∧ ∀ i ti, timers w' !! i = Some ti → callback ti ≠ PollWake.
Proof.
  apply (poll_without_address_stops
           (default initial
              (run [EDialRotate (mkRotateEvent 7 unconfigured 1); ETimer 0; ERead 2 None]
                 connectedWorld))
           1 (mkTimer 3000 PollWake) unconfigured).
  - apply (reachable_run
             [EWillAppear (mkAppearEvent 7 true lounge);
              ERead 0 (Some (50, false));
              ERead 1 (Some (50, false));
              EDialRotate (mkRotateEvent 7 unconfigured 1); ETimer 0; ERead 2 None] initial);
      [apply reachable_initial | vm_compute; reflexivity].
  - vm_compute. reflexivity.
  - reflexivity.
  - vm_compute. reflexivity.
  - vm_compute. reflexivity.
  - reflexivity.
Defined.

(** ** First connection *)






(** ** Rotation arithmetic, again *)

(** X12. With a non-negative step, a rotation never moves the volume
    against the dial: at or above 100 a clockwise turn yields 100, at or
    below 0 a counter-clockwise turn yields 0, zero ticks leave an in-range
    value where it is, and more ticks never give a lower volume. *)
Theorem rotation_follows_the_dial (a : DialAction) (st : Settings) (ticks : Z) (w : World) :
  let v := default (lastKnownVolume w) (value st) in
  let after t := lastKnownVolume (onDialRotate (mkRotateEvent a st t) w) in
  0 ≤ default 5 (volumeStep st) →
  (100 ≤ v → 0 ≤ ticks → after ticks = 100)
  ∧ (v ≤ 0 → ticks ≤ 0 → after ticks = 0)
  ∧ (0 ≤ v ≤ 100 → after 0 = v)
  ∧ (∀ ticks', ticks ≤ ticks' → after ticks ≤ after ticks').
Proof.
  cbv beta zeta. intros Hstep.
  assert (Hnv : ∀ t, lastKnownVolume (onDialRotate (mkRotateEvent a st t) w)
                     = Z.max 0 (Z.min 100 (default (lastKnownVolume w) (value st)
                                           + t * default 5 (volumeStep st)))).
  { intros t. by rewrite onDialRotate_lastKnownVolume. }
  rewrite !Hnv. split; [| split; [| split]].
  - intros Hv Ht. nia.
  - intros Hv Ht. nia.
  - lia.
  - intros ticks' Hle. rewrite Hnv. nia.
Qed.

Lemma rotation_follows_the_dial_witness :
  (100 ≤ default (lastKnownVolume connectedWorld) (value lounge) → 0 ≤ 3 →
   lastKnownVolume (onDialRotate (mkRotateEvent 7 lounge 3) connectedWorld) = 100)
  ∧ (default (lastKnownVolume connectedWorld) (value lounge) ≤ 0 → 3 ≤ 0 →
     lastKnownVolume (onDialRotate (mkRotateEvent 7 lounge 3) connectedWorld) = 0)
  ∧ (0 ≤ default (lastKnownVolume connectedWorld) (value lounge) ≤ 100 →
     lastKnownVolume (onDialRotate (mkRotateEvent 7 lounge 0) connectedWorld)
     = default (lastKnownVolume connectedWorld) (value lounge))
  ∧ (∀ ticks', 3 ≤ ticks' →
     lastKnownVolume (onDialRotate (mkRotateEvent 7 lounge 3) connectedWorld)
     ≤ lastKnownVolume (onDialRotate (mkRotateEvent 7 lounge ticks') connectedWorld)).
Proof.
  apply (rotation_follows_the_dial 7 lounge 3 connectedWorld). vm_compute. discriminate.
Defined.

Lemma hostRotate_lastKnownVolume a ip step t w :
  lastKnownVolume (hostRotate a ip step t w)
  = Z.max 0 (Z.min 100 (lastKnownVolume w + t * default 5 step)).
Proof. unfold hostRotate. by rewrite onDialRotate_lastKnownVolume. Qed.

Lemma hostSpin_up a ip step ticks w :
  0 ≤ default 5 step → 0 ≤ lastKnownVolume w ≤ 100 → Forall (λ t, 0 ≤ t) ticks →
  lastKnownVolume (hostSpin a ip step ticks w)
  = Z.max 0 (Z.min 100 (lastKnownVolume w + sumTicks ticks * default 5 step)).
Proof.
  intros Hstep. revert w. unfold hostSpin.
  induction ticks as [| t ticks IH]; intros w Hv Hall; cbn [foldl sumTicks foldr].
  - lia.
  - inversion Hall as [| ? ? Ht Hall']; subst.
    rewrite IH; [| rewrite hostRotate_lastKnownVolume; lia | exact Hall'].
    rewrite hostRotate_lastKnownVolume. fold (sumTicks ticks).
    assert (0 ≤ sumTicks ticks).
    { clear -Hall'. induction Hall'; cbn [sumTicks foldr]; [lia |].
      fold (sumTicks l). lia. }
    nia.
Qed.

Lemma hostSpin_down a ip step ticks w :
  0 ≤ default 5 step → 0 ≤ lastKnownVolume w ≤ 100 → Forall (λ t, t ≤ 0) ticks →
  lastKnownVolume (hostSpin a ip step ticks w)
  = Z.max 0 (Z.min 100 (lastKnownVolume w + sumTicks ticks * default 5 step)).
Proof.
  intros Hstep. revert w. unfold hostSpin.
  induction ticks as [| t ticks IH]; intros w Hv Hall; cbn [foldl sumTicks foldr].
  - lia.
  - inversion Hall as [| ? ? Ht Hall']; subst.
    rewrite IH; [| rewrite hostRotate_lastKnownVolume; lia | exact Hall'].
    rewrite hostRotate_lastKnownVolume. fold (sumTicks ticks).
    assert (sumTicks ticks ≤ 0).
    { clear -Hall'. induction Hall'; cbn [sumTicks foldr]; [lia |].
      fold (sumTicks l). lia. }
    nia.
Qed.

(** X13. When the host echoes the persisted value with every event and the
    dial is turned in one direction only, a burst of rotations leaves the
    cache at the value of a single rotation by the sum of the ticks:
    [max 0 (min 100 (start + sum * step))], for a non-negative step and an
    in-range start. *)
Theorem one_way_spin_accumulates
    (a : DialAction) (ip : option string) (step : option Z) (ticks : list Z) (w : World) :
  0 ≤ default 5 step →
  0 ≤ lastKnownVolume w ≤ 100 →
  Forall (λ t, 0 ≤ t) ticks ∨ Forall (λ t, t ≤ 0) ticks →
  lastKnownVolume (hostSpin a ip step ticks w)
  = Z.max 0 (Z.min 100 (lastKnownVolume w + sumTicks ticks * default 5 step)).
Proof.
  intros Hstep Hv [Hup | Hdown]; [by apply hostSpin_up | by apply hostSpin_down].
Qed.

Lemma one_way_spin_accumulates_witness :
  lastKnownVolume (hostSpin 7 (Some "192.168.1.20") (Some 10) [3; 4; 5] connectedWorld)
  = Z.max 0 (Z.min 100 (lastKnownVolume connectedWorld
                         + sumTicks [3; 4; 5] * default 5 (Some 10))).
Proof.
  apply (one_way_spin_accumulates 7 (Some "192.168.1.20") (Some 10) [3; 4; 5] connectedWorld).
  - vm_compute. discriminate.
  - vm_compute. split; discriminate.
  - left. repeat constructor; vm_compute; discriminate.
Defined.

(** A turn past the end and back does not accumulate: the overshoot is
    lost at the bound. *)
Example back_and_forth_loses_overshoot :
  lastKnownVolume (hostSpin 7 (Some "192.168.1.20") (Some 10) [8; -8] connectedWorld) = 20
  ∧ Z.max 0 (Z.min 100 (lastKnownVolume connectedWorld + sumTicks [8; -8] * 10)) = 50.
Proof. vm_compute. split; reflexivity. Qed.

(** ** Inputs without a speaker address *)

Lemma onDialRotate_unconfigured ev w :
  truthy (speakerIp (re_settings ev)) = None →
  let w' := onDialRotate ev w in
  trace w' = trace w ++ [SetFeedback (re_action ev) (newValue ev w) (opacity (isMuted w));
                         SetSettings (re_action ev)
                           (withValue (Some (re_settings ev)) (newValue ev w));
                         ShowAlert (re_action ev) "No speaker IP configured"]
  ∧ awaits w' = awaits w ∧ sonos w' = sonos w ∧ nextConn w' = nextConn w
  ∧ isRotating w' = false
  ∧ ∀ id t, timers w' !! id = Some t → timers w !! id = Some t.
Proof.
  intros Hip. cbv zeta. unfold onDialRotate. rewrite Hip.
  destruct (volumeChangeTimeout _) as [id|] eqn:Hv; wsimpl; rewrite <- !app_assoc;
    repeat split; try done.
  intros i t Hi. by apply lookup_delete_Some in Hi as [_ Hi].
Qed.

Lemma onDialUp_unconfigured ev w :
  truthy (speakerIp (du_settings ev)) = None →
  let w' := onDialUp ev w in
  trace w' = trace w ++ [SetFeedback (du_action ev) (lastKnownVolume w)
                           (opacity (negb (isMuted w)));
                         ShowAlert (du_action ev) "No speaker IP configured"]
  ∧ awaits w' = awaits w ∧ sonos w' = sonos w ∧ nextConn w' = nextConn w
  ∧ timers w' = timers w.
Proof.
  intros Hip. cbv zeta. unfold onDialUp. rewrite Hip. wsimpl.
  rewrite <- !app_assoc. by repeat split.
Qed.

(** X14. A rotation, press or tap whose settings carry no usable speaker
    address stays local: no client is built and no call goes to a speaker,
    exactly one alert is shown, no promise is awaited, no timer is armed
    (only a pending debounce timer may be cancelled), and the client field
    is left alone. *)
Theorem input_without_address_stays_local (e : Event) (w : World) :
  isUserInput e = true →
  inputAddress e = None →
  ∃ w', handle e w = Some w'
    ∧ Forall (λ x, onClient x = None) (emitted w w')
    ∧ alerts (emitted w w') = ["No speaker IP configured"]
    ∧ awaits w' = awaits w
    ∧ sonos w' = sonos w
    ∧ nextConn w' = nextConn w
    ∧ ∀ id t, timers w' !! id = Some t → timers w !! id = Some t.
Proof.
  intros Hu Hip. destruct e; try done; cbn [handle]; eexists; (split; [reflexivity |]);
    unfold inputAddress in Hip; cbn [inputSettings mbind option_bind] in Hip.
  - destruct (onDialRotate_unconfigured ev w Hip) as (Ht & Ha & Hs & Hn & _ & Htm).
    rewrite (emitted_app _ _ _ Ht). by repeat split; try repeat constructor.
  - destruct (onDialUp_unconfigured ev w Hip) as (Ht & Ha & Hs & Hn & Htm).
    rewrite (emitted_app _ _ _ Ht), Htm. by repeat split; try repeat constructor.
  - change (onTouchTap ev w)
      with (onDialUp (mkDialUpEvent (tt_action ev) (tt_settings ev)) w).
    destruct (onDialUp_unconfigured (mkDialUpEvent (tt_action ev) (tt_settings ev)) w Hip)
      as (Ht & Ha & Hs & Hn & Htm).
    rewrite (emitted_app _ _ _ Ht), Htm. by repeat split; try repeat constructor.
Qed.

Lemma input_without_address_stays_local_witness :
  ∃ w', handle (EDialRotate (mkRotateEvent 7 unconfigured 1)) spinningWorld = Some w'
    ∧ Forall (λ x, onClient x = None) (emitted spinningWorld w')
    ∧ alerts (emitted spinningWorld w') = ["No speaker IP configured"]
    ∧ awaits w' = awaits spinningWorld
    ∧ sonos w' = sonos spinningWorld
    ∧ nextConn w' = nextConn spinningWorld
    ∧ ∀ id t, timers w' !! id = Some t → timers spinningWorld !! id = Some t.
Proof.
  apply (input_without_address_stays_local
           (EDialRotate (mkRotateEvent 7 unconfigured 1)) spinningWorld); reflexivity.
Defined.

(** ** One write per window *)

(** X19. Take a reachable state in which no debounced write is suspended on
    its unmute and the pending debounce timer, if there is one, holds [nv].
    Then, whatever happens next short of another rotation (timers expiring,
    promises settling either way, presses, taps, settings and lifecycle
    events, in any order), the [setVolume] calls made are none, or exactly
    one, and that one carries [nv]. *)
Theorem one_write_per_window (w w' : World) (es : list Event) (nv : Z) :
  reachable w →
  (∀ v, ¬ unmuting w v) →
  (∀ id t a ip v, timers w !! id = Some t → callback t = VolumeChange a ip v → v = nv) →
  forallb (λ e, negb (isRotation e)) es = true →
  run es w = Some w' →
  setVolumeCalls (emitted w w') = [] ∨ setVolumeCalls (emitted w w') = [nv].
Proof.
  intros Hr Hnu Hnv Hes Hrun.
  apply (one_write_run nv w es w'); [by apply reachable_timers_ok | | exact Hes | exact Hrun].
  split.
  - intros id t a ip v Hl Hcb. split; [by eapply Hnv | exact Hnu].
  - intros k a v Hl. destruct (Hnu v). by exists k, a.
Qed.

Lemma one_write_per_window_witness :
  setVolumeCalls
    (emitted spinningWorld
       (default initial
          (run [ETimer 0; EDialUp (mkDialUpEvent 7 lounge); ETimer 1; EWrite 3 true;
                ERead 2 None; EWrite 4 true] spinningWorld))) = []
  ∨ setVolumeCalls
      (emitted spinningWorld
         (default initial
            (run [ETimer 0; EDialUp (mkDialUpEvent 7 lounge); ETimer 1; EWrite 3 true;
                  ERead 2 None; EWrite 4 true] spinningWorld))) = [60].
Proof.
  apply (one_write_per_window spinningWorld _
           [ETimer 0; EDialUp (mkDialUpEvent 7 lounge); ETimer 1; EWrite 3 true;
            ERead 2 None; EWrite 4 true] 60).
  - apply (reachable_step (EDialRotate (mkRotateEvent 7 lounge 2)) connectedWorld);
      [| vm_compute; reflexivity].
    apply (reachable_run
             [EWillAppear (mkAppearEvent 7 true lounge);
              ERead 0 (Some (50, false));
              ERead 1 (Some (50, false))] initial);
      [apply reachable_initial | vm_compute; reflexivity].
  - intros v (k & a & Hk). apply elem_of_map_to_list in Hk.
    vm_compute in Hk. by apply elem_of_nil in Hk.
  - intros id t a ip v Hl Hcb. apply elem_of_map_to_list in Hl.
    vm_compute in Hl.
    repeat (apply elem_of_cons in Hl as [Hl | Hl]);
      [injection Hl as -> -> .. | by apply elem_of_nil in Hl];
      cbn [callback] in Hcb; congruence.
  - vm_compute. reflexivity.
  - vm_compute. reflexivity.
Defined.

(** The run of that witness: a poll wake, a press (muting), the debounce
    timer (which therefore unmutes first), the toggle settling, the poll
    failing, and the unmute resolving on the dropped client. *)
Example one_write_or_none :
  ∃ w', run [ETimer 0; EDialUp (mkDialUpEvent 7 lounge); ETimer 1; EWrite 3 true;
             ERead 2 None; EWrite 4 true] spinningWorld = Some w'
    ∧ setVolumeCalls (emitted spinningWorld w') = []
    ∧ setMutedCalls (emitted spinningWorld w') = [true; false]
    ∧ alerts (emitted spinningWorld w') = ["Failed to update volume"].
Proof. eexists. vm_compute. repeat split; reflexivity. Qed.

(** * The volume control action, continued *)

(** ** The address format check *)

Lemma digits13_spec (r s : list Ascii.ascii) :
  r ∈ VolumeControl.digits13 s ↔ ∃ a, VolumeControl.octet a ∧ s = a ++ r.
Proof.
  unfold VolumeControl.octet. split.
  - unfold VolumeControl.digits13.
    destruct s as [| c1 s1]; [by intros ?%elem_of_nil |].
    destruct (VolumeControl.isDigit c1) eqn:H1; [| by intros ?%elem_of_nil].
    intros [Hin | Hin%list_elem_of_singleton]%elem_of_app.
    2: { subst. exists [c1]. repeat split; cbn; try lia. by repeat constructor. }
    destruct s1 as [| c2 s2]; [by apply elem_of_nil in Hin |].
    destruct (VolumeControl.isDigit c2) eqn:H2; [| by apply elem_of_nil in Hin].
    apply elem_of_app in Hin as [Hin | Hin%list_elem_of_singleton].
    2: { subst. exists [c1; c2]. repeat split; cbn; try lia. by repeat constructor. }
    destruct s2 as [| c3 s3]; [by apply elem_of_nil in Hin |].
    destruct (VolumeControl.isDigit c3) eqn:H3; [| by apply elem_of_nil in Hin].
    apply list_elem_of_singleton in Hin. subst.
    exists [c1; c2; c3]. repeat split; cbn; try lia. by repeat constructor.
  - intros (a & [Hlen Hd] & ->).
    destruct a as [| c1 [| c2 [| c3 [| c4 a]]]]; cbn in Hlen; try lia.
    + inversion Hd as [| ? ? H1 _]; subst. cbn [app VolumeControl.digits13].
      rewrite H1. apply elem_of_app. right. by apply list_elem_of_singleton.
    + inversion Hd as [| ? ? H1 Hd']; subst. inversion Hd' as [| ? ? H2 _]; subst.
      cbn [app VolumeControl.digits13]. rewrite H1, H2.
      apply elem_of_app. left. apply elem_of_app. right. by apply list_elem_of_singleton.
    + inversion Hd as [| ? ? H1 Hd']; subst. inversion Hd' as [| ? ? H2 Hd'']; subst.
      inversion Hd'' as [| ? ? H3 _]; subst.
      cbn [app VolumeControl.digits13]. rewrite H1, H2, H3.
      apply elem_of_app. left. apply elem_of_app. left. by apply list_elem_of_singleton.
Qed.

Lemma dot_spec (r s : list Ascii.ascii) :
  r ∈ VolumeControl.dot s ↔ s = VolumeControl.dotChar :: r.
Proof.
  unfold VolumeControl.dot. destruct s as [| c s'].
  - split; [by intros ?%elem_of_nil | done].
  - destruct (Ascii.eqb c VolumeControl.dotChar) eqn:Hc.
    + apply Ascii.eqb_eq in Hc. subst. rewrite list_elem_of_singleton.
      split; [by intros -> | by intros [= ->]].
    + apply Ascii.eqb_neq in Hc. split; [by intros ?%elem_of_nil | by intros [= -> _]].
Qed.

Lemma group_spec (r s : list Ascii.ascii) :
  r ∈ VolumeControl.group s
  ↔ ∃ a, VolumeControl.octet a ∧ s = a ++ VolumeControl.dotChar :: r.
Proof.
  unfold VolumeControl.group. rewrite list_elem_of_bind. split.
  - intros (x & Hd%dot_spec & (a & Ha & ->)%digits13_spec). subst. by exists a.
  - intros (a & Ha & ->). exists (VolumeControl.dotChar :: r).
    split; [by apply dot_spec | apply digits13_spec; by exists a].
Qed.

(** The regular expression accepts exactly four groups of one to three
    decimal digits joined by dots. *)
Lemma ipRegexTest_spec (ip : string) :
  VolumeControl.ipRegexTest ip = true
  ↔ VolumeControl.dottedQuad (String.list_ascii_of_string ip).
Proof.
  unfold VolumeControl.ipRegexTest, VolumeControl.dottedQuad.
  rewrite existsb_exists. split.
  - intros (r & Hin%list_elem_of_In & ->%bool_decide_eq_true).
    apply list_elem_of_bind in Hin as (x3 & (d & Hd & ->)%digits13_spec & Hin).
    apply list_elem_of_bind in Hin as (x2 & (c & Hc & ->)%group_spec & Hin).
    apply list_elem_of_bind in Hin as (x1 & (b & Hb & ->)%group_spec & Hin).
    apply group_spec in Hin as (a & Ha & Hs).
    exists a, b, c, d. rewrite app_nil_r in Hs.
    exact (conj Ha (conj Hb (conj Hc (conj Hd Hs)))).
  - intros (a & b & c & d & Ha & Hb & Hc & Hd & Hs).
    exists []. split; [| by apply bool_decide_eq_true].
    apply list_elem_of_In, list_elem_of_bind. exists d.
    split; [apply digits13_spec; exists d; split; [exact Hd | by rewrite app_nil_r] |].
    apply list_elem_of_bind. exists (c ++ VolumeControl.dotChar :: d).
    split; [apply group_spec; by exists c |].
    apply list_elem_of_bind. exists (b ++ VolumeControl.dotChar :: c ++ VolumeControl.dotChar :: d).
    split; [apply group_spec; by exists b |].
    apply group_spec. by exists a.
Qed.

(** X15. [onSendToPlugin] shows an alert exactly when the message is a
    [validateIp] request whose address is not four groups of one to three
    decimal digits joined by dots; otherwise it does nothing.  The check is
    on the format only: groups above 255 pass. *)
Theorem validate_ip_alerts_iff_malformed
    (a : nat) (p : VolumeControl.PropertyInspectorPayload) :
  (VolumeControl.onSendToPlugin a p = [VolumeControl.ShowAlert a]
   ↔ VolumeControl.ptype p = "validateIp"
     ∧ ¬ VolumeControl.dottedQuad (String.list_ascii_of_string (VolumeControl.ip p)))
  ∧ (VolumeControl.onSendToPlugin a p = []
     ↔ VolumeControl.ptype p ≠ "validateIp"
       ∨ VolumeControl.dottedQuad (String.list_ascii_of_string (VolumeControl.ip p))).
Proof.
  unfold VolumeControl.onSendToPlugin.
  destruct (String.eqb (VolumeControl.ptype p) "validateIp") eqn:Ht.
  - apply String.eqb_eq in Ht.
    pose proof (ipRegexTest_spec (VolumeControl.ip p)) as Hspec.
    destruct (VolumeControl.ipRegexTest (VolumeControl.ip p)); cbn [negb].
    + assert (Hq : VolumeControl.dottedQuad
                     (String.list_ascii_of_string (VolumeControl.ip p)))
        by by apply Hspec.
      split; split; try done; [by intros [_ Hn] | by right].
    + assert (Hq : ¬ VolumeControl.dottedQuad
                       (String.list_ascii_of_string (VolumeControl.ip p))).
      { intros Hq. apply Hspec in Hq. done. }
      split; split; try done. by intros [Hn | Hn].
  - apply String.eqb_neq in Ht.
    split; split; try done; [by intros [Hn _] | by left].
Qed.

Example validate_ip_examples :
  VolumeControl.onSendToPlugin 3 (VolumeControl.mkPayload "validateIp" "192.168.1.20") = []
  ∧ VolumeControl.onSendToPlugin 3 (VolumeControl.mkPayload "validateIp" "999.999.999.999") = []
  ∧ VolumeControl.onSendToPlugin 3 (VolumeControl.mkPayload "validateIp" "192.168.1")
    = [VolumeControl.ShowAlert 3]
  ∧ VolumeControl.onSendToPlugin 3 (VolumeControl.mkPayload "validateIp" "192.168.1.2000")
    = [VolumeControl.ShowAlert 3]
  ∧ VolumeControl.onSendToPlugin 3 (VolumeControl.mkPayload "validateIp" "192.168.1.20 ")
    = [VolumeControl.ShowAlert 3]
  ∧ VolumeControl.onSendToPlugin 3 (VolumeControl.mkPayload "validateIp" EmptyString)
    = [VolumeControl.ShowAlert 3]
  ∧ VolumeControl.onSendToPlugin 3 (VolumeControl.mkPayload "other" "nonsense") = [].
Proof. vm_compute. repeat split; reflexivity. Qed.

(** ** Defaults, press and release, rotation *)

(** X16. [onWillAppear] of the volume control leaves every setting defined
    (step never zero), keeps every value that was usable, writes the
    settings back exactly when it had to fill something in, always redraws,
    and is idempotent: appearing again with the settings it produced writes
    nothing and changes nothing. *)
Theorem appear_fills_defaults (ev : VolumeControl.WillAppearEvent) :
  let a := VolumeControl.wa_action ev in
  let st0 := VolumeControl.wa_settings ev in
  let st := fst (VolumeControl.onWillAppear ev) in
  let calls := snd (VolumeControl.onWillAppear ev) in
  (is_Some (VolumeControl.speakerIp st) ∧ is_Some (VolumeControl.currentVolume st)
   ∧ is_Some (VolumeControl.isMuted st)
   ∧ ∃ n, VolumeControl.volumeStep st = Some n ∧ n ≠ 0)
  ∧ (∀ x, VolumeControl.speakerIp st0 = Some x → VolumeControl.speakerIp st = Some x)
  ∧ (∀ x, VolumeControl.currentVolume st0 = Some x → VolumeControl.currentVolume st = Some x)
  ∧ (∀ x, VolumeControl.isMuted st0 = Some x → VolumeControl.isMuted st = Some x)
  ∧ (∀ n, VolumeControl.volumeStep st0 = Some n → n ≠ 0 →
          VolumeControl.volumeStep st = Some n)
  ∧ (VolumeControl.SetSettings a st ∈ calls ↔ st ≠ st0)
  ∧ (∃ fb, last calls = Some (VolumeControl.SetFeedback a fb))
  ∧ VolumeControl.onWillAppear (VolumeControl.mkWillAppearEvent a st)
    = (st, VolumeControl.updateVolumeDisplay a
             (default 50 (VolumeControl.currentVolume st))
             (default false (VolumeControl.isMuted st))).
Proof.
  destruct ev as [a [ip step vol muted]]. cbv zeta.
  unfold VolumeControl.onWillAppear, VolumeControl.withDefaults, VolumeControl.needsUpdate,
    VolumeControl.truthyNumber, VolumeControl.updateVolumeDisplay.
  cbn [fst snd VolumeControl.wa_action VolumeControl.wa_settings VolumeControl.speakerIp
       VolumeControl.volumeStep VolumeControl.currentVolume VolumeControl.isMuted].
  destruct ip as [ip|], vol as [vol|], muted as [muted|], step as [step|];
    try destruct (Z.eqb_spec step 0) as [-> | Hne];
    cbn; repeat split; eauto; try congruence;
    try (intros H; try apply list_elem_of_In in H; cbn in H; intuition congruence);
    try (intros _; apply list_elem_of_In; cbn; auto);
    try (eexists; split; [reflexivity | lia]);
    try (rewrite ?Z.eqb_refl; destruct (Z.eqb_spec step 0); [lia | reflexivity]).
Qed.

Example appear_on_empty_settings :
  VolumeControl.onWillAppear
    (VolumeControl.mkWillAppearEvent 3 (VolumeControl.mkSonosSettings None None None None))
  = (VolumeControl.mkSonosSettings (Some EmptyString) (Some 2) (Some 50) (Some false),
     [VolumeControl.SetSettings 3
        (VolumeControl.mkSonosSettings (Some EmptyString) (Some 2) (Some 50) (Some false));
      VolumeControl.SetFeedback 3
        (VolumeControl.mkFeedback "Volume 50%" "imgs/actions/volume/icon" "50%" 50 true)]).
Proof. vm_compute. reflexivity. Qed.

(** X17. The volume control toggles mute on release only if it saw the
    press: a release without a press does nothing; a press followed by a
    release flips the mute flag (an absent flag counts as unmuted), writes
    the settings, redraws with the new flag, and forgets the press, so a
    second release alone does nothing; two press-release rounds bring a
    defined flag back. *)
Theorem release_toggles_only_after_press (pressed : bool) (ev : VolumeControl.PressEvent) :
  let a := VolumeControl.pe_action ev in
  let st0 := VolumeControl.pe_settings ev in
  let round st := VolumeControl.onDialUp (VolumeControl.onDialDown pressed)
                    (VolumeControl.mkPressEvent a st) in
  let st1 := snd (fst (round st0)) in
  VolumeControl.onDialUp false ev = (false, st0, [])
  ∧ fst (fst (round st0)) = false
  ∧ VolumeControl.isMuted st1 = Some (negb (default false (VolumeControl.isMuted st0)))
  ∧ VolumeControl.speakerIp st1 = VolumeControl.speakerIp st0
  ∧ VolumeControl.volumeStep st1 = VolumeControl.volumeStep st0
  ∧ VolumeControl.currentVolume st1 = VolumeControl.currentVolume st0
  ∧ snd (round st0)
    = VolumeControl.SetSettings a st1
        :: VolumeControl.updateVolumeDisplay a
             (default 50 (VolumeControl.currentVolume st0))
             (negb (default false (VolumeControl.isMuted st0)))
  ∧ VolumeControl.onDialUp (fst (fst (round st0))) (VolumeControl.mkPressEvent a st1)
    = (false, st1, [])
  ∧ (is_Some (VolumeControl.isMuted st0) → snd (fst (round st1)) = st0).
Proof.
  destruct ev as [a [ip step vol muted]]. cbv zeta.
  unfold VolumeControl.onDialUp, VolumeControl.onDialDown. cbn.
  repeat split. intros [m ->]. cbn. by rewrite negb_involutive.
Qed.

Lemma release_toggles_only_after_press_witness :
  snd (fst (VolumeControl.onDialUp (VolumeControl.onDialDown false)
              (VolumeControl.mkPressEvent 3
                 (snd (fst (VolumeControl.onDialUp (VolumeControl.onDialDown false)
                              (VolumeControl.mkPressEvent 3
                                 (VolumeControl.mkSonosSettings
                                    (Some "192.168.1.20") (Some 2) (Some 40) (Some true)))))))))
  = VolumeControl.mkSonosSettings (Some "192.168.1.20") (Some 2) (Some 40) (Some true).
Proof.
  apply (release_toggles_only_after_press false
           (VolumeControl.mkPressEvent 3
              (VolumeControl.mkSonosSettings
                 (Some "192.168.1.20") (Some 2) (Some 40) (Some true)))).
  by eexists.
Defined.

(** X18. An unmuted rotation of the volume control stores a volume in
    [0, 100], namely [max 0 (min 100 (current + step * ticks))] with 50 and 2
    as defaults, leaves the other settings alone, writes exactly those
    settings, and then draws exactly that volume as unmuted. *)
Theorem unmuted_rotation_clamps (ev : VolumeControl.DialRotateEvent) :
  VolumeControl.isMuted (VolumeControl.settings ev) ≠ Some true →
  let st0 := VolumeControl.settings ev in
  let st := fst (VolumeControl.onDialRotate ev) in
  let v := Z.max 0 (Z.min 100 (default 50 (VolumeControl.currentVolume st0)
                               + default 2 (VolumeControl.volumeStep st0)
                                 * VolumeControl.ticks ev)) in
  VolumeControl.currentVolume st = Some v
  ∧ 0 ≤ v ≤ 100
  ∧ VolumeControl.speakerIp st = VolumeControl.speakerIp st0
  ∧ VolumeControl.volumeStep st = VolumeControl.volumeStep st0
  ∧ VolumeControl.isMuted st = VolumeControl.isMuted st0
  ∧ snd (VolumeControl.onDialRotate ev)
    = [VolumeControl.SetSettings (VolumeControl.action ev) st;
       VolumeControl.SetFeedback (VolumeControl.action ev)
         (VolumeControl.mkFeedback ("Volume " +:+ pretty v +:+ "%")
            "imgs/actions/volume/icon" (pretty v +:+ "%") v true)].
Proof.
  intros Hm. cbv zeta. unfold VolumeControl.onDialRotate.
  destruct (VolumeControl.isMuted (VolumeControl.settings ev)) as [[]|] eqn:Em;
    [done | |]; cbn; rewrite ?Em; repeat split; lia.
Qed.

Lemma unmuted_rotation_clamps_witness :
  let ev := VolumeControl.mkDialRotateEvent 3
              (VolumeControl.mkSonosSettings (Some "192.168.1.20") (Some 10) (Some 95)
                 (Some false)) 4 in
  let st0 := VolumeControl.settings ev in
  let st := fst (VolumeControl.onDialRotate ev) in
  let v := Z.max 0 (Z.min 100 (default 50 (VolumeControl.currentVolume st0)
                               + default 2 (VolumeControl.volumeStep st0)
                                 * VolumeControl.ticks ev)) in
  VolumeControl.currentVolume st = Some v
  ∧ 0 ≤ v ≤ 100
  ∧ VolumeControl.speakerIp st = VolumeControl.speakerIp st0
  ∧ VolumeControl.volumeStep st = VolumeControl.volumeStep st0
  ∧ VolumeControl.isMuted st = VolumeControl.isMuted st0
  ∧ snd (VolumeControl.onDialRotate ev)
    = [VolumeControl.SetSettings (VolumeControl.action ev) st;
       VolumeControl.SetFeedback (VolumeControl.action ev)
         (VolumeControl.mkFeedback ("Volume " +:+ pretty v +:+ "%")
            "imgs/actions/volume/icon" (pretty v +:+ "%") v true)].
Proof.
  apply (unmuted_rotation_clamps
           (VolumeControl.mkDialRotateEvent 3
              (VolumeControl.mkSonosSettings (Some "192.168.1.20") (Some 10) (Some 95)
                 (Some false)) 4)).
  vm_compute. discriminate.
Defined.
